(** * cpg-reducer: the graph reduction pipeline of [cpg-reducer.cc]

    A shallow embedding of the three stages of the program
    ([graph_remove_intra_edges], [graph_merge_intra_nodes],
    [graph_print_d3_arc]) and of the per-graph body of [main], over a
    small model of the attributed-graph storage layer (Graphviz cgraph)
    the program is written against.

    The storage layer is modelled as the capability set the program
    uses: nodes and edges are kept in sequence order, a handle is the
    sequence number of the object, and every operation applied to a
    handle whose object has been deleted is reported as [UseAfterFree]
    (in C it dereferences freed memory).  The attributes of a node are
    the names it has a value for, in cgraph those declared for the nodes
    of its graph: [agget] gives [NULL] for any other name, and [agset]
    replaces the value of an attribute the node has and stores nothing
    under any other name.  The emitter keeps string lengths in [int]:
    they are taken modulo 2^32 into the signed range. *)

From Stdlib Require Import String Ascii List Bool Arith PeanoNat ZArith Lia.
Import ListNotations.
Open Scope string_scope.
Open Scope list_scope.
Open Scope nat_scope.

(** ** Outcomes of a run *)

Inductive error : Type :=
| AssertFailed   (* assert(...) failed: abort() *)
| NullDeref      (* strlen(NULL) *)
| UseAfterFree   (* a deleted node or edge handle was used *)
| OutOfFuel.     (* the loop bound of the model was too small *)

Inductive outcome (A : Type) : Type :=
| Ok (a : A)
| Abort (e : error).
Arguments Ok {A} a.
Arguments Abort {A} e.

Definition bind {A B} (m : outcome A) (f : A -> outcome B) : outcome B :=
  match m with
  | Ok a => f a
  | Abort e => Abort e
  end.

Declare Scope outcome_scope.
Delimit Scope outcome_scope with outcome.
Notation "x <- m ;; k" := (bind m (fun x => k))
  (at level 61, m at next level, right associativity) : outcome_scope.
Notation "' p <- m ;; k" := (bind m (fun p => k))
  (at level 61, p pattern, m at next level, right associativity) : outcome_scope.
Open Scope outcome_scope.

(** [assert(p != NULL)] followed by a use of [p]. *)
Definition assert_not_null {A} (p : option A) : outcome A :=
  match p with
  | Some a => Ok a
  | None => Abort AssertFailed
  end.

(** A use of [p] with no check before it ([strlen(p)]). *)
Definition deref {A} (p : option A) : outcome A :=
  match p with
  | Some a => Ok a
  | None => Abort NullDeref
  end.

(** [for (x = first; x != NULL; x = nxt) { nxt = ...; body }]: the body
    receives the loop state and the cursor and returns the new state and
    the saved next cursor.  [fuel] bounds the number of turns: the loops
    below are given the number of nodes, or of edges, of the graph they
    walk, one turn for each. *)
Fixpoint for_loop {S H : Type} (fuel : nat)
    (body : S -> H -> outcome (S * option H)) (s : S) (cur : option H)
    : outcome S :=
  match cur with
  | None => Ok s
  | Some x =>
      match fuel with
      | O => Abort OutOfFuel
      | Datatypes.S fuel' =>
          '(s', nxt) <- body s x ;;
          for_loop fuel' body s' nxt
      end
  end.

(** ** The attributed graph *)

Definition attrs := list (string * string).

Fixpoint attr_get (key : string) (a : attrs) : option string :=
  match a with
  | [] => None
  | (k, v) :: a' => if String.eqb k key then Some v else attr_get key a'
  end.

Fixpoint attr_set (key val : string) (a : attrs) : attrs :=
  match a with
  | [] => [(key, val)]
  | (k, v) :: a' =>
      if String.eqb k key then (k, val) :: a' else (k, v) :: attr_set key val a'
  end.

(** [Agnode_t *] and [Agedge_t *]: a handle is the sequence number of
    the object; [option] adds [NULL]. *)
Definition Agnode_t := nat.
Definition Agedge_t := nat.

Record node : Type := mkNode {
  n_id : Agnode_t;
  n_name : string;
  n_attrs : attrs
}.

Record edge : Type := mkEdge {
  e_id : Agedge_t;
  e_tail : Agnode_t;
  e_head : Agnode_t;
  e_attrs : attrs
}.

(** Nodes and edges in sequence (creation) order, the order in which
    [agfstnode]/[agnxtnode] and [agfstout]/[agnxtout] walk them. *)
Record Agraph_t : Type := mkGraph {
  g_nodes : list node;
  g_edges : list edge
}.

Definition find_node (g : Agraph_t) (n : Agnode_t) : option node :=
  find (fun x => n_id x =? n) (g_nodes g).

Definition find_edge (g : Agraph_t) (e : Agedge_t) : option edge :=
  find (fun x => e_id x =? e) (g_edges g).

(** The handle following [x] in [l]; [None] when [x] is not in [l]. *)
Fixpoint succ_in (l : list nat) (x : nat) : option (option nat) :=
  match l with
  | [] => None
  | y :: l' => if y =? x then Some (hd_error l') else succ_in l' x
  end.

Definition out_edges (g : Agraph_t) (n : Agnode_t) : list edge :=
  filter (fun e => e_tail e =? n) (g_edges g).

Definition in_edges (g : Agraph_t) (n : Agnode_t) : list edge :=
  filter (fun e => e_head e =? n) (g_edges g).

Definition agfstnode (g : Agraph_t) : option Agnode_t :=
  hd_error (map n_id (g_nodes g)).

Definition agnxtnode (g : Agraph_t) (n : Agnode_t) : outcome (option Agnode_t) :=
  match succ_in (map n_id (g_nodes g)) n with
  | Some r => Ok r
  | None => Abort UseAfterFree
  end.

Definition agfstout (g : Agraph_t) (n : Agnode_t) : outcome (option Agedge_t) :=
  match find_node g n with
  | Some _ => Ok (hd_error (map e_id (out_edges g n)))
  | None => Abort UseAfterFree
  end.

Definition agnxtout (g : Agraph_t) (e : Agedge_t) : outcome (option Agedge_t) :=
  match find_edge g e with
  | Some ed =>
      match succ_in (map e_id (out_edges g (e_tail ed))) e with
      | Some r => Ok r
      | None => Abort UseAfterFree
      end
  | None => Abort UseAfterFree
  end.

Definition aghead (g : Agraph_t) (e : Agedge_t) : outcome Agnode_t :=
  match find_edge g e with
  | Some ed => Ok (e_head ed)
  | None => Abort UseAfterFree
  end.

(** [agget(n, key)] on a node: [NULL] when the node has no such attribute. *)
Definition agget (g : Agraph_t) (n : Agnode_t) (key : string)
    : outcome (option string) :=
  match find_node g n with
  | Some nd => Ok (attr_get key (n_attrs nd))
  | None => Abort UseAfterFree
  end.

(** [agget(e, key)] on an edge. *)
Definition agget_edge (g : Agraph_t) (e : Agedge_t) (key : string)
    : outcome (option string) :=
  match find_edge g e with
  | Some ed => Ok (attr_get key (e_attrs ed))
  | None => Abort UseAfterFree
  end.

(** [agdelete(g, e)] on an edge. *)
Definition agdelete (g : Agraph_t) (e : Agedge_t) : outcome Agraph_t :=
  match find_edge g e with
  | Some _ =>
      Ok (mkGraph (g_nodes g) (filter (fun x => negb (e_id x =? e)) (g_edges g)))
  | None => Abort UseAfterFree
  end.

(** [agdegree(g, n, in, out)]: a loop on [n] is counted on both sides. *)
Definition agdegree (g : Agraph_t) (n : Agnode_t) (want_in want_out : bool)
    : outcome nat :=
  match find_node g n with
  | Some _ =>
      Ok ((if want_in then length (in_edges g n) else 0) +
          (if want_out then length (out_edges g n) else 0))
  | None => Abort UseAfterFree
  end.

(** [agdelnode(g, n)]: the node goes, and every edge at it. *)
Definition agdelnode (g : Agraph_t) (n : Agnode_t) : outcome Agraph_t :=
  match find_node g n with
  | Some _ =>
      Ok (mkGraph
            (filter (fun x => negb (n_id x =? n)) (g_nodes g))
            (filter (fun x => negb (e_tail x =? n) && negb (e_head x =? n))
                    (g_edges g)))
  | None => Abort UseAfterFree
  end.

(** ** [graph_remove_intra_edges] *)

Definition strlen (s : string) : nat := String.length s.

(** [strcmp(a, b) != 0] *)
Definition strcmp_ne (a b : string) : bool := negb (String.eqb a b).

(** The loop state of the reducer: the graph, [nxtnode], [isreduced]. *)
Definition rstate : Type := Agraph_t * option Agnode_t * bool.

(** One turn of the loop over the outgoing edges of [n] (lines 101-139). *)
Definition remove_intra_edge (n : Agnode_t) (file_n : string)
    (st : rstate) (e : Agedge_t) : outcome (rstate * option Agedge_t) :=
  let '(g, nxtnode, isreduced) := st in
  nxtout <- agnxtout g e ;;
  m <- aghead g e ;;
  p <- agget g m "file" ;;
  file_m <- assert_not_null p ;;
  if (strlen file_n =? 0) || (strlen file_m =? 0) || strcmp_ne file_n file_m
  then Ok (st, nxtout)
  else
    g1 <- agdelete g e ;;
    d <- agdegree g1 m true true ;;
    if 0 <? d then Ok ((g1, nxtnode, true), nxtout)
    else
      nxtnode' <- (match nxtnode with
                   | Some x => if x =? m then agnxtnode g1 x else Ok nxtnode
                   | None => Ok nxtnode
                   end) ;;
      g2 <- agdelnode g1 m ;;
      Ok ((g2, nxtnode', true), nxtout).

(** One turn of the loop over the nodes (lines 94-152). *)
Definition remove_intra_node (g : Agraph_t) (n : Agnode_t)
    : outcome (Agraph_t * option Agnode_t) :=
  nxtnode <- agnxtnode g n ;;
  p <- agget g n "file" ;;
  file_n <- assert_not_null p ;;
  e0 <- agfstout g n ;;
  '(g', nxtnode', isreduced) <-
     for_loop (length (g_edges g)) (remove_intra_edge n file_n)
              (g, nxtnode, false) e0 ;;
  if isreduced then
    d <- agdegree g' n true true ;;
    if d =? 0 then
      g'' <- agdelnode g' n ;;
      Ok (g'', nxtnode')
    else Ok (g', nxtnode')
  else Ok (g', nxtnode').

Definition graph_remove_intra_edges (g : Agraph_t) : outcome Agraph_t :=
  for_loop (length (g_nodes g)) remove_intra_node g (agfstnode g).

(** ** Standard output *)

(** One [printf] call each.  [NodeObj] is the call of lines 212-217 and
    [LinkObj] the one of lines 238-243, with the strings the conversions
    of the format produce; [Text] is a call whose output is fixed text
    (or the line of line 178).  [render] gives the characters written. *)
Inductive out_item : Type :=
| Text (s : string)
| NodeObj (id group : string)
| LinkObj (source target value : string).

Definition stdout_t : Type := list out_item.

Definition dq : string := String "034"%char EmptyString.
Definition nl : string := String "010"%char EmptyString.

Definition render (o : out_item) : string :=
  match o with
  | Text s => s
  | NodeObj id group =>
      ("    {" ++ dq ++ "id" ++ dq ++ ": " ++ dq ++ id ++ dq ++ ", "
       ++ dq ++ "group" ++ dq ++ ": " ++ dq ++ group ++ dq ++ "}")%string
  | LinkObj source target value =>
      ("    {" ++ dq ++ "source" ++ dq ++ ": " ++ dq ++ source ++ dq ++ ", "
       ++ dq ++ "target" ++ dq ++ ": " ++ dq ++ target ++ dq ++ ", "
       ++ dq ++ "value" ++ dq ++ ": " ++ dq ++ value ++ dq ++ "}")%string
  end.

Definition stdout_text (out : stdout_t) : string :=
  fold_right (fun o acc => (render o ++ acc)%string) EmptyString out.

(** A computation that writes to standard output and may abort: the
    outcome and the output of the calls of [printf] made up to it, in
    order.  How much of it has left the buffer of the stream when a run
    is aborted is not modelled. *)
Definition io (A : Type) : Type := outcome A * stdout_t.

Definition io_ret {A} (a : A) : io A := (Ok a, []).

Definition io_bind {A B} (m : io A) (f : A -> io B) : io B :=
  match fst m with
  | Ok a => (fst (f a), snd m ++ snd (f a))
  | Abort e => (Abort e, snd m)
  end.

Definition lift {A} (m : outcome A) : io A := (m, []).

Definition printf (o : out_item) : io unit := (Ok tt, [o]).

Notation "x <~ m ;; k" := (io_bind m (fun x => k))
  (at level 61, m at next level, right associativity) : outcome_scope.
Notation "' p <~ m ;; k" := (io_bind m (fun p => k))
  (at level 61, p pattern, m at next level, right associativity) : outcome_scope.

Fixpoint for_loop_io {S H : Type} (fuel : nat)
    (body : S -> H -> io (S * option H)) (s : S) (cur : option H) : io S :=
  match cur with
  | None => io_ret s
  | Some x =>
      match fuel with
      | O => lift (Abort OutOfFuel)
      | Datatypes.S fuel' =>
          '(s', nxt) <~ body s x ;;
          for_loop_io fuel' body s' nxt
      end
  end.

(** ** [graph_merge_intra_nodes] *)

(** [agopen("kernel", Agstrictdirected, NULL)] *)
Definition agopen : Agraph_t := mkGraph [] [].

(** The node attributes declared in a graph made by [agopen], with
    their default values.  [gvContext] (line 295) declares [label] for
    the nodes of every graph opened after it, with the node name
    escape as default; the program declares nothing in [h] (there is no
    call of [agattr]), so [file] is not an attribute of its nodes. *)
Definition agopen_node_attrs : attrs := [("label", "\N")].

(** [agnode(h, name, true)]: the node of that name, created at the end
    of the sequence when there is none, with the default value of each
    attribute declared in [h]. *)
Definition agnode (h : Agraph_t) (name : string) : Agraph_t * Agnode_t :=
  match find (fun x => String.eqb (n_name x) name) (g_nodes h) with
  | Some x => (h, n_id x)
  | None =>
      let id := Datatypes.S (list_max (map n_id (g_nodes h))) in
      (mkGraph (g_nodes h ++ [mkNode id name agopen_node_attrs]) (g_edges h),
       id)
  end.

(** [agset(n, key, val)] on a node, its result dropped as at lines 177
    and 179: the value of an attribute the node has is replaced; for any
    other name, one that is not declared in the graph, the call fails
    and the graph is as before. *)
Definition agset (h : Agraph_t) (n : Agnode_t) (key val : string)
    : outcome Agraph_t :=
  match find_node h n with
  | Some nd =>
      match attr_get key (n_attrs nd) with
      | Some _ =>
          Ok (mkGraph
                (map (fun x => if n_id x =? n
                               then mkNode (n_id x) (n_name x)
                                           (attr_set key val (n_attrs x))
                               else x)
                     (g_nodes h))
                (g_edges h))
      | None => Ok h
      end
  | None => Abort UseAfterFree
  end.

(** [std::map<std::string, Agnode_t *>]: only [find] and [insert] are
    used, and [insert] only after a failed [find]. *)
Definition compartments_t : Type := list (string * Agnode_t).

Fixpoint map_find (c : compartments_t) (k : string) : option Agnode_t :=
  match c with
  | [] => None
  | (k', v) :: c' => if String.eqb k' k then Some v else map_find c' k
  end.

Definition map_insert (c : compartments_t) (k : string) (v : Agnode_t)
    : compartments_t :=
  match map_find c k with
  | Some _ => c
  | None => c ++ [(k, v)]
  end.

(** Lines 185-187: the loop over the outgoing edges, with its empty body. *)
Definition merge_out_edge (g : Agraph_t) (u : unit) (e : Agedge_t)
    : io (unit * option Agedge_t) :=
  nxtout <~ lift (agnxtout g e) ;;
  io_ret (u, nxtout).

(** One turn of the loop over the nodes (lines 167-188). *)
Definition merge_intra_node (g : Agraph_t)
    (st : Agraph_t * compartments_t) (n : Agnode_t)
    : io ((Agraph_t * compartments_t) * option Agnode_t) :=
  let '(h, compartments) := st in
  nxtnode <~ lift (agnxtnode g n) ;;
  p <~ lift (agget g n "file") ;;
  file_n <~ lift (assert_not_null p) ;;
  if strlen file_n =? 0 then io_ret (st, nxtnode)
  else
    '(h', compartments', compartment) <~
       (match map_find compartments file_n with
        | None =>
            let '(h1, c) := agnode h file_n in
            h2 <~ lift (agset h1 c "label" file_n) ;;
            _ <~ printf (Text ("label " ++ file_n ++ " file " ++ file_n
                               ++ nl)%string) ;;
            h3 <~ lift (agset h2 c "file" file_n) ;;
            io_ret (h3, map_insert compartments file_n c, c)
        | Some c => io_ret (h, compartments, c)
        end) ;;
    e0 <~ lift (agfstout g n) ;;
    _ <~ for_loop_io (length (g_edges g)) (merge_out_edge g) tt e0 ;;
    io_ret ((h', compartments'), nxtnode).

Definition graph_merge_intra_nodes (g : Agraph_t) : io Agraph_t :=
  let h := agopen in
  '(h', _) <~ for_loop_io (length (g_nodes g)) (merge_intra_node g)
                          (h, []) (agfstnode g) ;;
  io_ret h'.

(** ** [graph_print_d3_arc] *)

(** [int len = strlen(s)] (lines 208, 210, 229, 235): the length is
    converted to a 32-bit [int], modulo 2^32 into the signed range. *)
Definition int_of_size (n : nat) : Z :=
  ((Z.of_nat n + 2147483648) mod 4294967296 - 2147483648)%Z.

Definition strlen_int (s : string) : Z := int_of_size (strlen s).

(** [printf("%.*s", prec, s + off)]: at most [prec] characters of [s],
    from offset [off].  The precisions computed below are never
    negative. *)
Definition precision (prec : Z) (s : string) (off : nat) : string :=
  substring off (Z.to_nat prec) s.

(** The [id], [source] and [target] conversions:
    [labellen > 2 ? labellen - 2 : 0] characters of [label + 1]. *)
Definition label_field (label : string) : string :=
  precision (if (2 <? strlen_int label)%Z then (strlen_int label - 2)%Z
             else 0%Z)
            label 1.

(** The [group] conversions: [filelen > 4 ? filelen - 4 : 0] characters
    of [file + 1], then [NONE] when [filelen == 0]. *)
Definition group_field (file : string) : string :=
  String.append
    (precision (if (4 <? strlen_int file)%Z then (strlen_int file - 4)%Z
                else 0%Z)
               file 1)
    (if (strlen_int file =? 0)%Z then "NONE" else EmptyString).

Definition is_null {A} (p : option A) : bool :=
  match p with
  | Some _ => false
  | None => true
  end.

(** One turn of the first loop (lines 204-221). *)
Definition print_node (g : Agraph_t) (u : unit) (n : Agnode_t)
    : io (unit * option Agnode_t) :=
  nxtnode <~ lift (agnxtnode g n) ;;
  p <~ lift (agget g n "label") ;;
  labeln <~ lift (deref p) ;;
  q <~ lift (agget g n "file") ;;
  file <~ lift (deref q) ;;
  _ <~ printf (NodeObj (label_field labeln) (group_field file)) ;;
  _ <~ (if negb (is_null nxtnode) then printf (Text ",") else io_ret tt) ;;
  _ <~ printf (Text nl) ;;
  io_ret (u, nxtnode).

(** One turn of the loop over the outgoing edges (lines 231-247). *)
Definition print_link (g : Agraph_t) (labeln : string)
    (nxtnode : option Agnode_t) (u : unit) (e : Agedge_t)
    : io (unit * option Agedge_t) :=
  nxtout <~ lift (agnxtout g e) ;;
  m <~ lift (aghead g e) ;;
  p <~ lift (agget g m "label") ;;
  labelm <~ lift (deref p) ;;
  value <~ lift (agget_edge g e "value") ;;
  _ <~ printf (LinkObj (label_field labeln) (label_field labelm)
                       (match value with
                        | Some v => v
                        | None => EmptyString
                        end)) ;;
  _ <~ (if negb (is_null nxtout) || negb (is_null nxtnode)
        then printf (Text ",") else io_ret tt) ;;
  _ <~ printf (Text nl) ;;
  io_ret (u, nxtout).

(** One turn of the second loop over the nodes (lines 225-248). *)
Definition print_links (g : Agraph_t) (u : unit) (n : Agnode_t)
    : io (unit * option Agnode_t) :=
  nxtnode <~ lift (agnxtnode g n) ;;
  p <~ lift (agget g n "label") ;;
  labeln <~ lift (deref p) ;;
  e0 <~ lift (agfstout g n) ;;
  _ <~ for_loop_io (length (g_edges g)) (print_link g labeln nxtnode) tt e0 ;;
  io_ret (u, nxtnode).

Definition graph_print_d3_arc (g : Agraph_t) : io unit :=
  _ <~ printf (Text ("{" ++ nl)%string) ;;
  _ <~ printf (Text ("  " ++ dq ++ "nodes" ++ dq ++ ": [" ++ nl)%string) ;;
  _ <~ for_loop_io (length (g_nodes g)) (print_node g) tt (agfstnode g) ;;
  _ <~ printf (Text ("  ]," ++ nl)%string) ;;
  _ <~ printf (Text ("  " ++ dq ++ "links" ++ dq ++ ": [" ++ nl)%string) ;;
  _ <~ for_loop_io (length (g_nodes g)) (print_links g) tt (agfstnode g) ;;
  _ <~ printf (Text ("  ]" ++ nl)%string) ;;
  printf (Text ("}" ++ nl)%string).

(** ** The body of the loop of [main] (lines 298-316) *)

Inductive node_type_t : Type :=
| NODE_TYPE_INVALID
| NODE_TYPE_FUNCTION
| NODE_TYPE_COMPARTMENT.

Inductive format_type_t : Type :=
| FORMAT_TYPE_INVALID
| FORMAT_TYPE_D3_ARC.

Definition node_type_from_str (str : string) : node_type_t :=
  if String.eqb str "function" then NODE_TYPE_FUNCTION
  else if String.eqb str "compartment" then NODE_TYPE_COMPARTMENT
  else NODE_TYPE_INVALID.

Definition format_type_from_str (str : string) : format_type_t :=
  if String.eqb str "d3-arc" then FORMAT_TYPE_D3_ARC
  else FORMAT_TYPE_INVALID.

Definition process_graph (nodetype : node_type_t) (formattype : format_type_t)
    (g : Agraph_t) : io unit :=
  g1 <~ lift (graph_remove_intra_edges g) ;;
  g2 <~ (match nodetype with
         | NODE_TYPE_COMPARTMENT => graph_merge_intra_nodes g1
         | _ => io_ret g1
         end) ;;
  match formattype with
  | FORMAT_TYPE_D3_ARC => graph_print_d3_arc g2
  | _ => io_ret tt
  end.

(** ** Well-formed graphs *)

Definition node_ids (g : Agraph_t) : list Agnode_t := map n_id (g_nodes g).
Definition edge_ids (g : Agraph_t) : list Agedge_t := map e_id (g_edges g).

(** What the storage layer guarantees of any graph it hands out:
    handles are unique and an edge joins two nodes of the graph. *)
Record wf (g : Agraph_t) : Prop := mkWf {
  wf_nodes : NoDup (node_ids g);
  wf_edges : NoDup (edge_ids g);
  wf_ends : forall e, In e (g_edges g) ->
            In (e_tail e) (node_ids g) /\ In (e_head e) (node_ids g)
}.

Definition file_of (x : node) : option string := attr_get "file" (n_attrs x).
Definition label_of (x : node) : option string := attr_get "label" (n_attrs x).

(** The [file] of the node behind a handle. *)
Definition node_file (g : Agraph_t) (n : Agnode_t) : option string :=
  match find_node g n with
  | Some x => file_of x
  | None => None
  end.

(** The test of lines 108-109, negated: both files are there, non-empty
    and equal. *)
Definition same_file (a b : option string) : bool :=
  match a, b with
  | Some fa, Some fb =>
      negb ((strlen fa =? 0) || (strlen fb =? 0) || strcmp_ne fa fb)
  | _, _ => false
  end.

Definition intra_edge (g : Agraph_t) (e : edge) : bool :=
  same_file (node_file g (e_tail e)) (node_file g (e_head e)).

Definition incident (n : Agnode_t) (e : edge) : Prop :=
  e_tail e = n \/ e_head e = n.

Definition has_file (x : node) : Prop := file_of x <> None.

(** No edge at [m]: [agdegree(g, m, true, true) == 0]. *)
Definition isolated (g : Agraph_t) (m : Agnode_t) : Prop :=
  length (in_edges g m) + length (out_edges g m) = 0.

Definition all_have_file (g : Agraph_t) : Prop :=
  forall x, In x (g_nodes g) -> has_file x.

(** No loop edge inside one file: what rules out the use of a deleted
    handle. *)
Definition no_intra_loop (g : Agraph_t) : Prop :=
  forall e, In e (g_edges g) -> e_tail e = e_head e -> intra_edge g e = false.

(** ** What a pass of the reducer keeps: the relation between the graph
    [g0] it was given and the graph [g] it has reached *)

Record reduct (g0 g : Agraph_t) : Prop := mkReduct {
  red_nodes : exists p, g_nodes g = filter p (g_nodes g0);
  red_edges : exists p, g_edges g = filter p (g_edges g0);
  red_edge_gone : forall e, In e (g_edges g0) -> ~ In e (g_edges g) ->
                  intra_edge g0 e = true;
  red_node_gone : forall x, In x (g_nodes g0) -> ~ In x (g_nodes g) ->
                  has_file x /\
                  exists e, In e (g_edges g0) /\ incident (n_id x) e
}.

(** The aborts a pass over [g0] can end in, each with its cause in [g0]:
    a failed assertion needs a node without [file]; the use of a deleted
    handle needs a loop edge inside one file; the loop bounds suffice. *)
Definition expected (g0 : Agraph_t) (e : error) : Prop :=
  match e with
  | AssertFailed => exists x, In x (g_nodes g0) /\ file_of x = None
  | UseAfterFree =>
      exists ed, In ed (g_edges g0) /\ e_tail ed = e_head ed /\
                 intra_edge g0 ed = true
  | NullDeref => False
  | OutOfFuel => False
  end.

Definition sat {A} (g0 : Agraph_t) (r : outcome A) (Q : A -> Prop) : Prop :=
  match r with
  | Ok a => Q a
  | Abort e => expected g0 e
  end.

(** The nodes the outer loop is done with. *)
Definition visited (g0 g : Agraph_t) (pre : list node) : Prop :=
  (forall x, In x pre -> has_file x) /\
  (forall e, In e (g_edges g) -> In (e_tail e) (map n_id pre) ->
             intra_edge g0 e = false).

(** The invariant of the loop over the outgoing edges of [xn], with
    [rest] the edges still to come. *)
Definition edge_inv (g0 : Agraph_t) (xn : node) (bound : nat)
    (st : rstate) (rest : list edge) : Prop :=
  let '(g, nxtnode, isreduced) := st in
  wf g /\ reduct g0 g /\
  exists pre post kept,
    g_nodes g = pre ++ xn :: post /\
    nxtnode = hd_error (map n_id post) /\
    length post <= bound /\
    out_edges g (n_id xn) = kept ++ rest /\
    (forall e, In e kept -> intra_edge g0 e = false) /\
    visited g0 g pre /\
    (isreduced = true ->
     exists e, In e (g_edges g0) /\ incident (n_id xn) e).

(** [xn] was deleted as the head of its own edge. *)
Definition self_deleted (g0 : Agraph_t) (xn : node) (st : rstate) : Prop :=
  let '(g, _, isreduced) := st in
  find_node g (n_id xn) = None /\ isreduced = true /\
  expected g0 UseAfterFree.

Definition edge_post (g0 : Agraph_t) (xn : node) (bound : nat)
    (st : rstate) : Prop :=
  edge_inv g0 xn bound st [] \/ self_deleted g0 xn st.

(** The invariant of the loop over the nodes, with [post] the nodes
    still to come. *)
Definition node_inv (g0 g : Agraph_t) (pre post : list node) : Prop :=
  wf g /\ reduct g0 g /\ g_nodes g = pre ++ post /\ visited g0 g pre.

(** A checker for [wf]. *)
Fixpoint uniqueb (l : list nat) : bool :=
  match l with
  | [] => true
  | x :: l' => negb (existsb (Nat.eqb x) l') && uniqueb l'
  end.

Definition wfb (g : Agraph_t) : bool :=
  uniqueb (node_ids g) && uniqueb (edge_ids g) &&
  forallb (fun e => existsb (Nat.eqb (e_tail e)) (node_ids g) &&
                    existsb (Nat.eqb (e_head e)) (node_ids g))
          (g_edges g).

(** ** Sample graphs *)

(** A label or file name as the input carries it, between quotes. *)
Definition quoted (s : string) : string := (dq ++ s ++ dq)%string.

Definition sample_node (id : nat) (name file : string) : node :=
  mkNode id name [("label", quoted name); ("file", file)].

Definition sample_edge (id tail head : nat) : edge :=
  mkEdge id tail head [("value", "1")].

(** A and B in [a.c], C in [b.c], D in no file and with no edge;
    A -> B and B -> C. *)
Definition sample_graph : Agraph_t :=
  mkGraph [sample_node 0 "A" (quoted "a.c"); sample_node 1 "B" (quoted "a.c");
           sample_node 2 "C" (quoted "b.c"); sample_node 3 "D" EmptyString]
          [sample_edge 0 0 1; sample_edge 1 1 2].

Definition sample_reduced : Agraph_t :=
  mkGraph [sample_node 1 "B" (quoted "a.c"); sample_node 2 "C" (quoted "b.c");
           sample_node 3 "D" EmptyString]
          [sample_edge 1 1 2].

(** One node with an edge to itself. *)
Definition loop_graph : Agraph_t :=
  mkGraph [sample_node 0 "A" (quoted "a.c")] [sample_edge 0 0 0].

(** One node, no edge. *)
Definition single_graph : Agraph_t :=
  mkGraph [sample_node 0 "A" (quoted "a.c")] [].

(** Two nodes in different files and the edge between them. *)
Definition pair_graph : Agraph_t :=
  mkGraph [sample_node 0 "A" (quoted "a.c"); sample_node 1 "C" (quoted "b.c")]
          [sample_edge 0 0 1].

(** A node with no [file] attribute after one that has it. *)
Definition nofile_graph : Agraph_t :=
  mkGraph [sample_node 0 "A" (quoted "a.c");
           mkNode 1 "B" [("label", quoted "B")]]
          [sample_edge 0 0 1].

(** ** The document the emitter writes, as a function of the graph *)

Definition label_text (x : node) : string :=
  match label_of x with
  | Some l => l
  | None => EmptyString
  end.

Definition file_text (x : node) : string :=
  match file_of x with
  | Some f => f
  | None => EmptyString
  end.

Definition value_text (e : edge) : string :=
  match attr_get "value" (e_attrs e) with
  | Some v => v
  | None => EmptyString
  end.

Definition head_label (g : Agraph_t) (e : edge) : string :=
  match find_node g (e_head e) with
  | Some y => label_text y
  | None => EmptyString
  end.

Definition is_nil {A} (l : list A) : bool :=
  match l with
  | [] => true
  | _ :: _ => false
  end.

(** The comma after an entry that is not the last one. *)
Definition separator (more : bool) : stdout_t :=
  if more then [Text ","] else [].

Fixpoint node_lines (l : list node) : stdout_t :=
  match l with
  | [] => []
  | x :: r =>
      NodeObj (label_field (label_text x)) (group_field (file_text x))
      :: separator (negb (is_nil r)) ++ Text nl :: node_lines r
  end.

Fixpoint link_lines (g : Agraph_t) (labeln : string) (more_nodes : bool)
    (l : list edge) : stdout_t :=
  match l with
  | [] => []
  | e :: r =>
      LinkObj (label_field labeln) (label_field (head_label g e)) (value_text e)
      :: separator (negb (is_nil r) || more_nodes) ++ Text nl
      :: link_lines g labeln more_nodes r
  end.

Fixpoint links_lines (g : Agraph_t) (l : list node) : stdout_t :=
  match l with
  | [] => []
  | x :: r =>
      link_lines g (label_text x) (negb (is_nil r)) (out_edges g (n_id x))
      ++ links_lines g r
  end.

Definition d3_arc_document (g : Agraph_t) : stdout_t :=
  [Text ("{" ++ nl)%string;
   Text ("  " ++ dq ++ "nodes" ++ dq ++ ": [" ++ nl)%string]
  ++ node_lines (g_nodes g)
  ++ [Text ("  ]," ++ nl)%string;
      Text ("  " ++ dq ++ "links" ++ dq ++ ": [" ++ nl)%string]
  ++ links_lines g (g_nodes g)
  ++ [Text ("  ]" ++ nl)%string; Text ("}" ++ nl)%string].

(** What the emitter has written when it comes to the first node. *)
Definition d3_arc_opening : stdout_t :=
  [Text ("{" ++ nl)%string;
   Text ("  " ++ dq ++ "nodes" ++ dq ++ ": [" ++ nl)%string].

(** The entries of the [nodes] and of the [links] array of an output. *)
Definition is_node_obj (o : out_item) : bool :=
  match o with
  | NodeObj _ _ => true
  | _ => false
  end.

Definition is_link_obj (o : out_item) : bool :=
  match o with
  | LinkObj _ _ _ => true
  | _ => false
  end.

Definition nodes_array (out : stdout_t) : stdout_t := filter is_node_obj out.
Definition links_array (out : stdout_t) : stdout_t := filter is_link_obj out.

Definition has_label (x : node) : Prop := label_of x <> None.

(** Every node carries the two attributes the emitter reads. *)
Definition printable (g : Agraph_t) : Prop :=
  forall x, In x (g_nodes g) -> has_label x /\ has_file x.

(** [r] is [s] without its first [lead] and its last [trail] characters. *)
Definition strips (lead trail : nat) (s r : string) : Prop :=
  exists a b, s = (a ++ r ++ b)%string /\
              String.length a = lead /\ String.length b = trail.

(** A string the [int] of the emitter holds the length of. *)
Definition fits_int (s : string) : Prop :=
  (Z.of_nat (strlen s) <= 2147483647)%Z.

(** ** Reading the document back

    The arrays of a document and their objects, read from the
    characters written.  A string literal runs from a quote to the next
    quote that is not behind a backslash.  An array is named by the
    last literal read at the top level of the document before its
    bracket.  An object of an array is given as the literals between
    its braces, keys and values in turn.  Commas, colons and white
    space are passed over. *)

Definition object_t : Type := list string.
Definition array_t : Type := (string * list object_t)%type.

Record reader : Type := mkReader {
  r_instr : bool;          (* inside a literal *)
  r_esc : bool;            (* behind a backslash *)
  r_cur : string;          (* the literal being read *)
  r_depth : nat;           (* braces and brackets open *)
  r_key : string;          (* the last literal at depth 1 *)
  r_strs : list string;    (* the literals of the open object, last first *)
  r_objs : list object_t;  (* the objects of the open array, last first *)
  r_arrs : list array_t    (* the arrays closed, last first *)
}.

Definition read_char (r : reader) (c : ascii) : reader :=
  let '(mkReader instr esc cur depth key strs objs arrs) := r in
  if instr then
    if esc then
      mkReader true false (cur ++ String c EmptyString) depth key strs objs arrs
    else if Ascii.eqb c "092" then
      mkReader true true cur depth key strs objs arrs
    else if Ascii.eqb c "034" then
      mkReader false false EmptyString depth
               (if depth =? 1 then cur else key)
               (if depth =? 3 then cur :: strs else strs)
               objs arrs
    else
      mkReader true false (cur ++ String c EmptyString) depth key strs objs arrs
  else
    if Ascii.eqb c "034" then
      mkReader true false EmptyString depth key strs objs arrs
    else if Ascii.eqb c "{" then
      mkReader false false cur (S depth) key
               (if depth =? 2 then [] else strs) objs arrs
    else if Ascii.eqb c "}" then
      mkReader false false cur (pred depth) key
               (if depth =? 3 then [] else strs)
               (if depth =? 3 then rev strs :: objs else objs) arrs
    else if Ascii.eqb c "[" then
      mkReader false false cur (S depth) key strs
               (if depth =? 1 then [] else objs) arrs
    else if Ascii.eqb c "]" then
      mkReader false false cur (pred depth) key strs
               (if depth =? 2 then [] else objs)
               (if depth =? 2 then (key, rev objs) :: arrs else arrs)
    else r.

Fixpoint read (r : reader) (s : string) : reader :=
  match s with
  | EmptyString => r
  | String c s' => read (read_char r c) s'
  end.

Definition arrays_of (s : string) : list array_t :=
  rev (r_arrs (read (mkReader false false EmptyString 0 EmptyString [] [] [])
                    s)).

(** The value of key [k] in an object. *)
Fixpoint field (k : string) (o : object_t) : option string :=
  match o with
  | k' :: v :: o' => if String.eqb k' k then Some v else field k o'
  | _ => None
  end.

(** No quote and no backslash. *)
Fixpoint plainb (s : string) : bool :=
  match s with
  | EmptyString => true
  | String c s' =>
      negb (Ascii.eqb c "034") && negb (Ascii.eqb c "092") && plainb s'
  end.

(** The strings the emitter writes between quotes for [g] have no quote
    and no backslash of their own. *)
Definition plain_fields (g : Agraph_t) : bool :=
  forallb (fun x => plainb (label_field (label_text x)) &&
                    plainb (group_field (file_text x)))
          (g_nodes g) &&
  forallb (fun e => plainb (value_text e)) (g_edges g).

(** What the reader makes of a call of [printf]. *)
Definition object_of (o : out_item) : list object_t :=
  match o with
  | Text _ => []
  | NodeObj id group => [["id"; id; "group"; group]]
  | LinkObj source target value =>
      [["source"; source; "target"; target; "value"; value]]
  end.

Definition objects_of (out : stdout_t) : list object_t :=
  flat_map object_of out.

(** An entry with plain strings, or a comma, or the end of a line. *)
Definition plain_item (o : out_item) : bool :=
  match o with
  | Text s => String.eqb s "," || String.eqb s nl
  | NodeObj id group => plainb id && plainb group
  | LinkObj source target value =>
      plainb source && plainb target && plainb value
  end.

Definition node_object (x : node) : object_t :=
  ["id"; label_field (label_text x); "group"; group_field (file_text x)].

Definition link_object (g : Agraph_t) (x : node) (e : edge) : object_t :=
  ["source"; label_field (label_text x);
   "target"; label_field (head_label g e);
   "value"; value_text e].

(** A node whose label has quotes of its own. *)
Definition quote_graph : Agraph_t :=
  mkGraph
    [mkNode 0 "A"
       [("label", quoted ("A" ++ dq ++ "}, {" ++ dq ++ "id" ++ dq ++ ": "
                          ++ dq ++ "B")%string);
        ("file", quoted "a.c")]]
    [].

(** ** What the merger builds *)

(** The compartment of a file name, under a handle: its [label] is the
    file name and it has no [file]. *)
Definition compartment_node (c : string * Agnode_t) : node :=
  mkNode (snd c) (fst c) [("label", fst c)].

(** The invariant of the loop of the merger, with [seen] the nodes it is
    done with. *)
Definition merge_inv (seen : list node) (st : Agraph_t * compartments_t)
    : Prop :=
  let '(h, comps) := st in
  g_nodes h = map compartment_node comps /\
  g_edges h = [] /\
  NoDup (map fst comps) /\
  (forall f, In f (map fst comps) <->
             f <> EmptyString /\ exists x, In x seen /\ file_of x = Some f) /\
  NoDup (map snd comps).

(** The non-empty [file] values of the nodes, and the distinct ones. *)
Definition nonempty_files (g : Agraph_t) : list string :=
  flat_map (fun x => match file_of x with
                     | Some f => if strlen f =? 0 then [] else [f]
                     | None => []
                     end)
           (g_nodes g).

Definition distinct_files (g : Agraph_t) : list string :=
  nodup string_dec (nonempty_files g).

(** What the merger makes of [single_graph]. *)
Definition single_merged : Agraph_t :=
  mkGraph [compartment_node (quoted "a.c", 1)] [].

(** What the merger makes of [pair_graph]. *)
Definition pair_merged : Agraph_t :=
  mkGraph [compartment_node (quoted "a.c", 1);
           compartment_node (quoted "b.c", 2)] [].

(** The line of line 178. *)
Definition debug_line (file_n : string) : out_item :=
  Text ("label " ++ file_n ++ " file " ++ file_n ++ nl)%string.

(** ** What the reducer computes *)

(** [agdegree(g, n, true, true)] of a node of the graph. *)
Definition degree (g : Agraph_t) (n : Agnode_t) : nat :=
  length (in_edges g n) + length (out_edges g n).

(** An edge at [n] that joins different files, or a file and none. *)
Definition inter_edge_at (g : Agraph_t) (n : Agnode_t) (e : edge) : bool :=
  ((e_tail e =? n) || (e_head e =? n)) && negb (intra_edge g e).

(** The nodes a pass keeps: those with no edge at all and those with an
    edge that is not inside a file. *)
Definition keeps_node (g : Agraph_t) (x : node) : bool :=
  (degree g (n_id x) =? 0) || existsb (inter_edge_at g (n_id x)) (g_edges g).

Definition reduced_graph (g : Agraph_t) : Agraph_t :=
  mkGraph (filter (keeps_node g) (g_nodes g))
          (filter (fun e => negb (intra_edge g e)) (g_edges g)).

(** No node of [g] is left without an edge unless it had none in [g0]. *)
Definition tidy (g0 g : Agraph_t) : Prop :=
  forall x, In x (g_nodes g) -> isolated g (n_id x) -> isolated g0 (n_id x).

(** The same during the visit of [n], which began at [gs]: [n] itself is
    looked at when the visit ends, and nothing has changed as long as
    [isreduced] is false. *)
Definition tidy_but (g0 gs : Agraph_t) (n : Agnode_t) (st : rstate) : Prop :=
  let '(g, _, isreduced) := st in
  (forall y, In y (g_nodes g) -> n_id y <> n ->
             isolated g (n_id y) -> isolated g0 (n_id y)) /\
  (isreduced = false -> g = gs).

(** [agdelete(g, e)] and [agdelnode(g, n)] as graphs. *)
Definition del_edge (g : Agraph_t) (e : Agedge_t) : Agraph_t :=
  mkGraph (g_nodes g) (filter (fun x => negb (e_id x =? e)) (g_edges g)).

Definition del_node (g : Agraph_t) (n : Agnode_t) : Agraph_t :=
  mkGraph (filter (fun x => negb (n_id x =? n)) (g_nodes g))
          (filter (fun x => negb (e_tail x =? n) && negb (e_head x =? n))
                  (g_edges g)).

(** ** The entries of the document and their layout *)

(** The entry of a node, and the entry of an edge [e] leaving [x]. *)
Definition node_entry (x : node) : out_item :=
  NodeObj (label_field (label_text x)) (group_field (file_text x)).

Definition link_entry (g : Agraph_t) (x : node) (e : edge) : out_item :=
  LinkObj (label_field (label_text x)) (label_field (head_label g e))
          (value_text e).

(** The edges in the order of the second loop: node by node, and for
    each node its outgoing edges. *)
Definition link_entries (g : Agraph_t) : list out_item :=
  flat_map (fun x => map (link_entry g x) (out_edges g (n_id x))) (g_nodes g).

(** Entries one to a line, each followed by a comma when another entry
    follows it, or always when [trailing]. *)
Fixpoint separated (trailing : bool) (entries : list out_item) : stdout_t :=
  match entries with
  | [] => []
  | o :: r =>
      o :: separator (negb (is_nil r) || trailing) ++ Text nl
      :: separated trailing r
  end.

(** The last node of the list has no outgoing edge. *)
Fixpoint last_has_no_edge (g : Agraph_t) (l : list node) : bool :=
  match l with
  | [] => false
  | x :: r =>
      match r with
      | [] => is_nil (out_edges g (n_id x))
      | _ :: _ => last_has_no_edge g r
      end
  end.

(** The fixed lines of the document around its two arrays. *)
Definition d3_arc_frame (nodes links : stdout_t) : stdout_t :=
  [Text ("{" ++ nl)%string;
   Text ("  " ++ dq ++ "nodes" ++ dq ++ ": [" ++ nl)%string]
  ++ nodes
  ++ [Text ("  ]," ++ nl)%string;
      Text ("  " ++ dq ++ "links" ++ dq ++ ": [" ++ nl)%string]
  ++ links
  ++ [Text ("  ]" ++ nl)%string; Text ("}" ++ nl)%string].

(** ** The order of the compartments *)

(** The non-empty [file] values of a list of nodes, in its order. *)
Definition files_of (l : list node) : list string :=
  flat_map (fun x => match file_of x with
                     | Some f => if strlen f =? 0 then [] else [f]
                     | None => []
                     end) l.

(** A list without the repetitions of its members, each one where it
    first occurs. *)
Fixpoint first_occurrences (l : list string) : list string :=
  match l with
  | [] => []
  | a :: r => a :: remove string_dec a (first_occurrences r)
  end.

(** ** [main] *)

(** What [getopt(argc, argv, "f:n:")] returns call after call, with
    [optarg] at each call: the options in the order of the command
    line.  An unknown option or a missing argument is returned as [?]. *)
Definition getopt_t : Type := (ascii * string)%type.

(** The loop over the options (lines 267-282); [None] is a call of
    [usage], which writes to the error stream and exits with status 1. *)
Fixpoint parse_options (opts : list getopt_t)
    (nodetype : node_type_t) (formattype : format_type_t)
    : option (node_type_t * format_type_t) :=
  match opts with
  | [] => Some (nodetype, formattype)
  | (ch, optarg) :: r =>
      if Ascii.eqb ch "n" then
        match node_type_from_str optarg with
        | NODE_TYPE_INVALID => None
        | nt => parse_options r nt formattype
        end
      else if Ascii.eqb ch "f" then
        match format_type_from_str optarg with
        | FORMAT_TYPE_INVALID => None
        | ft => parse_options r nodetype ft
        end
      else None
  end.

(** The loop over the graphs of the input (lines 298-316). *)
Fixpoint main_loop (nodetype : node_type_t) (formattype : format_type_t)
    (graphs : list Agraph_t) : io unit :=
  match graphs with
  | [] => io_ret tt
  | g :: r =>
      _ <~ process_graph nodetype formattype g ;;
      main_loop nodetype formattype r
  end.

(** [main], on the options as [getopt] returns them, the arguments left
    after them, and the graphs the storage layer reads from a file.  The
    result is the exit status. *)
Definition main (opts : list getopt_t) (argv : list string)
    (graphs_of : string -> list Agraph_t) : io nat :=
  match parse_options opts NODE_TYPE_COMPARTMENT FORMAT_TYPE_D3_ARC with
  | None => io_ret 1
  | Some (nodetype, formattype) =>
      match argv with
      | [] => io_ret 1
      | file :: _ =>
          _ <~ main_loop nodetype formattype (graphs_of file) ;;
          io_ret 0
      end
  end.

(** An option [main] accepts: [-n] with [function] or [compartment],
    [-f] with [d3-arc]. *)
Definition valid_option (o : getopt_t) : bool :=
  let '(ch, optarg) := o in
  (Ascii.eqb ch "n" &&
   match node_type_from_str optarg with
   | NODE_TYPE_INVALID => false
   | _ => true
   end) ||
  (Ascii.eqb ch "f" &&
   match format_type_from_str optarg with
   | FORMAT_TYPE_INVALID => false
   | _ => true
   end).

(** The node type after an option: that of a [-n], else the one before. *)
Definition pick_node_type (nodetype : node_type_t) (o : getopt_t)
    : node_type_t :=
  let '(ch, optarg) := o in
  if Ascii.eqb ch "n" then node_type_from_str optarg else nodetype.

Definition chosen_node_type (opts : list getopt_t) : node_type_t :=
  fold_left pick_node_type opts NODE_TYPE_COMPARTMENT.

(** ** Lists of records with unique handles *)

Section UniqueKeys.
Context {A : Type} (key : A -> nat).

Lemma key_inj (l : list A) (x y : A) :
  NoDup (map key l) -> In x l -> In y l -> key x = key y -> x = y.
Proof.
  induction l as [|a l IH]; simpl; intros ND Hx Hy E; [contradiction|].
  inversion ND as [|? ? Hna ND']; subst.
  destruct Hx as [->|Hx], Hy as [->|Hy]; auto.
  - exfalso. apply Hna. rewrite E. now apply in_map.
  - exfalso. apply Hna. rewrite <- E. now apply in_map.
Qed.

Lemma NoDup_map_filter (p : A -> bool) (l : list A) :
  NoDup (map key l) -> NoDup (map key (filter p l)).
Proof.
  induction l as [|a l IH]; simpl; intros ND; [constructor|].
  inversion ND as [|? ? Hna ND']; subst.
  destruct (p a); simpl; auto.
  constructor; auto.
  intros Hin. apply Hna.
  apply in_map_iff in Hin. destruct Hin as (y & Ey & Hy).
  apply filter_In in Hy. rewrite <- Ey. apply in_map. tauto.
Qed.

Lemma find_key_In (l : list A) (x : A) :
  NoDup (map key l) -> In x l -> find (fun y => key y =? key x) l = Some x.
Proof.
  induction l as [|a l IH]; simpl; intros ND Hx; [contradiction|].
  inversion ND as [|? ? Hna ND']; subst.
  destruct (Nat.eqb_spec (key a) (key x)) as [E|NE].
  - destruct Hx as [->|Hx]; auto.
    exfalso. apply Hna. rewrite E. now apply in_map.
  - destruct Hx as [->|Hx]; [congruence|auto].
Qed.

Lemma find_key_Some (l : list A) (k : nat) (x : A) :
  find (fun y => key y =? k) l = Some x -> In x l /\ key x = k.
Proof.
  intros H. apply find_some in H. destruct H as [Hin E].
  apply Nat.eqb_eq in E. auto.
Qed.

Lemma find_key_None (l : list A) (k : nat) :
  find (fun y => key y =? k) l = None <-> ~ In k (map key l).
Proof.
  split.
  - intros H Hin. apply in_map_iff in Hin. destruct Hin as (y & Ey & Hy).
    apply (find_none _ _ H) in Hy. apply Nat.eqb_neq in Hy. auto.
  - intros H. destruct (find _ l) eqn:E; auto.
    apply find_key_Some in E. destruct E as [Hin E].
    exfalso. apply H. rewrite <- E. now apply in_map.
Qed.

Lemma find_key_ex (l : list A) (k : nat) :
  In k (map key l) -> exists x, find (fun y => key y =? k) l = Some x.
Proof.
  intros H. destruct (find _ l) eqn:E; eauto.
  apply find_key_None in E. contradiction.
Qed.

Lemma succ_in_split (pre post : list A) (x : A) :
  NoDup (map key (pre ++ x :: post)) ->
  succ_in (map key (pre ++ x :: post)) (key x)
  = Some (hd_error (map key post)).
Proof.
  induction pre as [|a pre IH]; simpl; intros ND.
  - now rewrite Nat.eqb_refl.
  - inversion ND as [|? ? Hna ND']; subst.
    destruct (Nat.eqb_spec (key a) (key x)) as [E|NE]; auto.
    exfalso. apply Hna. rewrite E. apply in_map, in_elt.
Qed.

Lemma filter_key_notin (l : list A) (k : nat) :
  ~ In k (map key l) -> filter (fun y => negb (key y =? k)) l = l.
Proof.
  induction l as [|a l IH]; simpl; intros H; auto.
  destruct (Nat.eqb_spec (key a) k) as [E|NE]; simpl.
  - exfalso. auto.
  - f_equal. auto.
Qed.

Lemma filter_key_split (pre post : list A) (x : A) :
  NoDup (map key (pre ++ x :: post)) ->
  filter (fun y => negb (key y =? key x)) (pre ++ x :: post) = pre ++ post.
Proof.
  intros ND. rewrite map_app in ND. simpl in ND.
  pose proof (NoDup_remove_2 _ _ _ ND) as Hn.
  rewrite filter_app. simpl. rewrite Nat.eqb_refl. simpl.
  rewrite !filter_key_notin; auto.
  all: intros H; apply Hn, in_or_app; auto.
Qed.

Lemma hd_filter_key (l : list A) (k : nat) :
  hd_error (map key l) <> Some k ->
  hd_error (map key (filter (fun y => negb (key y =? k)) l))
  = hd_error (map key l) \/ l = [].
Proof.
  destruct l as [|a l]; simpl; auto.
  intros H. left.
  destruct (Nat.eqb_spec (key a) k) as [E|NE]; simpl; congruence.
Qed.
End UniqueKeys.

Lemma filter_id {A} (p : A -> bool) (l : list A) :
  (forall x, In x l -> p x = true) -> filter p l = l.
Proof.
  induction l as [|a l IH]; simpl; intros H; auto.
  rewrite (H a) by auto. f_equal. auto.
Qed.

Lemma filter_filter {A} (p q : A -> bool) (l : list A) :
  filter p (filter q l) = filter (fun x => q x && p x) l.
Proof.
  induction l as [|a l IH]; simpl; auto.
  destruct (q a); simpl; [destruct (p a)|]; simpl; congruence.
Qed.

Lemma filter_length_le {A} (p : A -> bool) (l : list A) :
  length (filter p l) <= length l.
Proof.
  induction l as [|a l IH]; simpl; auto.
  destruct (p a); simpl; lia.
Qed.

(** ** The outcome monad *)

Lemma sat_bind {A B} g0 (m : outcome A) (f : A -> outcome B)
    (Q : A -> Prop) (R : B -> Prop) :
  sat g0 m Q -> (forall a, Q a -> sat g0 (f a) R) -> sat g0 (bind m f) R.
Proof.
  destruct m as [a|e]; simpl; auto.
Qed.

Lemma sat_weaken {A} g0 (m : outcome A) (Q R : A -> Prop) :
  sat g0 m Q -> (forall a, Q a -> R a) -> sat g0 m R.
Proof.
  destruct m as [a|e]; simpl; auto.
Qed.

(** ** Graph operations on a well-formed graph *)

Lemma edge_eq_dec (a b : edge) : {a = b} + {a <> b}.
Proof.
  repeat decide equality.
Qed.

Lemma node_eq_dec (a b : node) : {a = b} + {a <> b}.
Proof.
  repeat decide equality.
Qed.

Lemma find_node_In g x :
  wf g -> In x (g_nodes g) -> find_node g (n_id x) = Some x.
Proof.
  intros W H. apply find_key_In; auto. apply W.
Qed.

Lemma find_edge_In g e :
  wf g -> In e (g_edges g) -> find_edge g (e_id e) = Some e.
Proof.
  intros W H. apply find_key_In; auto. apply W.
Qed.

Lemma find_node_Some g n x :
  find_node g n = Some x -> In x (g_nodes g) /\ n_id x = n.
Proof.
  apply find_key_Some.
Qed.

Lemma find_node_live g n :
  In n (node_ids g) -> exists x, find_node g n = Some x.
Proof.
  apply find_key_ex.
Qed.

Lemma node_file_In g x :
  wf g -> In x (g_nodes g) -> node_file g (n_id x) = file_of x.
Proof.
  intros W H. unfold node_file. now rewrite find_node_In.
Qed.

Lemma out_edges_In g n e :
  In e (out_edges g n) <-> In e (g_edges g) /\ e_tail e = n.
Proof.
  unfold out_edges. rewrite filter_In, Nat.eqb_eq. tauto.
Qed.

Lemma in_edges_In g n e :
  In e (in_edges g n) <-> In e (g_edges g) /\ e_head e = n.
Proof.
  unfold in_edges. rewrite filter_In, Nat.eqb_eq. tauto.
Qed.

Lemma agnxtnode_split g pre x post :
  wf g -> g_nodes g = pre ++ x :: post ->
  agnxtnode g (n_id x) = Ok (hd_error (map n_id post)).
Proof.
  intros W E. unfold agnxtnode. rewrite E, succ_in_split; auto.
  rewrite <- E. apply W.
Qed.

Lemma agnxtout_split g n kept e rest :
  wf g -> out_edges g n = kept ++ e :: rest ->
  agnxtout g (e_id e) = Ok (hd_error (map e_id rest)).
Proof.
  intros W E.
  assert (He : In e (out_edges g n)) by (rewrite E; apply in_elt).
  apply out_edges_In in He. destruct He as [He Ht].
  unfold agnxtout. rewrite find_edge_In, Ht, E, succ_in_split; auto.
  rewrite <- E. apply NoDup_map_filter, W.
Qed.

Lemma aghead_In g e :
  wf g -> In e (g_edges g) -> aghead g (e_id e) = Ok (e_head e).
Proof.
  intros W H. unfold aghead. now rewrite find_edge_In.
Qed.

Lemma agfstout_In g x :
  wf g -> In x (g_nodes g) ->
  agfstout g (n_id x) = Ok (hd_error (map e_id (out_edges g (n_id x)))).
Proof.
  intros W H. unfold agfstout. now rewrite find_node_In.
Qed.

Lemma agget_In g x key :
  wf g -> In x (g_nodes g) ->
  agget g (n_id x) key = Ok (attr_get key (n_attrs x)).
Proof.
  intros W H. unfold agget. now rewrite find_node_In.
Qed.

(** Deleting edges. *)

Lemma delete_edges_wf g p :
  wf g -> wf (mkGraph (g_nodes g) (filter p (g_edges g))).
Proof.
  intros [Wn We Wd]. constructor; simpl; auto.
  - apply NoDup_map_filter, We.
  - intros e H. apply filter_In in H. apply Wd, H.
Qed.

Lemma delete_edges_reduct g0 g p :
  reduct g0 g ->
  (forall e, In e (g_edges g) -> p e = false -> intra_edge g0 e = true) ->
  reduct g0 (mkGraph (g_nodes g) (filter p (g_edges g))).
Proof.
  intros [Rn [q Re] Rg Rd] Hp. constructor; simpl; auto.
  - exists (fun x => q x && p x). now rewrite Re, filter_filter.
  - intros e He Hn.
    destruct (in_dec edge_eq_dec e (g_edges g)) as [Hi|Hi]; auto.
    apply Hp; auto.
    destruct (p e) eqn:E; auto.
    exfalso. apply Hn, filter_In. auto.
Qed.

Lemma agdelete_In g e :
  wf g -> In e (g_edges g) ->
  agdelete g (e_id e)
  = Ok (mkGraph (g_nodes g)
                (filter (fun x => negb (e_id x =? e_id e)) (g_edges g))).
Proof.
  intros W H. unfold agdelete. now rewrite find_edge_In.
Qed.

Lemma out_edges_delete g n kept e rest :
  wf g -> out_edges g n = kept ++ e :: rest ->
  out_edges (mkGraph (g_nodes g)
               (filter (fun x => negb (e_id x =? e_id e)) (g_edges g))) n
  = kept ++ rest.
Proof.
  intros W E. unfold out_edges in *. simpl.
  rewrite filter_filter.
  rewrite <- (filter_key_split e_id kept rest e).
  - rewrite <- E, filter_filter. apply filter_ext. intros a. apply andb_comm.
  - rewrite <- E. apply NoDup_map_filter, W.
Qed.

(** Deleting a node that has no edge left. *)

Lemma isolated_no_edge g m e :
  isolated g m -> In e (g_edges g) -> e_tail e <> m /\ e_head e <> m.
Proof.
  unfold isolated. intros Hd He.
  assert (Hi : in_edges g m = []) by (apply length_zero_iff_nil; lia).
  assert (Ho : out_edges g m = []) by (apply length_zero_iff_nil; lia).
  split; intros E.
  - assert (H : In e (out_edges g m)) by (apply out_edges_In; auto).
    rewrite Ho in H. contradiction.
  - assert (H : In e (in_edges g m)) by (apply in_edges_In; auto).
    rewrite Hi in H. contradiction.
Qed.

Lemma isolated_edges g m :
  isolated g m ->
  filter (fun x => negb (e_tail x =? m) && negb (e_head x =? m)) (g_edges g)
  = g_edges g.
Proof.
  intros Hd. apply filter_id. intros e He.
  destruct (isolated_no_edge g m e Hd He) as [Ht Hh].
  apply Nat.eqb_neq in Ht, Hh. now rewrite Ht, Hh.
Qed.

Lemma agdelnode_isolated g x :
  wf g -> In x (g_nodes g) -> isolated g (n_id x) ->
  agdelnode g (n_id x)
  = Ok (mkGraph (filter (fun y => negb (n_id y =? n_id x)) (g_nodes g))
                (g_edges g)).
Proof.
  intros W H Hd. unfold agdelnode.
  now rewrite find_node_In, isolated_edges.
Qed.

Lemma in_ids_filter (l : list node) (k m : nat) :
  In k (map n_id l) -> k <> m ->
  In k (map n_id (filter (fun y => negb (n_id y =? m)) l)).
Proof.
  intros H NE. apply in_map_iff in H. destruct H as (y & Ey & Hy).
  apply in_map_iff. exists y. split; auto.
  apply filter_In. split; auto.
  apply negb_true_iff, Nat.eqb_neq. congruence.
Qed.

Lemma delete_node_wf g m :
  wf g -> isolated g m ->
  wf (mkGraph (filter (fun y => negb (n_id y =? m)) (g_nodes g)) (g_edges g)).
Proof.
  intros [Wn We Wd] Hd. constructor; simpl; auto.
  - apply NoDup_map_filter, Wn.
  - intros e He. unfold node_ids. simpl.
    destruct (isolated_no_edge g m e Hd He) as [Ht Hh].
    destruct (Wd e He) as [H1 H2].
    split; apply in_ids_filter; auto.
Qed.

Lemma delete_node_reduct g0 g x :
  wf g0 -> reduct g0 g -> In x (g_nodes g0) -> has_file x ->
  (exists e, In e (g_edges g0) /\ incident (n_id x) e) ->
  reduct g0 (mkGraph (filter (fun y => negb (n_id y =? n_id x)) (g_nodes g))
                     (g_edges g)).
Proof.
  intros W0 [[q Rn] Re Rg Rd] Hx Hf Hin. constructor; simpl; auto.
  - exists (fun y => q y && negb (n_id y =? n_id x)).
    now rewrite Rn, filter_filter.
  - intros y Hy Hn.
    destruct (Nat.eq_dec (n_id y) (n_id x)) as [E|NE].
    + assert (y = x) by (eapply key_inj; eauto; apply W0). subst. auto.
    + apply Rd; auto. intros Hi. apply Hn, filter_In. split; auto.
      apply negb_true_iff, Nat.eqb_neq. auto.
Qed.

Lemma reduct_refl g : reduct g g.
Proof.
  constructor; try (exists (fun _ => true); symmetry; apply filter_id; auto);
    intros; contradiction.
Qed.

Lemma reduct_node_In g0 g x :
  reduct g0 g -> In x (g_nodes g) -> In x (g_nodes g0).
Proof.
  intros [[q Rn] _ _ _] H. rewrite Rn in H. apply filter_In in H. tauto.
Qed.

Lemma reduct_edge_In g0 g e :
  reduct g0 g -> In e (g_edges g) -> In e (g_edges g0).
Proof.
  intros [_ [q Re] _ _] H. rewrite Re in H. apply filter_In in H. tauto.
Qed.

Lemma reduct_node_file g0 g x :
  wf g0 -> reduct g0 g -> In x (g_nodes g) ->
  node_file g0 (n_id x) = file_of x.
Proof.
  intros W0 R H. apply node_file_In; auto. eapply reduct_node_In; eauto.
Qed.

Lemma visited_shrink g0 g pre g' pre' :
  visited g0 g pre ->
  (forall e, In e (g_edges g') -> In e (g_edges g)) ->
  (forall x, In x pre' -> In x pre) ->
  visited g0 g' pre'.
Proof.
  intros [Vf Ve] He Hp. split; auto.
  intros e H1 H2. apply Ve; auto.
  apply in_map_iff in H2. destruct H2 as (y & Ey & Hy).
  rewrite <- Ey. apply in_map. auto.
Qed.

(** ** The loop over the outgoing edges of a node *)

Lemma intra_edge_files g0 g xn xm ed file_n file_m :
  wf g0 -> reduct g0 g -> In xn (g_nodes g0) -> In xm (g_nodes g) ->
  e_tail ed = n_id xn -> e_head ed = n_id xm ->
  file_of xn = Some file_n -> file_of xm = Some file_m ->
  intra_edge g0 ed
  = negb ((strlen file_n =? 0) || (strlen file_m =? 0)
          || strcmp_ne file_n file_m).
Proof.
  intros W0 R Hxn Hxm Et Eh Efn Efm. unfold intra_edge.
  rewrite Et, Eh, (node_file_In g0 xn W0 Hxn).
  rewrite (reduct_node_file g0 g xm W0 R Hxm), Efn, Efm. reflexivity.
Qed.

Lemma remove_intra_edge_step g0 xn file_n bound st ed rest :
  wf g0 -> In xn (g_nodes g0) -> file_of xn = Some file_n ->
  edge_inv g0 xn bound st (ed :: rest) ->
  sat g0 (remove_intra_edge (n_id xn) file_n st (e_id ed))
      (fun r => snd r = hd_error (map e_id rest) /\
                (edge_inv g0 xn bound (fst r) rest \/
                 (rest = [] /\ self_deleted g0 xn (fst r)))).
Proof.
  intros W0 Hxn Hfn Inv.
  destruct st as [[g nxtnode] isred].
  destruct Inv as (W & R & pre & post & kept & En & Enx & Hb & Eo & Hk & V & Hr).
  assert (Hed : In ed (out_edges g (n_id xn))) by (rewrite Eo; apply in_elt).
  apply out_edges_In in Hed. destruct Hed as [Hed Ht].
  unfold remove_intra_edge.
  rewrite (agnxtout_split g (n_id xn) kept ed rest W Eo). simpl bind.
  rewrite (aghead_In g ed W Hed). simpl bind.
  destruct (wf_ends g W ed Hed) as [_ Hh].
  destruct (find_node_live g _ Hh) as [xm Exm].
  destruct (find_node_Some g _ _ Exm) as [Hxm Eid].
  rewrite <- Eid. rewrite (agget_In g xm "file" W Hxm). simpl bind.
  fold (file_of xm).
  destruct (file_of xm) as [file_m|] eqn:Efm; simpl.
  2: { exists xm. split; auto. eapply reduct_node_In; eauto. }
  pose proof (intra_edge_files g0 g xn xm ed file_n file_m W0 R Hxn Hxm
                Ht (eq_sym Eid) Hfn Efm) as Hintra.
  destruct ((strlen file_n =? 0) || (strlen file_m =? 0)
            || strcmp_ne file_n file_m) eqn:Econd; simpl in Hintra |- *.
  - (* continue: the edge stays *)
    split; auto. left. split; auto. split; auto.
    exists pre, post, (kept ++ [ed]).
    repeat split; auto; try apply V.
    + now rewrite <- app_assoc.
    + intros e He. apply in_app_or in He. destruct He as [He|[<-|[]]]; auto.
  - (* the edge goes *)
    rewrite (agdelete_In g ed W Hed). simpl bind.
    set (g1 := mkGraph (g_nodes g)
                 (filter (fun x => negb (e_id x =? e_id ed)) (g_edges g))).
    assert (W1 : wf g1) by (apply delete_edges_wf; auto).
    assert (R1 : reduct g0 g1).
    { apply delete_edges_reduct; auto. intros e He Hp.
      apply negb_false_iff, Nat.eqb_eq in Hp.
      assert (e = ed) by (eapply key_inj; eauto; apply W). now subst. }
    assert (Eo1 : out_edges g1 (n_id xn) = kept ++ rest)
      by (apply out_edges_delete; auto).
    assert (S1 : forall e, In e (g_edges g1) -> In e (g_edges g)).
    { intros e He. simpl in He. apply filter_In in He. tauto. }
    assert (Hed0 : In ed (g_edges g0)) by (apply (reduct_edge_In g0 g ed R Hed)).
    assert (Hxm1 : In xm (g_nodes g1)) by exact Hxm.
    unfold agdegree. rewrite (find_node_In g1 xm W1 Hxm1). simpl bind.
    destruct (0 <? _) eqn:Ed.
    + (* the head keeps some edge *)
      simpl. split; auto. left. split; auto. split; auto.
      exists pre, post, kept. repeat split; auto; try apply V.
      * intros e He. apply V. auto.
      * intros _. exists ed. split; auto. now left.
    + (* the head goes too *)
      apply Nat.ltb_ge in Ed.
      assert (Iso : isolated g1 (n_id xm)) by (unfold isolated; lia).
      assert (Hgone : exists e, In e (g_edges g0) /\ incident (n_id xm) e).
      { exists ed. split; auto. right. auto. }
      assert (Hfm : has_file xm) by (unfold has_file; congruence).
      assert (Hxm0 : In xm (g_nodes g0)) by (apply (reduct_node_In g0 g xm R Hxm)).
      destruct (Nat.eq_dec (n_id xm) (n_id xn)) as [Esame|Ediff].
      * (* a loop on [xn]: [xn] itself is deleted *)
        assert (Hself : expected g0 UseAfterFree).
        { exists ed. repeat split; auto; try congruence. }
        assert (rest = []).
        { apply length_zero_iff_nil.
          unfold isolated in Iso. rewrite Esame, Eo1, length_app in Iso. lia. }
        subst rest.
        eapply sat_bind with (Q := fun _ => True).
        { destruct nxtnode as [x|]; simpl; auto.
          destruct (x =? n_id xm); simpl; auto.
          unfold agnxtnode. destruct (succ_in _ _); simpl; auto. }
        intros nxtnode' _.
        rewrite (agdelnode_isolated g1 xm W1 Hxm1 Iso). simpl.
        split; auto. right. split; auto.
        repeat split; auto.
        unfold find_node. simpl. apply find_key_None.
        rewrite <- Esame. intros Hin. apply in_map_iff in Hin.
        destruct Hin as (y & Ey & Hy). apply filter_In in Hy.
        destruct Hy as [_ Hy]. apply negb_true_iff, Nat.eqb_neq in Hy. auto.
      * (* another node *)
        assert (NDn : NoDup (map n_id (pre ++ xn :: post)))
          by (rewrite <- En; apply W).
        set (keep := fun y : node => negb (n_id y =? n_id xm)).
        assert (Enodes : filter keep (g_nodes g1)
                         = filter keep pre ++ xn :: filter keep post).
        { simpl. rewrite En, filter_app. simpl. unfold keep at 2.
          apply Nat.eqb_neq in Ediff. rewrite Nat.eqb_sym, Ediff. reflexivity. }
        assert (Hnx : sat g0
                  (match nxtnode with
                   | Some x => if x =? n_id xm then agnxtnode g1 x
                               else Ok nxtnode
                   | None => Ok nxtnode
                   end)
                  (fun r => r = hd_error (map n_id (filter keep post)))).
        { subst nxtnode. destruct post as [|y post']; simpl; auto.
          destruct (Nat.eqb_spec (n_id y) (n_id xm)) as [Ey|Ny].
          - rewrite Ey.
            assert (y = xm).
            { apply (key_inj n_id (g_nodes g) y xm);
                [apply W| |exact Hxm|exact Ey].
              rewrite En. apply in_or_app. right. right. now left. }
            subst y.
            rewrite (agnxtnode_split g1 (pre ++ [xn]) xm post' W1).
            2: { simpl. rewrite En, <- app_assoc. reflexivity. }
            simpl. unfold keep at 1. rewrite Nat.eqb_refl. simpl.
            unfold keep. rewrite filter_key_notin; auto.
            assert (NDn' : NoDup (map n_id ((pre ++ [xn]) ++ xm :: post')))
              by (rewrite <- app_assoc; exact NDn).
            rewrite map_app in NDn'. simpl in NDn'.
            apply NoDup_remove_2 in NDn'.
            intros Hin. apply NDn', in_or_app. auto.
          - simpl. unfold keep at 1.
            apply Nat.eqb_neq in Ny. rewrite Ny. reflexivity. }
        eapply sat_bind; [exact Hnx|]. intros nxtnode' Enx'. simpl in Enx'.
        rewrite (agdelnode_isolated g1 xm W1 Hxm1 Iso).
        simpl bind. unfold sat. cbn beta iota. cbn [fst snd].
        split; auto. left.
        split; [apply (delete_node_wf g1 (n_id xm) W1 Iso)|].
        split; [apply (delete_node_reduct g0 g1 xm); auto|].
        exists (filter keep pre), (filter keep post), kept.
        split; [exact Enodes|]. split; [exact Enx'|].
        split; [pose proof (filter_length_le keep post); lia|].
        split; [exact Eo1|]. split; [exact Hk|].
        split; [|intros _; exists ed; split; auto; now left].
        split.
        -- intros x Hx. apply filter_In in Hx. apply V. tauto.
        -- intros e He Hp. apply V; [apply S1; exact He|].
           apply in_map_iff in Hp. destruct Hp as (y & Ey & Hy).
           apply filter_In in Hy. rewrite <- Ey. apply in_map. tauto.
Qed.

Lemma for_loop_done {S H} fuel (body : S -> H -> outcome (S * option H)) s :
  for_loop fuel body s None = Ok s.
Proof.
  now destruct fuel.
Qed.

Lemma remove_intra_edge_loop g0 xn file_n bound rest :
  wf g0 -> In xn (g_nodes g0) -> file_of xn = Some file_n ->
  forall fuel st,
    edge_inv g0 xn bound st rest -> length rest <= fuel ->
    sat g0 (for_loop fuel (remove_intra_edge (n_id xn) file_n) st
                     (hd_error (map e_id rest)))
        (edge_post g0 xn bound).
Proof.
  intros W0 Hxn Hfn.
  induction rest as [|ed rest IH]; intros fuel st Inv Hf.
  - cbn [map hd_error]. rewrite for_loop_done. now left.
  - destruct fuel as [|fuel]; [simpl in Hf; lia|].
    cbn [for_loop map hd_error].
    eapply sat_bind; [apply remove_intra_edge_step; eauto|].
    intros [st' nxt] [Enxt [Inv'|[-> Dead]]]; cbn [fst snd] in *; subst nxt.
    + apply IH; auto. simpl in Hf. lia.
    + cbn [map hd_error]. rewrite for_loop_done. now right.
Qed.

(** ** The loop over the nodes *)

Lemma remove_intra_node_step g0 g pre xn post :
  wf g0 -> node_inv g0 g pre (xn :: post) ->
  sat g0 (remove_intra_node g (n_id xn))
      (fun r => exists pre' post',
           node_inv g0 (fst r) pre' post' /\
           snd r = hd_error (map n_id post') /\
           length post' <= length post).
Proof.
  intros W0 (W & R & En & V).
  assert (Hxn : In xn (g_nodes g)) by (rewrite En; apply in_elt).
  assert (Hxn0 : In xn (g_nodes g0)) by (apply (reduct_node_In g0 g xn R Hxn)).
  unfold remove_intra_node.
  rewrite (agnxtnode_split g pre xn post W En). simpl bind.
  rewrite (agget_In g xn "file" W Hxn). simpl bind. fold (file_of xn).
  destruct (file_of xn) as [file_n|] eqn:Efn; simpl assert_not_null; simpl bind.
  2: { simpl. eauto. }
  rewrite (agfstout_In g xn W Hxn). simpl bind.
  eapply sat_bind.
  { apply (remove_intra_edge_loop g0 xn file_n (length post)
             (out_edges g (n_id xn)) W0 Hxn0 Efn).
    - split; auto. split; auto. exists pre, post, [].
      repeat split; auto; try apply V; try discriminate.
      intros e [].
    - apply filter_length_le. }
  intros [[g' nxtnode'] isred] [Inv|Dead].
  - destruct Inv as (W' & R' & pre' & post' & kept & En' & Enx & Hb & Eo & Hk
                     & V' & Hr).
    rewrite app_nil_r in Eo.
    assert (Hxn' : In xn (g_nodes g')) by (rewrite En'; apply in_elt).
    assert (Hf : has_file xn) by (unfold has_file; congruence).
    assert (Keep : exists pre'' post'',
               node_inv g0 g' pre'' post'' /\
               nxtnode' = hd_error (map n_id post'') /\
               length post'' <= length post).
    { exists (pre' ++ [xn]), post'. split; [|auto].
      split; auto. split; auto. split; [now rewrite <- app_assoc|].
      split.
      - intros x Hx. apply in_app_or in Hx.
        destruct Hx as [Hx|[<-|[]]]; auto. now apply V'.
      - intros e He Hp. rewrite map_app in Hp. apply in_app_or in Hp.
        destruct Hp as [Hp|[Hp|[]]]; [now apply V'|].
        apply Hk. rewrite <- Eo. apply out_edges_In. auto. }
    destruct isred; [|exact Keep].
    unfold agdegree. rewrite (find_node_In g' xn W' Hxn'). simpl bind.
    destruct (_ =? 0) eqn:Ed; [|exact Keep].
    apply Nat.eqb_eq in Ed.
    rewrite (agdelnode_isolated g' xn W' Hxn' Ed).
    simpl bind. unfold sat. cbn beta iota. cbn [fst snd].
    exists pre', post'. split; [|auto].
    split; [apply (delete_node_wf g' (n_id xn) W' Ed)|].
    split; [apply (delete_node_reduct g0 g' xn); auto|].
    split; [|exact V'].
    cbn [g_nodes]. rewrite En'. apply filter_key_split.
    rewrite <- En'. apply W'.
  - destruct Dead as (Hnone & -> & Hexp).
    unfold agdegree. rewrite Hnone. exact Hexp.
Qed.

Lemma remove_intra_node_loop g0 :
  wf g0 ->
  forall fuel g pre post,
    node_inv g0 g pre post -> length post <= fuel ->
    sat g0 (for_loop fuel remove_intra_node g (hd_error (map n_id post)))
        (fun g' => node_inv g0 g' (g_nodes g') []).
Proof.
  intros W0. induction fuel as [|fuel IH]; intros g pre post Inv Hf.
  - destruct post; [|simpl in Hf; lia]. simpl.
    destruct Inv as (W & R & En & V). rewrite app_nil_r in En. subst pre.
    split; auto. split; auto. split; auto. now rewrite app_nil_r.
  - destruct post as [|xn post].
    + simpl. destruct Inv as (W & R & En & V).
      rewrite app_nil_r in En. subst pre.
      split; auto. split; auto. split; auto. now rewrite app_nil_r.
    + cbn [for_loop map hd_error].
      eapply sat_bind; [apply (remove_intra_node_step g0 g pre xn post W0 Inv)|].
      intros [g' nxt] (pre' & post' & Inv' & Enx & Hl). cbn [fst snd] in *.
      subst nxt. apply (IH g' pre' post' Inv'). simpl in Hf. lia.
Qed.

(** What a pass over a well-formed graph ends in. *)
Lemma graph_remove_intra_edges_sat g :
  wf g ->
  sat g (graph_remove_intra_edges g)
      (fun g' => wf g' /\ reduct g g' /\ visited g g' (g_nodes g')).
Proof.
  intros W. unfold graph_remove_intra_edges, agfstnode.
  eapply sat_weaken.
  - apply (remove_intra_node_loop g W (length (g_nodes g)) g [] (g_nodes g));
      auto.
    split; auto. split; [apply reduct_refl|]. split; auto.
    split; intros; contradiction.
  - intros g' (W' & R' & _ & V'). auto.
Qed.

(** ** Consequences for a completed pass *)

Lemma strlen_zero f : (strlen f =? 0) = true <-> f = EmptyString.
Proof.
  rewrite Nat.eqb_eq. destruct f; simpl; split; congruence.
Qed.

Lemma same_file_false a b :
  same_file (Some a) (Some b) = false ->
  a = EmptyString \/ b = EmptyString \/ a <> b.
Proof.
  unfold same_file, strcmp_ne. intros H.
  apply negb_false_iff in H. apply orb_true_iff in H.
  destruct H as [H|H].
  - apply orb_true_iff in H. destruct H as [H|H]; apply strlen_zero in H; auto.
  - apply negb_true_iff, String.eqb_neq in H. auto.
Qed.

Lemma same_file_true a b :
  same_file a b = true ->
  exists f, a = Some f /\ b = Some f /\ f <> EmptyString.
Proof.
  unfold same_file, strcmp_ne. destruct a as [a|], b as [b|]; try discriminate.
  intros H. apply negb_true_iff in H.
  apply orb_false_iff in H. destruct H as [H H3].
  apply orb_false_iff in H. destruct H as [H1 H2].
  apply negb_false_iff, String.eqb_eq in H3. subst b.
  exists a. repeat split. intros E. apply strlen_zero in E. congruence.
Qed.

Lemma reduct_node_file_live g g' n :
  wf g -> reduct g g' -> In n (node_ids g') ->
  node_file g' n = node_file g n.
Proof.
  intros W R Hn. destruct (find_node_live g' n Hn) as [x Ex].
  destruct (find_node_Some g' n x Ex) as [Hx <-].
  unfold node_file at 1. rewrite Ex. symmetry.
  now apply (reduct_node_file g g').
Qed.

Lemma reduct_intra_edge g g' e :
  wf g -> reduct g g' -> wf g' -> In e (g_edges g') ->
  intra_edge g' e = intra_edge g e.
Proof.
  intros W R W' He. destruct (wf_ends g' W' e He) as [Ht Hh].
  unfold intra_edge. now rewrite !(reduct_node_file_live g g').
Qed.

Lemma graph_remove_intra_edges_total g :
  wf g -> all_have_file g -> no_intra_loop g ->
  exists g', graph_remove_intra_edges g = Ok g'.
Proof.
  intros W Hf Hl. pose proof (graph_remove_intra_edges_sat g W) as H.
  destruct (graph_remove_intra_edges g) as [g'|[]]; simpl in H; eauto.
  - destruct H as (x & Hx & E). exfalso. now apply (Hf x Hx).
  - contradiction.
  - destruct H as (e & He & Et & Ei). rewrite (Hl e He Et) in Ei. discriminate.
  - contradiction.
Qed.

Lemma graph_remove_intra_edges_Ok g g' :
  wf g -> graph_remove_intra_edges g = Ok g' ->
  wf g' /\ reduct g g' /\ visited g g' (g_nodes g').
Proof.
  intros W E. pose proof (graph_remove_intra_edges_sat g W) as H.
  now rewrite E in H.
Qed.

Lemma reduced_all_have_file g g' :
  wf g -> graph_remove_intra_edges g = Ok g' ->
  all_have_file g /\ all_have_file g'.
Proof.
  intros W E. destruct (graph_remove_intra_edges_Ok g g' W E) as (W' & R & V).
  split; intros x Hx.
  - destruct (in_dec node_eq_dec x (g_nodes g')) as [Hi|Hi].
    + now apply V.
    + now apply (red_node_gone g g' R x Hx Hi).
  - now apply V.
Qed.

Lemma reduced_no_intra_edge g g' e :
  wf g -> graph_remove_intra_edges g = Ok g' -> In e (g_edges g') ->
  intra_edge g' e = false.
Proof.
  intros W E He. destruct (graph_remove_intra_edges_Ok g g' W E) as (W' & R & V).
  rewrite (reduct_intra_edge g g' e W R W' He).
  apply V; auto. apply (wf_ends g' W' e He).
Qed.

(** A pass over a graph with no edge inside one file changes nothing. *)
Lemma reduct_fixed g g' :
  wf g -> wf g' -> reduct g g' ->
  (forall e, In e (g_edges g) -> intra_edge g e = false) ->
  g' = g.
Proof.
  intros W W' R Hni.
  assert (He : forall e, In e (g_edges g) -> In e (g_edges g')).
  { intros e He. destruct (in_dec edge_eq_dec e (g_edges g')) as [Hi|Hi]; auto.
    pose proof (red_edge_gone g g' R e He Hi) as H.
    rewrite (Hni e He) in H. discriminate. }
  assert (Hn : forall x, In x (g_nodes g) -> In x (g_nodes g')).
  { intros x Hx. destruct (in_dec node_eq_dec x (g_nodes g')) as [Hi|Hi]; auto.
    exfalso.
    destruct (red_node_gone g g' R x Hx Hi) as (_ & e & He0 & Hinc).
    assert (Hid : In (n_id x) (node_ids g')).
    { destruct (wf_ends g' W' e (He e He0)) as [Ht Hh].
      destruct Hinc as [<-|<-]; auto. }
    apply in_map_iff in Hid. destruct Hid as (y & Ey & Hy).
    assert (y = x).
    { apply (key_inj n_id (g_nodes g) y x); auto; [apply W|].
      apply (reduct_node_In g g' y R Hy). }
    subst y. contradiction. }
  destruct R as [[p Rn] [q Re] _ _].
  destruct g' as [ns es], g as [ns0 es0]. simpl in *. f_equal.
  - rewrite Rn. apply filter_id. intros x Hx.
    specialize (Hn x Hx). rewrite Rn in Hn. apply filter_In in Hn. tauto.
  - rewrite Re. apply filter_id. intros e Hx.
    specialize (He e Hx). rewrite Re in He. apply filter_In in He. tauto.
Qed.

(** ** The checker for well-formed graphs *)

Lemma existsb_eqb_In (x : nat) (l : list nat) :
  existsb (Nat.eqb x) l = true <-> In x l.
Proof.
  rewrite existsb_exists. split.
  - intros (y & Hy & E). apply Nat.eqb_eq in E. now subst.
  - intros H. exists x. split; auto. apply Nat.eqb_refl.
Qed.

Lemma uniqueb_NoDup (l : list nat) : uniqueb l = true -> NoDup l.
Proof.
  induction l as [|x l IH]; simpl; intros H; constructor.
  - apply andb_true_iff in H. destruct H as [H _].
    apply negb_true_iff in H. intros Hin.
    apply existsb_eqb_In in Hin. congruence.
  - apply IH. apply andb_true_iff in H. tauto.
Qed.

Lemma wfb_sound g : wfb g = true -> wf g.
Proof.
  unfold wfb. intros H.
  apply andb_true_iff in H. destruct H as [H H3].
  apply andb_true_iff in H. destruct H as [H1 H2].
  constructor; try now apply uniqueb_NoDup.
  intros e He. rewrite forallb_forall in H3. specialize (H3 e He).
  apply andb_true_iff in H3. destruct H3 as [Ht Hh].
  split; now apply existsb_eqb_In.
Qed.

Lemma sample_graph_wf : wf sample_graph.
Proof.
  apply wfb_sound. reflexivity.
Qed.

Lemma sample_graph_files : all_have_file sample_graph.
Proof.
  intros x Hx. simpl in Hx.
  destruct Hx as [<-|[<-|[<-|[<-|[]]]]]; discriminate.
Qed.

Lemma sample_graph_no_loop : no_intra_loop sample_graph.
Proof.
  intros e He Et. simpl in He.
  destruct He as [<-|[<-|[]]]; discriminate.
Qed.

Lemma sample_graph_reduced :
  graph_remove_intra_edges sample_graph = Ok sample_reduced.
Proof.
  reflexivity.
Qed.

(** ** Properties of the reducer *)

(** C3.  A pass of the reducer over a graph whose nodes all carry a
    [file] completes when no loop edge lies inside a file, and after a
    completed pass the [file] values at the two ends of every surviving
    edge differ, or one of them is empty: no surviving edge joins two
    nodes with equal non-empty [file] values. *)
Theorem reduced_edge_joins_files g :
  wf g -> all_have_file g ->
  (no_intra_loop g -> exists g', graph_remove_intra_edges g = Ok g') /\
  (forall g' e,
     graph_remove_intra_edges g = Ok g' -> In e (g_edges g') ->
     exists fa fb,
       node_file g' (e_tail e) = Some fa /\
       node_file g' (e_head e) = Some fb /\
       (fa = EmptyString \/ fb = EmptyString \/ fa <> fb)).
Proof.
  intros W Hf. split; [now apply graph_remove_intra_edges_total|].
  intros g' e E He.
  pose proof (reduced_no_intra_edge g g' e W E He) as Hi.
  destruct (graph_remove_intra_edges_Ok g g' W E) as (W' & R & V).
  destruct (wf_ends g' W' e He) as [Ht Hh].
  destruct (find_node_live g' _ Ht) as [xa Ea].
  destruct (find_node_live g' _ Hh) as [xb Eb].
  unfold intra_edge, node_file in *. rewrite Ea, Eb in *.
  apply find_node_Some in Ea, Eb.
  destruct V as [Vf _].
  pose proof (Vf xa (proj1 Ea)) as Fa. pose proof (Vf xb (proj1 Eb)) as Fb.
  unfold has_file in Fa, Fb.
  destruct (file_of xa) as [fa|]; [|congruence].
  destruct (file_of xb) as [fb|]; [|congruence].
  exists fa, fb. repeat split. now apply same_file_false.
Qed.

Lemma reduced_edge_joins_files_witness :
  (exists g', graph_remove_intra_edges sample_graph = Ok g') /\
  exists fa fb,
    node_file sample_reduced 1 = Some fa /\
    node_file sample_reduced 2 = Some fb /\
    (fa = EmptyString \/ fb = EmptyString \/ fa <> fb).
Proof.
  destruct (reduced_edge_joins_files sample_graph
              sample_graph_wf sample_graph_files) as [Ht He].
  split.
  - apply Ht. exact sample_graph_no_loop.
  - apply (He sample_reduced (sample_edge 1 1 2)).
    + reflexivity.
    + simpl. auto.
Defined.

(** C7.  A second pass of the reducer over the result of a first pass
    returns that result unchanged: it deletes no edge and no node.  On a
    graph whose nodes all carry a [file] and that has no loop edge
    inside a file both passes complete. *)
Theorem reduce_twice g :
  wf g -> all_have_file g ->
  (no_intra_loop g ->
   exists g', graph_remove_intra_edges g = Ok g' /\
              graph_remove_intra_edges g' = Ok g') /\
  (forall g', graph_remove_intra_edges g = Ok g' ->
              graph_remove_intra_edges g' = Ok g').
Proof.
  intros W Hf.
  assert (Again : forall g', graph_remove_intra_edges g = Ok g' ->
                             graph_remove_intra_edges g' = Ok g').
  { intros g' E.
    destruct (graph_remove_intra_edges_Ok g g' W E) as (W' & R & V).
    assert (Hni : forall e, In e (g_edges g') -> intra_edge g' e = false)
      by (intros e He; apply (reduced_no_intra_edge g g' e W E He)).
    destruct (graph_remove_intra_edges_total g') as [g'' E']; auto.
    - apply (reduced_all_have_file g g' W E).
    - intros e He _. auto.
    - rewrite E'. f_equal.
      destruct (graph_remove_intra_edges_Ok g' g'' W' E') as (W'' & R' & _).
      now apply reduct_fixed. }
  split; [|exact Again].
  intros Hl. destruct (graph_remove_intra_edges_total g W Hf Hl) as [g' E].
  exists g'. auto.
Qed.

Lemma reduce_twice_witness :
  (exists g', graph_remove_intra_edges sample_graph = Ok g' /\
              graph_remove_intra_edges g' = Ok g') /\
  graph_remove_intra_edges sample_reduced = Ok sample_reduced.
Proof.
  destruct (reduce_twice sample_graph sample_graph_wf sample_graph_files)
    as [Ht Ha].
  split.
  - apply Ht. exact sample_graph_no_loop.
  - apply Ha. reflexivity.
Defined.

(** C8.  A node that has no edge in the input is still there after a
    pass of the reducer; a node the pass deleted had an edge inside its
    file deleted by the pass, and every edge the input had at it was
    such an edge and is gone.  (The pass completes when every node
    carries a [file] and no loop edge lies inside a file.) *)
Theorem untouched_node_survives g :
  wf g ->
  (all_have_file g -> no_intra_loop g ->
   exists g', graph_remove_intra_edges g = Ok g') /\
  (forall g' x,
     graph_remove_intra_edges g = Ok g' -> In x (g_nodes g) ->
     (agdegree g (n_id x) true true = Ok 0 -> In x (g_nodes g')) /\
     (~ In x (g_nodes g') ->
      (exists e, In e (g_edges g) /\ incident (n_id x) e /\
                 intra_edge g e = true /\ ~ In e (g_edges g')) /\
      (forall e, In e (g_edges g) -> incident (n_id x) e ->
                 intra_edge g e = true /\ ~ In e (g_edges g')))).
Proof.
  intros W. split; [now apply graph_remove_intra_edges_total|].
  intros g' x E Hx.
  destruct (graph_remove_intra_edges_Ok g g' W E) as (W' & R & V).
  assert (Gone : ~ In x (g_nodes g') ->
                 forall e, In e (g_edges g) -> incident (n_id x) e ->
                           intra_edge g e = true /\ ~ In e (g_edges g')).
  { intros Hn e He Hinc.
    assert (Hne : ~ In e (g_edges g')).
    { intros Hi. apply Hn.
      assert (Hid : In (n_id x) (node_ids g')).
      { destruct (wf_ends g' W' e Hi) as [Ht Hh].
        destruct Hinc as [<-|<-]; auto. }
      apply in_map_iff in Hid. destruct Hid as (y & Ey & Hy).
      assert (y = x); [|now subst].
      apply (key_inj n_id (g_nodes g) y x); auto; [apply W|].
      apply (reduct_node_In g g' y R Hy). }
    split; auto. apply (red_edge_gone g g' R e He Hne). }
  split.
  - intros Hd.
    destruct (in_dec node_eq_dec x (g_nodes g')) as [Hi|Hi]; auto.
    exfalso.
    destruct (red_node_gone g g' R x Hx Hi) as (_ & e & He & Hinc).
    unfold agdegree in Hd. rewrite (find_node_In g x W Hx) in Hd.
    assert (Iso : isolated g (n_id x)) by (unfold isolated; congruence).
    destruct (isolated_no_edge g (n_id x) e Iso He) as [Ht Hh].
    destruct Hinc; contradiction.
  - intros Hn. split; auto.
    destruct (red_node_gone g g' R x Hx Hn) as (_ & e & He & Hinc).
    exists e. destruct (Gone Hn e He Hinc). auto.
Qed.

Lemma untouched_node_survives_witness :
  (exists g', graph_remove_intra_edges sample_graph = Ok g') /\
  In (sample_node 3 "D" EmptyString) (g_nodes sample_reduced) /\
  exists e, In e (g_edges sample_graph) /\ incident 0 e /\
            intra_edge sample_graph e = true /\
            ~ In e (g_edges sample_reduced).
Proof.
  destruct (untouched_node_survives sample_graph sample_graph_wf)
    as [Ht Hs].
  split; [|split].
  - apply Ht; [exact sample_graph_files|exact sample_graph_no_loop].
  - apply (Hs sample_reduced (sample_node 3 "D" EmptyString)).
    + reflexivity.
    + simpl. auto.
    + reflexivity.
  - apply (Hs sample_reduced (sample_node 0 "A" (quoted "a.c"))).
    + reflexivity.
    + simpl. auto.
    + simpl. intros [H|[H|[H|[]]]]; discriminate.
Defined.

(** C9.  When the first node of the graph has a non-empty [file] and a
    loop as its only edge, the reducer deletes the node as the head of
    the loop and then asks for the degree of the deleted node: a deleted
    handle is used. *)
Theorem loop_uses_deleted_node g x post e f :
  wf g -> g_nodes g = x :: post ->
  file_of x = Some f -> f <> EmptyString ->
  out_edges g (n_id x) = [e] -> in_edges g (n_id x) = [e] ->
  graph_remove_intra_edges g = Abort UseAfterFree.
Proof.
  intros W En Ef Hne Eo Ei.
  assert (Hx : In x (g_nodes g)) by (rewrite En; now left).
  assert (He : In e (g_edges g) /\ e_tail e = n_id x)
    by (apply out_edges_In; rewrite Eo; now left).
  assert (Hh : e_head e = n_id x)
    by (apply (in_edges_In g (n_id x) e); rewrite Ei; now left).
  destruct He as [He Ht].
  unfold graph_remove_intra_edges, agfstnode. rewrite En.
  cbn [length map hd_error for_loop].
  assert (Body : remove_intra_node g (n_id x) = Abort UseAfterFree);
    [|now rewrite Body].
  unfold remove_intra_node.
  rewrite (agnxtnode_split g [] x post W En). simpl bind.
  rewrite (agget_In g x "file" W Hx). fold (file_of x). rewrite Ef.
  simpl bind. rewrite (agfstout_In g x W Hx), Eo. simpl bind.
  assert (Hfuel : exists k, length (g_edges g) = S k).
  { destruct (g_edges g); [contradiction|]. simpl. eauto. }
  destruct Hfuel as [k ->].
  cbn [length map hd_error for_loop].
  unfold remove_intra_edge.
  rewrite (agnxtout_split g (n_id x) [] e [] W Eo). simpl bind.
  rewrite (aghead_In g e W He), Hh. simpl bind.
  rewrite (agget_In g x "file" W Hx). fold (file_of x). rewrite Ef.
  simpl bind.
  assert (Econd : (strlen f =? 0) || (strlen f =? 0) || strcmp_ne f f = false).
  { unfold strcmp_ne. rewrite String.eqb_refl.
    destruct (strlen f =? 0) eqn:El; auto.
    apply strlen_zero in El. contradiction. }
  rewrite Econd, (agdelete_In g e W He). simpl bind.
  set (g1 := mkGraph (g_nodes g)
               (filter (fun y => negb (e_id y =? e_id e)) (g_edges g))).
  assert (W1 : wf g1) by (apply delete_edges_wf; auto).
  assert (Eo1 : out_edges g1 (n_id x) = [])
    by (apply (out_edges_delete g (n_id x) [] e [] W Eo)).
  assert (Ei1 : in_edges g1 (n_id x) = []).
  { unfold in_edges, g1. cbn [g_edges]. rewrite filter_filter.
    rewrite (filter_ext _ (fun y => (e_head y =? n_id x)
                                    && negb (e_id y =? e_id e)))
      by (intros y; apply andb_comm).
    rewrite <- filter_filter. fold (in_edges g (n_id x)). rewrite Ei.
    simpl. now rewrite Nat.eqb_refl. }
  unfold agdegree at 1. rewrite (find_node_In g1 x W1 Hx), Ei1, Eo1.
  simpl bind. cbn [length Nat.add Nat.ltb Nat.leb].
  assert (Enx : match hd_error (map n_id post) with
                | Some y => if y =? n_id x then agnxtnode g1 y
                            else Ok (hd_error (map n_id post))
                | None => Ok (hd_error (map n_id post))
                end = Ok (hd_error (map n_id post))).
  { destruct post as [|y post']; simpl; auto.
    destruct (Nat.eqb_spec (n_id y) (n_id x)) as [E|_]; auto.
    exfalso. pose proof (wf_nodes g W) as ND. unfold node_ids in ND.
    rewrite En in ND. simpl in ND. inversion ND as [|? ? Hn _]; subst.
    apply Hn. rewrite <- E. now left. }
  rewrite Enx. simpl bind.
  assert (Iso : isolated g1 (n_id x))
    by (unfold isolated; now rewrite Ei1, Eo1).
  rewrite (agdelnode_isolated g1 x W1 Hx Iso). simpl bind.
  rewrite for_loop_done. simpl bind.
  unfold agdegree, find_node. cbn [g_nodes].
  replace (find _ _) with (@None node); [reflexivity|].
  symmetry. apply find_key_None. intros Hin.
  apply in_map_iff in Hin. destruct Hin as (y & Ey & Hy).
  apply filter_In in Hy. destruct Hy as [_ Hy].
  apply negb_true_iff, Nat.eqb_neq in Hy. auto.
Qed.

Lemma loop_graph_wf : wf loop_graph.
Proof.
  apply wfb_sound. reflexivity.
Qed.

Lemma loop_uses_deleted_node_witness :
  graph_remove_intra_edges loop_graph = Abort UseAfterFree.
Proof.
  apply (loop_uses_deleted_node loop_graph
           (sample_node 0 "A" (quoted "a.c")) [] (sample_edge 0 0 0)
           (quoted "a.c") loop_graph_wf); try reflexivity.
  discriminate.
Defined.

(** A deleted handle is used on such loops only. *)
Lemma use_after_free_needs_loop g :
  wf g -> graph_remove_intra_edges g = Abort UseAfterFree ->
  exists e, In e (g_edges g) /\ e_tail e = e_head e /\ intra_edge g e = true.
Proof.
  intros W E. pose proof (graph_remove_intra_edges_sat g W) as H.
  now rewrite E in H.
Qed.

(** ** Computations that write *)

Lemma io_bind_ret {A B} (a : A) (f : A -> io B) : io_bind (io_ret a) f = f a.
Proof.
  unfold io_bind, io_ret. simpl. now destruct (f a).
Qed.

Lemma io_bind_lift_Ok {A B} (a : A) (f : A -> io B) :
  io_bind (lift (Ok a)) f = f a.
Proof.
  apply io_bind_ret.
Qed.

Lemma io_bind_Ok {A B} (a : A) (out : stdout_t) (f : A -> io B) :
  io_bind (Ok a, out) f = (fst (f a), out ++ snd (f a)).
Proof.
  reflexivity.
Qed.

Lemma for_loop_io_done {S H} fuel (body : S -> H -> io (S * option H)) s :
  for_loop_io fuel body s None = io_ret s.
Proof.
  now destruct fuel.
Qed.

(** ** The emitter *)

Lemma print_node_In g pre x post :
  wf g -> g_nodes g = pre ++ x :: post -> has_label x -> has_file x ->
  print_node g tt (n_id x)
  = (Ok (tt, hd_error (map n_id post)),
     NodeObj (label_field (label_text x)) (group_field (file_text x))
     :: separator (negb (is_nil post)) ++ [Text nl]).
Proof.
  intros W En Hl Hf.
  assert (Hx : In x (g_nodes g)) by (rewrite En; apply in_elt).
  unfold print_node.
  rewrite (agnxtnode_split g pre x post W En), io_bind_lift_Ok.
  rewrite !(agget_In g x _ W Hx).
  unfold has_label, has_file, label_text, file_text in *.
  fold (label_of x) (file_of x).
  destruct (label_of x) as [l|]; [|congruence].
  destruct (file_of x) as [f|]; [|congruence].
  destruct post; reflexivity.
Qed.

Lemma print_nodes_loop g :
  wf g -> printable g ->
  forall post pre fuel,
    g_nodes g = pre ++ post -> length post <= fuel ->
    for_loop_io fuel (print_node g) tt (hd_error (map n_id post))
    = (Ok tt, node_lines post).
Proof.
  intros W P. induction post as [|x post IH]; intros pre fuel En Hf.
  - cbn [map hd_error]. now rewrite for_loop_io_done.
  - destruct fuel as [|fuel]; [simpl in Hf; lia|].
    assert (Hx : In x (g_nodes g)) by (rewrite En; apply in_elt).
    destruct (P x Hx) as [Hl Hfi].
    cbn [map hd_error for_loop_io].
    rewrite (print_node_In g pre x post W En Hl Hfi), io_bind_Ok.
    cbn iota beta.
    rewrite (IH (pre ++ [x]) fuel).
    + cbn [fst snd node_lines]. f_equal. cbn [app]. f_equal.
      now rewrite <- app_assoc.
    + now rewrite <- app_assoc.
    + simpl in Hf. lia.
Qed.

Lemma print_link_In g labeln nxtnode kept e rest n :
  wf g -> printable g -> out_edges g n = kept ++ e :: rest ->
  print_link g labeln nxtnode tt (e_id e)
  = (Ok (tt, hd_error (map e_id rest)),
     LinkObj (label_field labeln) (label_field (head_label g e)) (value_text e)
     :: separator (negb (is_nil rest) || negb (is_null nxtnode))
     ++ [Text nl]).
Proof.
  intros W P Eo.
  assert (He : In e (out_edges g n)) by (rewrite Eo; apply in_elt).
  apply out_edges_In in He. destruct He as [He _].
  unfold print_link.
  rewrite (agnxtout_split g n kept e rest W Eo), io_bind_lift_Ok.
  rewrite (aghead_In g e W He), io_bind_lift_Ok.
  destruct (wf_ends g W e He) as [_ Hh].
  destruct (find_node_live g _ Hh) as [y Ey].
  destruct (find_node_Some g _ _ Ey) as [Hy Eid].
  unfold head_label. rewrite Ey.
  rewrite <- Eid, (agget_In g y _ W Hy), io_bind_lift_Ok.
  destruct (P y Hy) as [Hl _]. unfold has_label, label_text in *.
  fold (label_of y).
  destruct (label_of y) as [l|]; [|congruence].
  unfold agget_edge. rewrite (find_edge_In g e W He).
  unfold value_text.
  destruct rest, nxtnode; reflexivity.
Qed.

Lemma print_link_loop g labeln nxtnode n :
  wf g -> printable g ->
  forall rest kept fuel,
    out_edges g n = kept ++ rest -> length rest <= fuel ->
    for_loop_io fuel (print_link g labeln nxtnode) tt
                (hd_error (map e_id rest))
    = (Ok tt, link_lines g labeln (negb (is_null nxtnode)) rest).
Proof.
  intros W P. induction rest as [|e rest IH]; intros kept fuel Eo Hf.
  - cbn [map hd_error]. now rewrite for_loop_io_done.
  - destruct fuel as [|fuel]; [simpl in Hf; lia|].
    cbn [map hd_error for_loop_io].
    rewrite (print_link_In g labeln nxtnode kept e rest n W P Eo), io_bind_Ok.
    cbn iota beta.
    rewrite (IH (kept ++ [e]) fuel).
    + cbn [fst snd link_lines]. f_equal. cbn [app]. f_equal.
      now rewrite <- app_assoc.
    + now rewrite <- app_assoc.
    + simpl in Hf. lia.
Qed.

Lemma print_links_In g pre x post :
  wf g -> printable g -> g_nodes g = pre ++ x :: post ->
  print_links g tt (n_id x)
  = (Ok (tt, hd_error (map n_id post)),
     link_lines g (label_text x) (negb (is_nil post)) (out_edges g (n_id x))).
Proof.
  intros W P En.
  assert (Hx : In x (g_nodes g)) by (rewrite En; apply in_elt).
  destruct (P x Hx) as [Hl _].
  unfold print_links.
  rewrite (agnxtnode_split g pre x post W En), io_bind_lift_Ok.
  rewrite (agget_In g x _ W Hx).
  unfold has_label, label_text in *. fold (label_of x).
  destruct (label_of x) as [l|]; [|congruence].
  rewrite io_bind_lift_Ok. cbn [deref]. rewrite io_bind_lift_Ok.
  rewrite (agfstout_In g x W Hx), io_bind_lift_Ok.
  rewrite (print_link_loop g l (hd_error (map n_id post)) (n_id x) W P
             (out_edges g (n_id x)) [] (length (g_edges g)) eq_refl
             (filter_length_le _ _)).
  rewrite io_bind_Ok. unfold io_ret. cbn [fst snd].
  rewrite app_nil_r. destruct post; reflexivity.
Qed.

Lemma print_links_loop g :
  wf g -> printable g ->
  forall post pre fuel,
    g_nodes g = pre ++ post -> length post <= fuel ->
    for_loop_io fuel (print_links g) tt (hd_error (map n_id post))
    = (Ok tt, links_lines g post).
Proof.
  intros W P. induction post as [|x post IH]; intros pre fuel En Hf.
  - cbn [map hd_error]. now rewrite for_loop_io_done.
  - destruct fuel as [|fuel]; [simpl in Hf; lia|].
    cbn [map hd_error for_loop_io].
    rewrite (print_links_In g pre x post W P En), io_bind_Ok.
    cbn iota beta.
    rewrite (IH (pre ++ [x]) fuel).
    + reflexivity.
    + now rewrite <- app_assoc.
    + simpl in Hf. lia.
Qed.

(** The emitter writes the document of the graph. *)
Lemma graph_print_d3_arc_document g :
  wf g -> printable g ->
  graph_print_d3_arc g = (Ok tt, d3_arc_document g).
Proof.
  intros W P. unfold graph_print_d3_arc, agfstnode.
  rewrite (print_nodes_loop g W P (g_nodes g) [] _ eq_refl (le_n _)).
  rewrite (print_links_loop g W P (g_nodes g) [] _ eq_refl (le_n _)).
  unfold d3_arc_document, printf, io_bind. cbn [fst snd].
  reflexivity.
Qed.

(** A node without [label] or [file] stops the emitter at its turn. *)
Lemma print_node_null g pre x post :
  wf g -> g_nodes g = pre ++ x :: post ->
  label_of x = None \/ file_of x = None ->
  print_node g tt (n_id x) = (Abort NullDeref, []).
Proof.
  intros W En Hbad.
  assert (Hx : In x (g_nodes g)) by (rewrite En; apply in_elt).
  unfold print_node.
  rewrite (agnxtnode_split g pre x post W En), io_bind_lift_Ok.
  rewrite !(agget_In g x _ W Hx). fold (label_of x) (file_of x).
  destruct (label_of x) as [l|]; [|reflexivity].
  destruct Hbad as [Hl|Hf]; [discriminate|]. rewrite Hf. reflexivity.
Qed.

(** When it is the first node, the two opening lines have been written. *)
Lemma graph_print_d3_arc_first_null g x r :
  wf g -> g_nodes g = x :: r ->
  label_of x = None \/ file_of x = None ->
  graph_print_d3_arc g = (Abort NullDeref, d3_arc_opening).
Proof.
  intros W En Hbad. unfold graph_print_d3_arc, agfstnode.
  rewrite En. cbn [map hd_error length for_loop_io].
  rewrite (print_node_null g [] x r W En Hbad).
  reflexivity.
Qed.

(** ** Counting the entries of the document *)

Lemma filter_partition_length {A} (p : A -> bool) (l : list A) :
  length (filter p l) + length (filter (fun x => negb (p x)) l) = length l.
Proof.
  induction l as [|a l IH]; simpl; auto.
  destruct (p a); simpl; lia.
Qed.

Lemma flat_map_ext_in {A B} (f g : A -> list B) (l : list A) :
  (forall a, In a l -> f a = g a) -> flat_map f l = flat_map g l.
Proof.
  induction l as [|a l IH]; simpl; intros H; auto.
  rewrite H by auto. f_equal. auto.
Qed.

(** Every edge leaves exactly one node. *)
Lemma out_edges_cover (l : list node) :
  NoDup (map n_id l) ->
  forall es : list edge,
    (forall e, In e es -> In (e_tail e) (map n_id l)) ->
    length (flat_map (fun x => filter (fun e => e_tail e =? n_id x) es) l)
    = length es.
Proof.
  induction l as [|x l IH]; intros ND es Ht.
  - destruct es as [|e es]; auto. destruct (Ht e); simpl; auto.
  - simpl in ND. inversion ND as [|? ? Hx ND']; subst.
    cbn [flat_map]. rewrite length_app.
    rewrite <- (filter_partition_length (fun e => e_tail e =? n_id x) es).
    f_equal.
    rewrite <- (IH ND' (filter (fun e => negb (e_tail e =? n_id x)) es)).
    + f_equal. apply flat_map_ext_in. intros y Hy.
      rewrite filter_filter. apply filter_ext. intros e.
      destruct (Nat.eqb_spec (e_tail e) (n_id y)) as [E|NE];
        [|now rewrite andb_false_r].
      rewrite andb_true_r. symmetry. apply negb_true_iff, Nat.eqb_neq.
      intros E'. apply Hx. rewrite <- E', E. now apply in_map.
    + intros e He. apply filter_In in He. destruct He as [He Hn].
      apply negb_true_iff, Nat.eqb_neq in Hn.
      destruct (Ht e He) as [E|Hi]; auto. congruence.
Qed.

Lemma nodes_array_app a b :
  nodes_array (a ++ b) = nodes_array a ++ nodes_array b.
Proof.
  apply filter_app.
Qed.

Lemma links_array_app a b :
  links_array (a ++ b) = links_array a ++ links_array b.
Proof.
  apply filter_app.
Qed.

Lemma links_array_node_lines l : links_array (node_lines l) = [].
Proof.
  induction l as [|x l IH]; simpl; auto.
  unfold links_array in *. rewrite filter_app. simpl.
  destruct (is_nil l); simpl; now rewrite IH.
Qed.

Lemma nodes_array_link_lines g lab more l :
  nodes_array (link_lines g lab more l) = [].
Proof.
  induction l as [|e l IH]; simpl; auto.
  unfold nodes_array in *. rewrite filter_app. simpl.
  destruct (negb (is_nil l) || more); simpl; now rewrite IH.
Qed.

Lemma nodes_array_links_lines g l : nodes_array (links_lines g l) = [].
Proof.
  induction l as [|x l IH]; simpl; auto.
  now rewrite nodes_array_app, nodes_array_link_lines, IH.
Qed.

Lemma link_lines_In g lab more l s t v :
  In (LinkObj s t v) (link_lines g lab more l) ->
  exists e, In e l /\ s = label_field lab /\
            t = label_field (head_label g e).
Proof.
  induction l as [|e l IH]; simpl; intros H; [contradiction|].
  destruct H as [H|H].
  - inversion H; subst. exists e. auto.
  - apply in_app_or in H. destruct H as [H|[H|H]].
    + destruct (negb (is_nil l) || more); simpl in H;
        [destruct H as [H|[]]; discriminate|contradiction].
    + discriminate.
    + destruct (IH H) as (e' & He & Es & Et). exists e'. auto.
Qed.

Lemma links_lines_In g l s t v :
  In (LinkObj s t v) (links_lines g l) ->
  exists x e, In x l /\ In e (out_edges g (n_id x)) /\
              s = label_field (label_text x) /\
              t = label_field (head_label g e).
Proof.
  induction l as [|x l IH]; simpl; intros H; [contradiction|].
  apply in_app_or in H. destruct H as [H|H].
  - apply link_lines_In in H. destruct H as (e & He & Es & Et).
    exists x, e. auto.
  - destruct (IH H) as (y & e & Hy & He & Es & Et). exists y, e. auto.
Qed.

Lemma node_lines_no_link l s t v : ~ In (LinkObj s t v) (node_lines l).
Proof.
  induction l as [|x l IH]; simpl; intros H; auto.
  destruct H as [H|H]; [discriminate|].
  apply in_app_or in H. destruct H as [H|[H|H]]; auto; try discriminate.
  destruct (negb (is_nil l)); simpl in H;
    [destruct H as [H|[]]; discriminate|contradiction].
Qed.

(** ** Reading the document back *)

Lemma string_app_assoc (a b c : string) :
  ((a ++ b) ++ c = a ++ (b ++ c))%string.
Proof.
  induction a as [|x a IH]; simpl; congruence.
Qed.

Lemma string_app_nil_r (a : string) : (a ++ EmptyString)%string = a.
Proof.
  induction a as [|x a IH]; simpl; congruence.
Qed.

Lemma stdout_text_app (a b : stdout_t) :
  stdout_text (a ++ b) = (stdout_text a ++ stdout_text b)%string.
Proof.
  induction a as [|o a IH]; simpl; auto.
  now rewrite IH, string_app_assoc.
Qed.

Lemma read_app (a b : string) :
  forall r, read r (a ++ b) = read (read r a) b.
Proof.
  induction a as [|c a IH]; intros r; simpl; auto.
Qed.

(** Inside a literal, plain characters are taken as they come. *)
Lemma read_plain (s : string) :
  forall cur depth key strs objs arrs,
    plainb s = true ->
    read (mkReader true false cur depth key strs objs arrs) s
    = mkReader true false (cur ++ s) depth key strs objs arrs.
Proof.
  induction s as [|c s IH]; intros cur depth key strs objs arrs Hp.
  - simpl. now rewrite string_app_nil_r.
  - simpl in Hp. apply andb_true_iff in Hp. destruct Hp as [Hc Hp].
    apply andb_true_iff in Hc. destruct Hc as [Hq Hb].
    apply negb_true_iff in Hq, Hb.
    cbn [read read_char]. rewrite Hq, Hb.
    rewrite (IH _ _ _ _ _ _ Hp), string_app_assoc. reflexivity.
Qed.

(** An entry of [nodes] with plain strings is read as one object. *)
Lemma read_node_obj id group key objs arrs :
  plainb id = true -> plainb group = true ->
  read (mkReader false false EmptyString 2 key [] objs arrs)
       (render (NodeObj id group))
  = mkReader false false EmptyString 2 key []
             (["id"; id; "group"; group] :: objs) arrs.
Proof.
  intros Hi Hg. unfold render, dq.
  cbn [read read_char append Ascii.eqb Bool.eqb Nat.eqb pred].
  rewrite read_app, (read_plain id _ _ _ _ _ _ Hi).
  cbn [read read_char append Ascii.eqb Bool.eqb Nat.eqb pred].
  rewrite read_app, (read_plain group _ _ _ _ _ _ Hg).
  cbn [read read_char append Ascii.eqb Bool.eqb Nat.eqb pred rev app].
  reflexivity.
Qed.

(** And so is an entry of [links]. *)
Lemma read_link_obj source target value key objs arrs :
  plainb source = true -> plainb target = true -> plainb value = true ->
  read (mkReader false false EmptyString 2 key [] objs arrs)
       (render (LinkObj source target value))
  = mkReader false false EmptyString 2 key []
             (["source"; source; "target"; target; "value"; value] :: objs)
             arrs.
Proof.
  intros Hs Ht Hv. unfold render, dq.
  cbn [read read_char append Ascii.eqb Bool.eqb Nat.eqb pred].
  rewrite read_app, (read_plain source _ _ _ _ _ _ Hs).
  cbn [read read_char append Ascii.eqb Bool.eqb Nat.eqb pred].
  rewrite read_app, (read_plain target _ _ _ _ _ _ Ht).
  cbn [read read_char append Ascii.eqb Bool.eqb Nat.eqb pred].
  rewrite read_app, (read_plain value _ _ _ _ _ _ Hv).
  cbn [read read_char append Ascii.eqb Bool.eqb Nat.eqb pred rev app].
  reflexivity.
Qed.

(** The lines of an array: each entry adds its object. *)
Lemma read_entries key arrs (l : stdout_t) :
  forallb plain_item l = true ->
  forall objs,
    read (mkReader false false EmptyString 2 key [] objs arrs) (stdout_text l)
    = mkReader false false EmptyString 2 key [] (rev (objects_of l) ++ objs)
               arrs.
Proof.
  induction l as [|o l IH]; intros Hp objs; [reflexivity|].
  cbn [forallb] in Hp. apply andb_true_iff in Hp. destruct Hp as [Ho Hp].
  change (stdout_text (o :: l)) with (render o ++ stdout_text l)%string.
  rewrite read_app.
  destruct o as [s|id group|source target value]; cbn [plain_item] in Ho.
  - assert (E : read (mkReader false false EmptyString 2 key [] objs arrs)
                     (render (Text s))
                = mkReader false false EmptyString 2 key [] objs arrs).
    { apply orb_true_iff in Ho.
      destruct Ho as [Ho|Ho]; apply String.eqb_eq in Ho; subst s;
        reflexivity. }
    rewrite E. apply IH, Hp.
  - apply andb_true_iff in Ho. destruct Ho as [Hi Hg].
    rewrite (read_node_obj id group key objs arrs Hi Hg), (IH Hp).
    unfold objects_of. cbn [flat_map object_of app rev].
    now rewrite <- app_assoc.
  - apply andb_true_iff in Ho. destruct Ho as [Ho Hv].
    apply andb_true_iff in Ho. destruct Ho as [Hs Ht].
    rewrite (read_link_obj source target value key objs arrs Hs Ht Hv),
      (IH Hp).
    unfold objects_of. cbn [flat_map object_of app rev].
    now rewrite <- app_assoc.
Qed.

Lemma objects_of_app (a b : stdout_t) :
  objects_of (a ++ b) = objects_of a ++ objects_of b.
Proof.
  apply flat_map_app.
Qed.

Lemma objects_of_separator more : objects_of (separator more) = [].
Proof.
  now destruct more.
Qed.

Lemma plain_separator more : forallb plain_item (separator more) = true.
Proof.
  now destruct more.
Qed.

Lemma objects_of_node_lines l :
  objects_of (node_lines l) = map node_object l.
Proof.
  induction l as [|x l IH]; [reflexivity|].
  cbn [node_lines map].
  change (objects_of (?o :: ?r)) with (object_of o ++ objects_of r).
  rewrite objects_of_app, objects_of_separator.
  change (objects_of (?o :: ?r)) with (object_of o ++ objects_of r).
  rewrite IH. reflexivity.
Qed.

Lemma objects_of_link_lines g x more l :
  objects_of (link_lines g (label_text x) more l) = map (link_object g x) l.
Proof.
  induction l as [|e l IH]; [reflexivity|].
  cbn [link_lines map].
  change (objects_of (?o :: ?r)) with (object_of o ++ objects_of r).
  rewrite objects_of_app, objects_of_separator.
  change (objects_of (?o :: ?r)) with (object_of o ++ objects_of r).
  rewrite IH. reflexivity.
Qed.

Lemma objects_of_links_lines g l :
  objects_of (links_lines g l)
  = flat_map (fun x => map (link_object g x) (out_edges g (n_id x))) l.
Proof.
  induction l as [|x l IH]; [reflexivity|].
  cbn [links_lines flat_map].
  now rewrite objects_of_app, objects_of_link_lines, IH.
Qed.

Lemma plain_node_lines l :
  forallb (fun x => plainb (label_field (label_text x)) &&
                    plainb (group_field (file_text x))) l = true ->
  forallb plain_item (node_lines l) = true.
Proof.
  induction l as [|x l IH]; intros Hp; [reflexivity|].
  cbn [forallb] in Hp. apply andb_true_iff in Hp. destruct Hp as [Hx Hp].
  cbn [node_lines forallb plain_item]. rewrite Hx.
  rewrite forallb_app, plain_separator. cbn [forallb plain_item].
  rewrite (IH Hp). reflexivity.
Qed.

Lemma plain_link_lines g lab more l :
  plainb (label_field lab) = true ->
  (forall e, In e l -> plainb (label_field (head_label g e)) = true /\
                       plainb (value_text e) = true) ->
  forallb plain_item (link_lines g lab more l) = true.
Proof.
  intros Hl. induction l as [|e l IH]; intros Hp; [reflexivity|].
  destruct (Hp e (or_introl eq_refl)) as [Ht Hv].
  cbn [link_lines forallb plain_item]. rewrite Hl, Ht, Hv.
  rewrite forallb_app, plain_separator. cbn [forallb plain_item].
  rewrite IH by (intros e' He'; apply Hp; now right). reflexivity.
Qed.

Lemma plain_links_lines g l :
  (forall x, In x l -> plainb (label_field (label_text x)) = true) ->
  (forall e, In e (g_edges g) ->
             plainb (label_field (head_label g e)) = true /\
             plainb (value_text e) = true) ->
  forallb plain_item (links_lines g l) = true.
Proof.
  intros Hn He. induction l as [|x l IH]; [reflexivity|].
  cbn [links_lines]. rewrite forallb_app.
  rewrite plain_link_lines, IH; auto.
  - intros y Hy. apply Hn. now right.
  - apply Hn. now left.
  - intros e Hin. apply He. now apply out_edges_In in Hin.
Qed.

(** What [plain_fields] says of the nodes, and of the edges with their
    heads. *)
Lemma plain_fields_nodes g :
  plain_fields g = true ->
  forallb (fun x => plainb (label_field (label_text x)) &&
                    plainb (group_field (file_text x))) (g_nodes g) = true.
Proof.
  unfold plain_fields. intros H. now apply andb_true_iff in H.
Qed.

Lemma plain_fields_edges g :
  wf g -> plain_fields g = true ->
  forall e, In e (g_edges g) ->
            plainb (label_field (head_label g e)) = true /\
            plainb (value_text e) = true.
Proof.
  intros W H e He. unfold plain_fields in H.
  apply andb_true_iff in H. destruct H as [Hn Hv].
  rewrite forallb_forall in Hn, Hv. split; [|now apply Hv].
  destruct (wf_ends g W e He) as [_ Hh].
  destruct (find_node_live g _ Hh) as [y Ey].
  unfold head_label. rewrite Ey.
  specialize (Hn y (proj1 (find_node_Some g _ _ Ey))).
  now apply andb_true_iff in Hn.
Qed.

(** The document of a graph with plain fields, read back: the array
    [nodes] with the object of each node, then the array [links] with
    the object of each edge. *)
Lemma arrays_of_document g :
  wf g -> plain_fields g = true ->
  arrays_of (stdout_text (d3_arc_document g))
  = [("nodes", map node_object (g_nodes g));
     ("links",
      flat_map (fun x => map (link_object g x) (out_edges g (n_id x)))
               (g_nodes g))].
Proof.
  intros W Hp.
  pose proof (plain_fields_nodes g Hp) as Hn.
  pose proof (plain_fields_edges g W Hp) as He.
  assert (Hl : forall x, In x (g_nodes g) ->
                         plainb (label_field (label_text x)) = true).
  { intros x Hx. rewrite forallb_forall in Hn. specialize (Hn x Hx).
    now apply andb_true_iff in Hn. }
  unfold arrays_of, d3_arc_document.
  rewrite !stdout_text_app, !read_app.
  change (read (mkReader false false EmptyString 0 EmptyString [] [] [])
               (stdout_text
                  [Text ("{" ++ nl)%string;
                   Text ("  " ++ dq ++ "nodes" ++ dq ++ ": [" ++ nl)%string]))
    with (mkReader false false EmptyString 2 "nodes" [] [] []).
  rewrite (read_entries "nodes" [] (node_lines (g_nodes g))
             (plain_node_lines _ Hn) []).
  rewrite app_nil_r, objects_of_node_lines.
  change (read (mkReader false false EmptyString 2 "nodes" [] ?objs [])
               (stdout_text
                  [Text ("  ]," ++ nl)%string;
                   Text ("  " ++ dq ++ "links" ++ dq ++ ": [" ++ nl)%string]))
    with (mkReader false false EmptyString 2 "links" [] []
                   [("nodes", rev objs)]).
  rewrite (read_entries "links" _ (links_lines g (g_nodes g))
             (plain_links_lines g _ Hl He) []).
  rewrite app_nil_r, objects_of_links_lines, rev_involutive.
  change (read (mkReader false false EmptyString 2 "links" [] ?objs ?arrs)
               (stdout_text
                  [Text ("  ]" ++ nl)%string; Text ("}" ++ nl)%string]))
    with (mkReader false false EmptyString 0 "links" [] []
                   (("links", rev objs) :: arrs)).
  cbn [r_arrs rev app]. now rewrite rev_involutive.
Qed.

Lemma length_flat_map_map {A B C} (f : A -> list B) (h : A -> B -> C)
    (l : list A) :
  length (flat_map (fun x => map (h x) (f x)) l) = length (flat_map f l).
Proof.
  induction l as [|x l IH]; simpl; auto.
  now rewrite !length_app, length_map, IH.
Qed.

(** C5, as the code has it.  For a graph with k nodes and m edges whose
    nodes carry [label] and [file], and for which the strings written
    between quotes hold no quote and no backslash, the text the emitter
    writes has the array [nodes] with exactly k objects, followed by the
    array [links] with exactly m objects, and the [source] and the
    [target] of every object of [links] are the [id] of an object of
    [nodes]. *)
Theorem emitted_document_counts g :
  wf g -> printable g -> plain_fields g = true ->
  exists out ns ls,
    graph_print_d3_arc g = (Ok tt, out) /\
    arrays_of (stdout_text out) = [("nodes", ns); ("links", ls)] /\
    length ns = length (g_nodes g) /\
    length ls = length (g_edges g) /\
    forall l, In l ls ->
      exists s t,
        field "source" l = Some s /\ field "target" l = Some t /\
        (exists n, In n ns /\ field "id" n = Some s) /\
        (exists n, In n ns /\ field "id" n = Some t).
Proof.
  intros W P Hp.
  exists (d3_arc_document g), (map node_object (g_nodes g)),
    (flat_map (fun x => map (link_object g x) (out_edges g (n_id x)))
              (g_nodes g)).
  split; [now apply graph_print_d3_arc_document|].
  split; [now apply arrays_of_document|].
  split; [apply length_map|]. split.
  - rewrite length_flat_map_map. unfold out_edges.
    apply (out_edges_cover (g_nodes g) (wf_nodes g W) (g_edges g)).
    intros e He. apply (wf_ends g W e He).
  - intros l Hl. apply in_flat_map in Hl. destruct Hl as (x & Hx & Hl).
    apply in_map_iff in Hl. destruct Hl as (e & <- & He).
    exists (label_field (label_text x)), (label_field (head_label g e)).
    split; [reflexivity|]. split; [reflexivity|]. split.
    + exists (node_object x). split; [now apply in_map|reflexivity].
    + apply out_edges_In in He. destruct He as [He _].
      destruct (wf_ends g W e He) as [_ Hh].
      destruct (find_node_live g _ Hh) as [y Ey].
      unfold head_label. rewrite Ey.
      exists (node_object y). split; [|reflexivity].
      apply in_map. apply (find_node_Some g _ _ Ey).
Qed.

Lemma sample_graph_printable : printable sample_graph.
Proof.
  intros x Hx. simpl in Hx.
  destruct Hx as [<-|[<-|[<-|[<-|[]]]]]; split; discriminate.
Qed.

Lemma emitted_document_counts_witness :
  exists out ns ls,
    graph_print_d3_arc sample_graph = (Ok tt, out) /\
    arrays_of (stdout_text out) = [("nodes", ns); ("links", ls)] /\
    length ns = 4 /\
    length ls = 2 /\
    forall l, In l ls ->
      exists s t,
        field "source" l = Some s /\ field "target" l = Some t /\
        (exists n, In n ns /\ field "id" n = Some s) /\
        (exists n, In n ns /\ field "id" n = Some t).
Proof.
  apply (emitted_document_counts sample_graph
           sample_graph_wf sample_graph_printable).
  vm_compute. reflexivity.
Defined.

Lemma quote_graph_wf : wf quote_graph.
Proof.
  apply wfb_sound. reflexivity.
Qed.

Lemma quote_graph_printable : printable quote_graph.
Proof.
  intros x Hx. simpl in Hx.
  destruct Hx as [<-|[]]; split; discriminate.
Qed.

(** C5 as the specification words it fails on a label with quotes of its
    own: the emitter writes the label as it is, and the one node of
    [quote_graph] is read back as two objects of [nodes]. *)
Lemma quoted_label_counterexample :
  wf quote_graph /\ printable quote_graph /\
  length (g_nodes quote_graph) = 1 /\
  exists out,
    graph_print_d3_arc quote_graph = (Ok tt, out) /\
    arrays_of (stdout_text out)
    = [("nodes", [["id"; "A"]; ["id"; "B"; "group"; "a"]]); ("links", [])] /\
    ~ (exists ns ls,
         arrays_of (stdout_text out) = [("nodes", ns); ("links", ls)] /\
         length ns = length (g_nodes quote_graph) /\
         length ls = length (g_edges quote_graph)).
Proof.
  split; [exact quote_graph_wf|]. split; [exact quote_graph_printable|].
  split; [reflexivity|].
  exists (d3_arc_document quote_graph).
  assert (E : arrays_of (stdout_text (d3_arc_document quote_graph))
              = [("nodes", [["id"; "A"]; ["id"; "B"; "group"; "a"]]);
                 ("links", [])])
    by (vm_compute; reflexivity).
  split; [vm_compute; reflexivity|]. split; [exact E|].
  intros (ns & ls & E' & Hn & _). rewrite E in E'.
  inversion E'. subst ns. discriminate.
Qed.

(** ** The fields of the entries *)

Lemma string_length_append (a b : string) :
  String.length (a ++ b) = String.length a + String.length b.
Proof.
  induction a as [|c a IH]; simpl; auto.
Qed.

Lemma substring_prefix_split (len : nat) :
  forall s, len <= String.length s ->
  exists b, s = (substring 0 len s ++ b)%string /\
            String.length b = String.length s - len.
Proof.
  induction len as [|len IH]; intros s Hl.
  - exists s. destruct s; simpl; auto.
  - destruct s as [|c s]; simpl in Hl; [lia|].
    destruct (IH s) as (b & E & Lb); [lia|].
    exists b. simpl. split; [now rewrite <- E|auto].
Qed.

Lemma substring_strips (off len : nat) :
  forall s, off + len <= String.length s ->
  strips off (String.length s - off - len) s (substring off len s).
Proof.
  induction off as [|off IH]; intros s Hl.
  - destruct (substring_prefix_split len s) as (b & E & Lb); [lia|].
    exists EmptyString, b. simpl. repeat split; auto. lia.
  - destruct s as [|c s]; simpl in Hl; [lia|].
    destruct (IH s) as (a & b & E & La & Lb); [lia|].
    exists (String c a), b. simpl. repeat split; auto. now rewrite <- E.
Qed.

Lemma substring_none (off : nat) (s : string) :
  substring off 0 s = EmptyString.
Proof.
  revert s. induction off as [|off IH]; intros [|c s]; simpl; auto.
Qed.

Lemma node_lines_inv l i grp :
  In (NodeObj i grp) (node_lines l) ->
  exists x, In x l /\ i = label_field (label_text x) /\
            grp = group_field (file_text x).
Proof.
  induction l as [|y l IH]; simpl; intros H; [contradiction|].
  destruct H as [H|H].
  - inversion H; subst. exists y. auto.
  - apply in_app_or in H. destruct H as [H|[H|H]]; try discriminate.
    + destruct (negb (is_nil l)); simpl in H;
        [destruct H as [H|[]]; discriminate|contradiction].
    + destruct (IH H) as (x & Hx & Ei & Eg). exists x. auto.
Qed.

Lemma links_lines_no_node g l i grp : ~ In (NodeObj i grp) (links_lines g l).
Proof.
  intros H.
  assert (Hin : In (NodeObj i grp) (nodes_array (links_lines g l)))
    by (apply filter_In; auto).
  now rewrite nodes_array_links_lines in Hin.
Qed.

(** The [int] of the emitter holds the length of a string of less than
    2^31 characters as it is. *)
Lemma strlen_int_fits (s : string) :
  fits_int s -> strlen_int s = Z.of_nat (strlen s).
Proof.
  unfold fits_int, strlen_int, int_of_size. intros H.
  rewrite Z.mod_small; lia.
Qed.

(** C6, as the code has it.  The [id] and [group] of an entry of [nodes]
    are [label_field] of the stored [label] and [group_field] of the
    stored [file] of a node, and [source] and [target] of an entry of
    [links] are [label_field] of the labels of two nodes.  On a string
    of less than 2^31 characters, the length of which the [int] of the
    emitter holds, [label_field] drops the first and the last character
    of a label of more than two characters and is empty on a shorter
    one; [group_field] drops the first and the last three characters of
    a file name of more than four characters, is empty on a shorter
    non-empty one, and is [NONE] on the empty one. *)
Theorem emitted_fields g :
  wf g -> printable g ->
  (exists out,
     graph_print_d3_arc g = (Ok tt, out) /\
     (forall i grp, In (NodeObj i grp) out ->
        exists x, In x (g_nodes g) /\ i = label_field (label_text x) /\
                  grp = group_field (file_text x)) /\
     (forall s t v, In (LinkObj s t v) out ->
        exists x y, In x (g_nodes g) /\ In y (g_nodes g) /\
                    s = label_field (label_text x) /\
                    t = label_field (label_text y))) /\
  (forall label,
     fits_int label ->
     (2 < strlen label -> strips 1 1 label (label_field label)) /\
     (strlen label <= 2 -> label_field label = EmptyString)) /\
  (forall file,
     fits_int file ->
     (4 < strlen file -> strips 1 3 file (group_field file)) /\
     (0 < strlen file <= 4 -> group_field file = EmptyString) /\
     (strlen file = 0 -> group_field file = "NONE")).
Proof.
  intros W P. split; [|split].
  - exists (d3_arc_document g).
    split; [now apply graph_print_d3_arc_document|]. split.
    + intros i grp H. unfold d3_arc_document in H.
      apply in_app_or in H. destruct H as [[H|[H|[]]]|H]; try discriminate.
      apply in_app_or in H. destruct H as [H|H];
        [now apply node_lines_inv|].
      apply in_app_or in H. destruct H as [[H|[H|[]]]|H]; try discriminate.
      apply in_app_or in H. destruct H as [H|[H|[H|[]]]]; try discriminate.
      now apply links_lines_no_node in H.
    + intros s t v H. unfold d3_arc_document in H.
      apply in_app_or in H. destruct H as [[H|[H|[]]]|H]; try discriminate.
      apply in_app_or in H. destruct H as [H|H];
        [now apply node_lines_no_link in H|].
      apply in_app_or in H. destruct H as [[H|[H|[]]]|H]; try discriminate.
      apply in_app_or in H. destruct H as [H|[H|[H|[]]]]; try discriminate.
      apply links_lines_In in H.
      destruct H as (x & e & Hx & He & -> & ->).
      apply out_edges_In in He. destruct He as [He _].
      destruct (wf_ends g W e He) as [_ Hh].
      destruct (find_node_live g _ Hh) as [y Ey].
      unfold head_label. rewrite Ey.
      exists x, y. repeat split; auto. apply (find_node_Some g _ _ Ey).
  - intros label Hfit. unfold label_field, precision.
    rewrite (strlen_int_fits label Hfit). unfold strlen.
    split; intros Hl.
    + destruct (Z.ltb_spec 2 (Z.of_nat (String.length label))) as [_|Hb];
        [|lia].
      replace (Z.to_nat (Z.of_nat (String.length label) - 2))
        with (String.length label - 2) by lia.
      replace 1 with (String.length label - 1 - (String.length label - 2))
        at 2 by lia.
      apply substring_strips. lia.
    + destruct (Z.ltb_spec 2 (Z.of_nat (String.length label))) as [Hb|_];
        [lia|].
      apply substring_none.
  - intros file Hfit. unfold group_field, precision.
    rewrite (strlen_int_fits file Hfit). unfold strlen.
    split; [|split]; intros Hl.
    + destruct (Z.ltb_spec 4 (Z.of_nat (String.length file))) as [_|Hb];
        [|lia].
      destruct (Z.eqb_spec (Z.of_nat (String.length file)) 0) as [E|_]; [lia|].
      replace (Z.to_nat (Z.of_nat (String.length file) - 4))
        with (String.length file - 4) by lia.
      destruct (substring_strips 1 (String.length file - 4) file)
        as (a & b & E & La & Lb); [lia|].
      exists a, b. repeat split; auto; [|lia].
      rewrite E at 1. f_equal. f_equal.
      generalize (substring 1 (String.length file - 4) file).
      intros s. induction s; simpl; congruence.
    + destruct (Z.ltb_spec 4 (Z.of_nat (String.length file))) as [Hb|_];
        [lia|].
      destruct (Z.eqb_spec (Z.of_nat (String.length file)) 0) as [E|_]; [lia|].
      change (Z.to_nat 0) with 0. now rewrite substring_none.
    + rewrite Hl. simpl. now rewrite substring_none.
Qed.

Lemma emitted_fields_witness :
  strips 1 1 (quoted "A") (label_field (quoted "A")) /\
  label_field "ab" = EmptyString /\
  strips 1 3 (quoted "a.c") (group_field (quoted "a.c")) /\
  group_field "abcd" = EmptyString /\
  group_field EmptyString = "NONE".
Proof.
  pose proof (emitted_fields sample_graph
                sample_graph_wf sample_graph_printable) as (_ & Hl & Hg).
  split; [apply (Hl (quoted "A")); unfold fits_int; simpl; lia|].
  split; [apply (Hl "ab"); unfold fits_int; simpl; lia|].
  split; [apply (Hg (quoted "a.c")); unfold fits_int; simpl; lia|].
  split; [apply (Hg "abcd"); unfold fits_int; simpl; lia|].
  apply (Hg EmptyString); [unfold fits_int; simpl; lia|reflexivity].
Defined.

(** C6 as the specification words it fails on the [group] of a quoted
    file name: three characters are dropped at its end, not one or two. *)
Lemma group_field_counterexample :
  ~ (exists trail, (trail = 1 \/ trail = 2) /\
       strips 1 trail (quoted "a.c") (group_field (quoted "a.c"))).
Proof.
  intros (trail & Ht & a & b & E & La & Lb).
  apply (f_equal String.length) in E.
  rewrite !string_length_append, La, Lb in E. simpl in E. lia.
Qed.

(** ** The merger *)

Lemma map_inj_NoDup {A B} (f : A -> B) (l : list A) (x y : A) :
  NoDup (map f l) -> In x l -> In y l -> f x = f y -> x = y.
Proof.
  induction l as [|a l IH]; simpl; intros ND Hx Hy E; [contradiction|].
  inversion ND as [|? ? Hna ND']; subst.
  destruct Hx as [->|Hx], Hy as [->|Hy]; auto.
  - exfalso. apply Hna. rewrite E. now apply in_map.
  - exfalso. apply Hna. rewrite <- E. now apply in_map.
Qed.

Lemma NoDup_snoc {A} (l : list A) (a : A) :
  NoDup l -> ~ In a l -> NoDup (l ++ [a]).
Proof.
  induction l as [|b l IH]; simpl; intros ND Hn.
  - repeat constructor. auto.
  - inversion ND as [|? ? Hb ND']; subst. constructor.
    + intros H. apply in_app_or in H. destruct H as [H|[H|[]]]; auto.
    + apply IH; auto.
Qed.

Lemma map_find_None (c : compartments_t) (k : string) :
  map_find c k = None <-> ~ In k (map fst c).
Proof.
  induction c as [|[k' v] c IH]; simpl; [tauto|].
  destruct (String.eqb_spec k' k) as [E|NE].
  - split; [discriminate|]. intros H. exfalso. auto.
  - rewrite IH. tauto.
Qed.

Lemma find_name_None (comps : compartments_t) (f : string) :
  ~ In f (map fst comps) ->
  find (fun x => String.eqb (n_name x) f) (map compartment_node comps) = None.
Proof.
  induction comps as [|[k v] comps IH]; simpl; intros H; auto.
  destruct (String.eqb_spec k f) as [E|NE]; [exfalso; auto|auto].
Qed.

Lemma fresh_handle (l : list node) (y : node) :
  In y l -> n_id y <> S (list_max (map n_id l)).
Proof.
  intros Hy E.
  assert (H : Forall (fun k => k <= list_max (map n_id l)) (map n_id l))
    by now apply list_max_le.
  rewrite Forall_forall in H. specialize (H (n_id y) (in_map n_id l y Hy)).
  lia.
Qed.

Lemma agset_last old c nm a es key val :
  (forall y, In y old -> n_id y <> c) ->
  agset (mkGraph (old ++ [mkNode c nm a]) es) c key val
  = Ok (mkGraph (old ++ [mkNode c nm (match attr_get key a with
                                      | Some _ => attr_set key val a
                                      | None => a
                                      end)]) es).
Proof.
  intros Hf. unfold agset, find_node. cbn [g_nodes g_edges].
  assert (E : find (fun x => n_id x =? c) (old ++ [mkNode c nm a])
              = Some (mkNode c nm a)).
  { induction old as [|y old IH]; simpl.
    - now rewrite Nat.eqb_refl.
    - destruct (Nat.eqb_spec (n_id y) c) as [Ey|_].
      + exfalso. apply (Hf y); simpl; auto.
      + apply IH. intros z Hz. apply Hf. simpl. auto. }
  rewrite E. cbn [n_attrs].
  destruct (attr_get key a) as [v|]; [|reflexivity].
  f_equal. f_equal.
  rewrite map_app. simpl. rewrite Nat.eqb_refl. f_equal.
  rewrite <- (map_id old) at 2. apply map_ext_in. intros y Hy.
  destruct (Nat.eqb_spec (n_id y) c) as [Ey|_]; auto.
  exfalso. now apply (Hf y).
Qed.

Lemma merge_out_edge_loop g n :
  wf g ->
  forall rest kept fuel,
    out_edges g n = kept ++ rest -> length rest <= fuel ->
    for_loop_io fuel (merge_out_edge g) tt (hd_error (map e_id rest))
    = io_ret tt.
Proof.
  intros W. induction rest as [|e rest IH]; intros kept fuel Eo Hf.
  - cbn [map hd_error]. now rewrite for_loop_io_done.
  - destruct fuel as [|fuel]; [simpl in Hf; lia|].
    cbn [map hd_error for_loop_io]. unfold merge_out_edge at 1.
    rewrite (agnxtout_split g n kept e rest W Eo), io_bind_lift_Ok.
    rewrite io_bind_ret.
    apply (IH (kept ++ [e])); [now rewrite <- app_assoc|simpl in Hf; lia].
Qed.

Lemma merge_intra_node_None g pre x post st :
  wf g -> g_nodes g = pre ++ x :: post -> file_of x = None ->
  merge_intra_node g st (n_id x) = (Abort AssertFailed, []).
Proof.
  intros W En Ef.
  assert (Hx : In x (g_nodes g)) by (rewrite En; apply in_elt).
  unfold merge_intra_node. destruct st as [h comps].
  rewrite (agnxtnode_split g pre x post W En), io_bind_lift_Ok.
  rewrite (agget_In g x _ W Hx), io_bind_lift_Ok.
  unfold file_of in Ef. rewrite Ef. reflexivity.
Qed.

Lemma merge_intra_node_Some g pre x post seen h comps f :
  wf g -> g_nodes g = pre ++ x :: post -> file_of x = Some f ->
  merge_inv seen (h, comps) ->
  exists h' added,
    merge_intra_node g (h, comps) (n_id x)
    = (Ok ((h', comps ++ added), hd_error (map n_id post)),
       map (fun c => debug_line (fst c)) added) /\
    merge_inv (seen ++ [x]) (h', comps ++ added).
Proof.
  intros W En Ef (In1 & In2 & In3 & In4 & In5).
  assert (Hx : In x (g_nodes g)) by (rewrite En; apply in_elt).
  assert (Tail : forall (st : Agraph_t * compartments_t) (c : Agnode_t),
             (e0 <~ lift (agfstout g (n_id x)) ;;
              _ <~ for_loop_io (length (g_edges g)) (merge_out_edge g) tt e0 ;;
              io_ret (st, hd_error (map n_id post)))
             = io_ret (st, hd_error (map n_id post))).
  { intros st c. rewrite (agfstout_In g x W Hx), io_bind_lift_Ok.
    rewrite (merge_out_edge_loop g (n_id x) W (out_edges g (n_id x)) []
               _ eq_refl (filter_length_le _ _)).
    now rewrite io_bind_ret. }
  unfold merge_intra_node.
  rewrite (agnxtnode_split g pre x post W En), io_bind_lift_Ok.
  rewrite (agget_In g x _ W Hx), io_bind_lift_Ok.
  unfold file_of in Ef. rewrite Ef. cbn [assert_not_null].
  rewrite io_bind_lift_Ok.
  fold (file_of x) in Ef.
  destruct (strlen f =? 0) eqn:El.
  - (* no file: the node is skipped *)
    apply strlen_zero in El. subst f.
    exists h, []. rewrite app_nil_r. split; [reflexivity|].
    repeat split; auto; try now apply In4.
    + destruct (proj1 (In4 f) H) as (_ & y & Hy & Ey).
      exists y. split; auto. apply in_or_app. auto.
    + intros (Hne & y & Hy & Ey). apply In4. split; auto.
      apply in_app_or in Hy. destruct Hy as [Hy|[<-|[]]]; [eauto|congruence].
  - assert (Hne : f <> EmptyString).
    { intros E. apply strlen_zero in E. congruence. }
    destruct (map_find comps f) as [c|] eqn:Emf.
    + (* the compartment is there *)
      rewrite io_bind_ret. rewrite (Tail (h, comps) c).
      exists h, []. rewrite app_nil_r. split; [reflexivity|].
      assert (Hin : In f (map fst comps)).
      { destruct (in_dec string_dec f (map fst comps)) as [Hi|Hi]; auto.
        apply map_find_None in Hi. congruence. }
      repeat split; auto; try now apply In4.
      * destruct (proj1 (In4 f0) H) as (_ & y & Hy & Ey).
        exists y. split; auto. apply in_or_app. auto.
      * intros (Hne0 & y & Hy & Ey).
        apply in_app_or in Hy. destruct Hy as [Hy|[<-|[]]].
        -- apply In4. eauto.
        -- congruence.
    + (* a new compartment *)
      apply map_find_None in Emf as Hnew.
      unfold agnode. rewrite In1, (find_name_None comps f Hnew).
      rewrite <- In1.
      set (c := S (list_max (map n_id (g_nodes h)))).
      rewrite (agset_last (g_nodes h) c f agopen_node_attrs (g_edges h)
                 "label" f)
        by (intros y Hy; now apply fresh_handle).
      rewrite io_bind_lift_Ok.
      unfold printf at 1. rewrite io_bind_Ok.
      change (match attr_get "label" agopen_node_attrs with
              | Some _ => attr_set "label" f agopen_node_attrs
              | None => agopen_node_attrs
              end) with [("label", f)].
      rewrite (agset_last (g_nodes h) c f [("label", f)] (g_edges h)
                 "file" f)
        by (intros y Hy; now apply fresh_handle).
      change (match attr_get "file" [("label", f)] with
              | Some _ => attr_set "file" f [("label", f)]
              | None => [("label", f)]
              end) with [("label", f)].
      rewrite io_bind_lift_Ok. unfold io_ret at 1 2. cbn [fst snd app].
      rewrite io_bind_Ok. cbn iota beta.
      rewrite (Tail _ c). unfold io_ret. cbn [fst snd].
      unfold map_insert. rewrite Emf.
      exists (mkGraph (g_nodes h ++ [mkNode c f [("label", f)]])
                      (g_edges h)), [(f, c)].
      split; [reflexivity|].
      cbn [merge_inv g_nodes g_edges].
      split; [|split; [|split; [|split]]]; auto.
      * rewrite map_app, <- In1. reflexivity.
      * rewrite map_app. simpl. now apply NoDup_snoc.
      * intros f0. rewrite map_app, in_app_iff. simpl. split.
        -- intros [H|[<-|[]]].
           ++ destruct (proj1 (In4 f0) H) as (H0 & y & Hy & Ey).
              split; auto. exists y. split; auto. apply in_or_app. auto.
           ++ split; auto. exists x. split; auto.
              apply in_or_app. right. now left.
        -- intros (Hne0 & y & Hy & Ey).
           apply in_app_or in Hy. destruct Hy as [Hy|[<-|[]]].
           ++ left. apply In4. eauto.
           ++ right. left. congruence.
      * rewrite map_app. simpl. apply NoDup_snoc; auto.
        replace (map snd comps) with (map n_id (g_nodes h)).
        -- intros Hin. apply in_map_iff in Hin.
           destruct Hin as (y & Ey & Hy).
           now apply (fresh_handle (g_nodes h) y).
        -- rewrite In1, map_map. reflexivity.
Qed.

Lemma merge_loop g :
  wf g ->
  forall post pre fuel (st : Agraph_t * compartments_t),
    g_nodes g = pre ++ post -> length post <= fuel -> merge_inv pre st ->
    (Forall has_file post ->
     exists h' added,
       for_loop_io fuel (merge_intra_node g) st (hd_error (map n_id post))
       = (Ok (h', snd st ++ added), map (fun c => debug_line (fst c)) added) /\
       merge_inv (pre ++ post) (h', snd st ++ added)) /\
    ((exists x, In x post /\ file_of x = None) ->
     fst (for_loop_io fuel (merge_intra_node g) st (hd_error (map n_id post)))
     = Abort AssertFailed).
Proof.
  intros W. induction post as [|x post IH]; intros pre fuel st En Hf Inv.
  - cbn [map hd_error]. rewrite for_loop_io_done. split.
    + intros _. destruct st as [h comps]. exists h, [].
      cbn [snd]. rewrite !app_nil_r. auto.
    + intros (x & [] & _).
  - destruct fuel as [|fuel]; [simpl in Hf; lia|].
    cbn [map hd_error for_loop_io].
    destruct (file_of x) as [f|] eqn:Ef.
    + destruct st as [h comps].
      destruct (merge_intra_node_Some g pre x post pre h comps f W En Ef Inv)
        as (h1 & added1 & E & Inv').
      rewrite E, io_bind_Ok. cbn iota beta. cbn [fst snd].
      destruct (IH (pre ++ [x]) fuel (h1, comps ++ added1)) as [IH1 IH2];
        [now rewrite <- app_assoc|simpl in Hf; lia|exact Inv'|].
      split.
      * intros Hall. inversion Hall as [|? ? _ Hall']; subst.
        destruct (IH1 Hall') as (h2 & added2 & E' & Inv'').
        cbn [snd] in E', Inv''.
        exists h2, (added1 ++ added2). rewrite E'. cbn [fst snd].
        rewrite <- !app_assoc in Inv''. rewrite map_app, <- !app_assoc.
        auto.
      * intros (y & [<-|Hy] & Ey); [congruence|]. apply IH2. eauto.
    + rewrite (merge_intra_node_None g pre x post st W En Ef). split.
      * intros Hall. inversion Hall as [|? ? Hx _]; subst. contradiction.
      * reflexivity.
Qed.

Lemma merge_inv_init : merge_inv [] (agopen, []).
Proof.
  split; [reflexivity|]. split; [reflexivity|]. split; [constructor|].
  split; [|constructor].
  intros f. simpl. split; [contradiction|].
  intros (_ & x & [] & _).
Qed.

Lemma nonempty_files_In g f :
  In f (nonempty_files g) <->
  f <> EmptyString /\ exists x, In x (g_nodes g) /\ file_of x = Some f.
Proof.
  unfold nonempty_files. rewrite in_flat_map. split.
  - intros (x & Hx & H). destruct (file_of x) as [f'|] eqn:Ef; [|contradiction].
    destruct (strlen f' =? 0) eqn:El; [contradiction|].
    destruct H as [<-|[]]. split; [|eauto].
    intros E. apply strlen_zero in E. congruence.
  - intros (Hne & x & Hx & Ef). exists x. split; auto. rewrite Ef.
    destruct (strlen f =? 0) eqn:El; [|now left].
    apply strlen_zero in El. contradiction.
Qed.

Lemma graph_merge_intra_nodes_Ok g :
  wf g -> all_have_file g ->
  exists h comps,
    graph_merge_intra_nodes g
    = (Ok h, map (fun c => debug_line (fst c)) comps) /\
    merge_inv (g_nodes g) (h, comps).
Proof.
  intros W Hf. unfold graph_merge_intra_nodes, agfstnode.
  destruct (merge_loop g W (g_nodes g) [] (length (g_nodes g)) (agopen, []))
    as [H _]; auto.
  { apply merge_inv_init. }
  destruct H as (h & comps & E & Inv).
  { apply Forall_forall. exact Hf. }
  cbn [snd app] in E, Inv.
  rewrite E, io_bind_Ok. cbn iota beta. exists h, comps.
  unfold io_ret. cbn [fst snd]. rewrite app_nil_r. auto.
Qed.

(** C4.  Of a graph whose nodes all carry a [file] the merger makes a
    graph in which every distinct non-empty [file] value has exactly one
    compartment node, named after it and with it as [label]; every node
    of the merged graph is such a compartment, so that a node with an
    empty [file] yields none; and the merged graph has at most as many
    nodes as there are distinct non-empty [file] values.  No compartment
    has a [file]: the [agset] of line 179 names an attribute that is not
    declared in the merged graph and stores nothing. *)
Theorem compartments_lack_file g :
  wf g -> all_have_file g ->
  exists h out,
    graph_merge_intra_nodes g = (Ok h, out) /\
    (forall f, f <> EmptyString ->
       (exists x, In x (g_nodes g) /\ file_of x = Some f) ->
       exists c, In c (g_nodes h) /\ n_name c = f /\
                 label_of c = Some f /\ file_of c = None /\
                 forall c', In c' (g_nodes h) -> label_of c' = Some f ->
                            c' = c) /\
    (forall c, In c (g_nodes h) ->
       exists f, f <> EmptyString /\
                 label_of c = Some f /\ file_of c = None /\
                 exists x, In x (g_nodes g) /\ file_of x = Some f) /\
    length (g_nodes h) <= length (distinct_files g).
Proof.
  intros W Hf.
  destruct (graph_merge_intra_nodes_Ok g W Hf)
    as (h & comps & E & In1 & In2 & In3 & In4 & In5).
  exists h, (map (fun c => debug_line (fst c)) comps).
  split; [exact E|]. split; [|split].
  - intros f Hne Hex.
    assert (Hin : In f (map fst comps)) by (apply In4; auto).
    apply in_map_iff in Hin. destruct Hin as ([f' id] & Ef & Hc).
    simpl in Ef. subst f'.
    exists (compartment_node (f, id)).
    split; [rewrite In1; now apply in_map|].
    split; [reflexivity|]. split; [reflexivity|]. split; [reflexivity|].
    intros c' Hc' Ec'. rewrite In1 in Hc'.
    apply in_map_iff in Hc'. destruct Hc' as ([f' id'] & <- & Hc').
    assert (f' = f) by (cbn in Ec'; congruence). subst f'.
    f_equal. apply (map_inj_NoDup fst comps); auto.
  - intros c Hc. rewrite In1 in Hc.
    apply in_map_iff in Hc. destruct Hc as ([f id] & <- & Hc).
    destruct (proj1 (In4 f)) as (Hne & x & Hx & Ex);
      [apply (in_map fst comps (f, id) Hc)|].
    exists f. split; [exact Hne|]. split; [reflexivity|].
    split; [reflexivity|]. eauto.
  - rewrite In1, length_map, <- (length_map fst).
    apply NoDup_incl_length; auto.
    intros f Hin. apply nodup_In, nonempty_files_In, In4, Hin.
Qed.

Lemma sample_reduced_wf : wf sample_reduced.
Proof.
  apply wfb_sound. reflexivity.
Qed.

Lemma sample_reduced_files : all_have_file sample_reduced.
Proof.
  intros x Hx. simpl in Hx.
  destruct Hx as [<-|[<-|[<-|[]]]]; discriminate.
Qed.

Lemma compartments_lack_file_witness :
  exists h out,
    graph_merge_intra_nodes sample_reduced = (Ok h, out) /\
    (forall f, f <> EmptyString ->
       (exists x, In x (g_nodes sample_reduced) /\ file_of x = Some f) ->
       exists c, In c (g_nodes h) /\ n_name c = f /\
                 label_of c = Some f /\ file_of c = None /\
                 forall c', In c' (g_nodes h) -> label_of c' = Some f ->
                            c' = c) /\
    (forall c, In c (g_nodes h) ->
       exists f, f <> EmptyString /\
                 label_of c = Some f /\ file_of c = None /\
                 exists x, In x (g_nodes sample_reduced) /\
                           file_of x = Some f) /\
    length (g_nodes h) <= 2.
Proof.
  exact (compartments_lack_file sample_reduced
           sample_reduced_wf sample_reduced_files).
Defined.

Lemma files_or_missing (l : list node) :
  Forall has_file l \/ exists x, In x l /\ file_of x = None.
Proof.
  induction l as [|y l [IH|(x & Hx & Ex)]].
  - left. constructor.
  - destruct (file_of y) eqn:Ey.
    + left. constructor; auto. unfold has_file. congruence.
    + right. exists y. simpl. auto.
  - right. exists x. simpl. auto.
Qed.

(** C1.  The merger creates no edge: whatever graph it is given, the
    graph it returns has none, so that an edge between two files of the
    reduced graph is not re-created between their compartments. *)
Theorem merged_graph_no_edges g h out :
  wf g -> graph_merge_intra_nodes g = (Ok h, out) -> g_edges h = [].
Proof.
  intros W E. destruct (files_or_missing (g_nodes g)) as [Hall|Hex].
  - rewrite Forall_forall in Hall.
    destruct (graph_merge_intra_nodes_Ok g W Hall)
      as (h' & comps & E' & _ & In2 & _).
    rewrite E in E'. inversion E'. subst. exact In2.
  - exfalso.
    destruct (merge_loop g W (g_nodes g) [] (length (g_nodes g)) (agopen, []))
      as [_ H]; auto.
    { apply merge_inv_init. }
    specialize (H Hex).
    unfold graph_merge_intra_nodes, agfstnode, io_bind in E.
    rewrite H in E. discriminate.
Qed.

Lemma pair_graph_wf : wf pair_graph.
Proof.
  apply wfb_sound. reflexivity.
Qed.

Lemma merged_graph_no_edges_witness :
  graph_remove_intra_edges pair_graph = Ok pair_graph /\
  g_edges pair_graph = [sample_edge 0 0 1] /\
  graph_merge_intra_nodes pair_graph
  = (Ok pair_merged,
     [debug_line (quoted "a.c"); debug_line (quoted "b.c")]) /\
  g_edges pair_merged = [].
Proof.
  split; [vm_compute; reflexivity|].
  split; [reflexivity|].
  split; [vm_compute; reflexivity|].
  apply (merged_graph_no_edges pair_graph pair_merged
           [debug_line (quoted "a.c"); debug_line (quoted "b.c")]
           pair_graph_wf).
  vm_compute. reflexivity.
Defined.

Lemma merged_graph_wf seen h comps :
  merge_inv seen (h, comps) ->
  wf h /\ forall c, In c (g_nodes h) -> file_of c = None.
Proof.
  intros (In1 & In2 & In3 & In4 & In5). split.
  - constructor.
    + unfold node_ids. rewrite In1, map_map. exact In5.
    + unfold edge_ids. rewrite In2. constructor.
    + rewrite In2. intros e [].
  - intros c Hc. rewrite In1 in Hc. apply in_map_iff in Hc.
    destruct Hc as ([f id] & <- & _). reflexivity.
Qed.

(** ** The pipeline *)

(** C2.  In compartment mode standard output does not hold the
    document alone: the merger prints one line for each compartment it
    creates, and there is a compartment for every non-empty [file] of
    the reduced graph.  The document that follows these lines is not
    completed either, unless the merged graph is empty: the emitter
    reads the [file] of the first compartment, which has none, and the
    run ends there with the two opening lines of the document written. *)
Theorem stdout_is_not_one_document g g1 :
  wf g -> graph_remove_intra_edges g = Ok g1 ->
  exists h lines,
    graph_merge_intra_nodes g1 = (Ok h, lines) /\
    lines = map (fun c => debug_line (n_name c)) (g_nodes h) /\
    (forall x f, In x (g_nodes g1) -> file_of x = Some f ->
                 f <> EmptyString ->
                 exists c, In c (g_nodes h) /\ n_name c = f) /\
    (g_nodes h = [] ->
     process_graph NODE_TYPE_COMPARTMENT FORMAT_TYPE_D3_ARC g
     = (Ok tt, d3_arc_document h)) /\
    (g_nodes h <> [] ->
     process_graph NODE_TYPE_COMPARTMENT FORMAT_TYPE_D3_ARC g
     = (Abort NullDeref, lines ++ d3_arc_opening)).
Proof.
  intros W E.
  destruct (graph_remove_intra_edges_Ok g g1 W E) as (W1 & _ & _).
  destruct (reduced_all_have_file g g1 W E) as [_ Hf1].
  destruct (graph_merge_intra_nodes_Ok g1 W1 Hf1) as (h & comps & Em & Inv).
  destruct (merged_graph_wf _ h comps Inv) as [Wh Nf].
  destruct Inv as (In1 & In2 & In3 & In4 & In5).
  assert (El : map (fun c => debug_line (fst c)) comps
               = map (fun c => debug_line (n_name c)) (g_nodes h))
    by (rewrite In1, map_map; reflexivity).
  rewrite El in Em.
  exists h, (map (fun c => debug_line (n_name c)) (g_nodes h)).
  split; [exact Em|]. split; [reflexivity|]. split; [|split].
  - intros x f Hx Ef Hne.
    assert (Hin : In f (map fst comps)) by (apply In4; eauto).
    apply in_map_iff in Hin. destruct Hin as ([f' id] & Ef' & Hc).
    simpl in Ef'. subst f'.
    exists (compartment_node (f, id)). split; [|reflexivity].
    rewrite In1. now apply in_map.
  - intros Hnil.
    assert (Ph : printable h) by (intros c Hc; rewrite Hnil in Hc; contradiction).
    unfold process_graph. rewrite E, io_bind_lift_Ok, Em, io_bind_Ok.
    rewrite (graph_print_d3_arc_document h Wh Ph), Hnil. reflexivity.
  - intros Hne. destruct (g_nodes h) as [|c r] eqn:En; [contradiction|].
    assert (Hc : file_of c = None) by (apply Nf; now left).
    unfold process_graph. rewrite E, io_bind_lift_Ok, Em, io_bind_Ok.
    rewrite (graph_print_d3_arc_first_null h c r Wh En (or_intror Hc)).
    reflexivity.
Qed.

Lemma single_graph_wf : wf single_graph.
Proof.
  apply wfb_sound. reflexivity.
Qed.

Lemma stdout_is_not_one_document_witness :
  exists h lines,
    graph_merge_intra_nodes single_graph = (Ok h, lines) /\
    lines = map (fun c => debug_line (n_name c)) (g_nodes h) /\
    (forall x f, In x (g_nodes single_graph) -> file_of x = Some f ->
                 f <> EmptyString ->
                 exists c, In c (g_nodes h) /\ n_name c = f) /\
    (g_nodes h = [] ->
     process_graph NODE_TYPE_COMPARTMENT FORMAT_TYPE_D3_ARC single_graph
     = (Ok tt, d3_arc_document h)) /\
    (g_nodes h <> [] ->
     process_graph NODE_TYPE_COMPARTMENT FORMAT_TYPE_D3_ARC single_graph
     = (Abort NullDeref, lines ++ d3_arc_opening)).
Proof.
  apply (stdout_is_not_one_document single_graph single_graph single_graph_wf).
  vm_compute. reflexivity.
Defined.

(** The output for the graph of one node, item by item: the line of the
    merger, the two opening lines of the document, and no more. *)
Lemma single_graph_stdout :
  graph_merge_intra_nodes single_graph
  = (Ok single_merged, [debug_line (quoted "a.c")]) /\
  process_graph NODE_TYPE_COMPARTMENT FORMAT_TYPE_D3_ARC single_graph
  = (Abort NullDeref,
     [debug_line (quoted "a.c");
      Text ("{" ++ nl)%string;
      Text ("  " ++ dq ++ "nodes" ++ dq ++ ": [" ++ nl)%string]).
Proof.
  split; vm_compute; reflexivity.
Qed.

(** In function mode the output is the document alone, but the entry
    of [links] for the last edge is followed by a comma when a node
    comes after the tail of that edge. *)
Lemma pair_graph_trailing_comma :
  process_graph NODE_TYPE_FUNCTION FORMAT_TYPE_D3_ARC pair_graph
  = (Ok tt, d3_arc_document pair_graph) /\
  links_lines pair_graph (g_nodes pair_graph)
  = [LinkObj "A" "C" "1"; Text ","; Text nl].
Proof.
  split; vm_compute; reflexivity.
Qed.

Lemma remove_intra_node_asserts g x :
  wf g -> In x (g_nodes g) -> file_of x = None ->
  remove_intra_node g (n_id x) = Abort AssertFailed.
Proof.
  intros W Hx Ef. destruct (in_split x (g_nodes g) Hx) as (pre & post & En).
  unfold remove_intra_node.
  rewrite (agnxtnode_split g pre x post W En). simpl bind.
  rewrite (agget_In g x _ W Hx). simpl bind.
  unfold file_of in Ef. now rewrite Ef.
Qed.

Lemma remove_intra_edge_asserts g x e n file_n nxtnode isreduced :
  wf g -> In x (g_nodes g) -> file_of x = None ->
  In e (g_edges g) -> e_head e = n_id x ->
  remove_intra_edge n file_n (g, nxtnode, isreduced) (e_id e)
  = Abort AssertFailed.
Proof.
  intros W Hx Ef He Eh.
  assert (Ho : In e (out_edges g (e_tail e))) by (apply out_edges_In; auto).
  destruct (in_split e _ Ho) as (kept & rest & Eo).
  unfold remove_intra_edge.
  rewrite (agnxtout_split g (e_tail e) kept e rest W Eo). simpl bind.
  rewrite (aghead_In g e W He). simpl bind.
  rewrite Eh, (agget_In g x _ W Hx). simpl bind.
  unfold file_of in Ef. now rewrite Ef.
Qed.

(** C10.  A node without [file] makes the reducer and the merger fail
    their assertion where they visit it, as the node of the turn or as
    the head of an edge.  A graph with such a node is never reduced, the
    merger aborts on it, and the pipeline ends for it in an abort with
    nothing written; the abort is the failed assertion when the graph
    has no loop edge inside a file. *)
Theorem missing_file_aborts g x :
  wf g -> In x (g_nodes g) -> file_of x = None ->
  remove_intra_node g (n_id x) = Abort AssertFailed /\
  (forall e n file_n nxtnode isreduced,
     In e (g_edges g) -> e_head e = n_id x ->
     remove_intra_edge n file_n (g, nxtnode, isreduced) (e_id e)
     = Abort AssertFailed) /\
  (forall st, merge_intra_node g st (n_id x) = (Abort AssertFailed, [])) /\
  (forall g', graph_remove_intra_edges g <> Ok g') /\
  fst (graph_merge_intra_nodes g) = Abort AssertFailed /\
  (forall nodetype formattype,
     exists e, process_graph nodetype formattype g = (Abort e, [])) /\
  (no_intra_loop g ->
   forall nodetype formattype,
     process_graph nodetype formattype g = (Abort AssertFailed, [])).
Proof.
  intros W Hx Ef.
  assert (Hnot : forall g', graph_remove_intra_edges g <> Ok g').
  { intros g' E. destruct (reduced_all_have_file g g' W E) as [Hall _].
    now apply (Hall x Hx). }
  split; [now apply remove_intra_node_asserts|].
  split; [intros; now apply (remove_intra_edge_asserts g x)|].
  split.
  { intros st. destruct (in_split x (g_nodes g) Hx) as (pre & post & En).
    now apply (merge_intra_node_None g pre x post). }
  split; [exact Hnot|].
  split.
  { destruct (merge_loop g W (g_nodes g) [] (length (g_nodes g)) (agopen, []))
      as [_ H]; auto.
    { apply merge_inv_init. }
    unfold graph_merge_intra_nodes, agfstnode, io_bind.
    rewrite H by eauto. reflexivity. }
  split.
  - intros nodetype formattype. unfold process_graph, lift, io_bind.
    cbn [fst snd].
    destruct (graph_remove_intra_edges g) as [g'|e] eqn:E; [|eauto].
    exfalso. now apply (Hnot g').
  - intros Hl nodetype formattype.
    pose proof (graph_remove_intra_edges_sat g W) as H.
    unfold process_graph, lift, io_bind. cbn [fst snd].
    destruct (graph_remove_intra_edges g) as [g'|[]] eqn:E; simpl in H.
    + exfalso. now apply (Hnot g').
    + reflexivity.
    + contradiction.
    + destruct H as (e & He & Et & Ei). rewrite (Hl e He Et) in Ei.
      discriminate.
    + contradiction.
Qed.

Lemma nofile_graph_wf : wf nofile_graph.
Proof.
  apply wfb_sound. reflexivity.
Qed.

Lemma missing_file_aborts_witness :
  remove_intra_node nofile_graph 1 = Abort AssertFailed /\
  remove_intra_edge 0 (quoted "a.c") (nofile_graph, Some 1, false) 0
  = Abort AssertFailed /\
  graph_remove_intra_edges nofile_graph = Abort AssertFailed /\
  fst (graph_merge_intra_nodes nofile_graph) = Abort AssertFailed /\
  process_graph NODE_TYPE_COMPARTMENT FORMAT_TYPE_D3_ARC nofile_graph
  = (Abort AssertFailed, []).
Proof.
  destruct (missing_file_aborts nofile_graph
              (mkNode 1 "B" [("label", quoted "B")]) nofile_graph_wf)
    as (H1 & H2 & _ & _ & H5 & _ & H7).
  - simpl. auto.
  - reflexivity.
  - split; [exact H1|].
    split; [apply (H2 (sample_edge 0 0 1)); simpl; auto|].
    split; [vm_compute; reflexivity|].
    split; [exact H5|].
    apply H7. intros e [<-|[]] Et. discriminate.
Defined.

(** ** What the reducer computes *)

(** The three ways a turn of the edge loop can end. *)
Lemma remove_intra_edge_inv n file_n g nxtnode isreduced e st' nxt :
  remove_intra_edge n file_n (g, nxtnode, isreduced) e = Ok (st', nxt) ->
  exists ed,
    find_edge g e = Some ed /\
    (st' = (g, nxtnode, isreduced) \/
     (st' = (del_edge g e, nxtnode, true) /\
      0 < degree (del_edge g e) (e_head ed)) \/
     (exists nxtnode',
        st' = (del_node (del_edge g e) (e_head ed), nxtnode', true) /\
        degree (del_edge g e) (e_head ed) = 0)).
Proof.
  unfold remove_intra_edge, agnxtout, aghead, agget, agdelete.
  destruct (find_edge g e) as [ed|] eqn:Ee; [|discriminate].
  destruct (succ_in _ e) as [nxtout|]; [|discriminate]. simpl bind.
  destruct (find_node g (e_head ed)) as [xm|] eqn:Em; [|discriminate].
  simpl bind.
  destruct (attr_get "file" (n_attrs xm)) as [file_m|]; [|discriminate].
  simpl bind. intros H. exists ed. split; auto.
  destruct ((strlen file_n =? 0) || (strlen file_m =? 0)
            || strcmp_ne file_n file_m).
  { inversion H. auto. }
  fold (del_edge g e) in H.
  unfold agdegree in H.
  assert (Em1 : find_node (del_edge g e) (e_head ed) = Some xm) by exact Em.
  rewrite Em1 in H. simpl bind in H. fold (degree (del_edge g e) (e_head ed)) in H.
  destruct (0 <? degree (del_edge g e) (e_head ed)) eqn:Ed.
  { inversion H. right. left. split; auto. now apply Nat.ltb_lt. }
  apply Nat.ltb_ge in Ed.
  destruct (match nxtnode with
            | Some x => if x =? e_head ed then agnxtnode (del_edge g e) x
                        else Ok nxtnode
            | None => Ok nxtnode
            end) as [nxtnode'|]; [|discriminate].
  simpl bind in H. unfold agdelnode in H. rewrite Em1 in H. simpl bind in H.
  inversion H. right. right. exists nxtnode'. split; auto. lia.
Qed.

Lemma edges_at_del_edge g ed y :
  wf g -> In ed (g_edges g) -> e_tail ed <> y -> e_head ed <> y ->
  in_edges (del_edge g (e_id ed)) y = in_edges g y /\
  out_edges (del_edge g (e_id ed)) y = out_edges g y.
Proof.
  intros W He Ht Hh. unfold in_edges, out_edges, del_edge. cbn [g_edges].
  rewrite !filter_filter. split; apply filter_ext_in; intros a Ha.
  - destruct (Nat.eqb_spec (e_head a) y) as [E|_]; [|apply andb_false_r].
    rewrite andb_true_r. apply negb_true_iff, Nat.eqb_neq. intros Ei.
    assert (a = ed) by (apply (key_inj e_id (g_edges g)); auto; apply W).
    congruence.
  - destruct (Nat.eqb_spec (e_tail a) y) as [E|_]; [|apply andb_false_r].
    rewrite andb_true_r. apply negb_true_iff, Nat.eqb_neq. intros Ei.
    assert (a = ed) by (apply (key_inj e_id (g_edges g)); auto; apply W).
    congruence.
Qed.

Lemma isolated_del_edge g ed y :
  wf g -> In ed (g_edges g) -> e_tail ed <> y -> e_head ed <> y ->
  isolated (del_edge g (e_id ed)) y -> isolated g y.
Proof.
  intros W He Ht Hh. unfold isolated.
  destruct (edges_at_del_edge g ed y W He Ht Hh) as [-> ->]. auto.
Qed.

Lemma isolated_del_node g m y :
  isolated g m -> isolated (del_node g m) y -> isolated g y.
Proof.
  intros Iso. unfold isolated, in_edges, out_edges, del_node. cbn [g_edges].
  now rewrite (isolated_edges g m Iso).
Qed.

Lemma remove_intra_edge_tidy g0 gs xn file_n bound st ed rest st' nxt :
  edge_inv g0 xn bound st (ed :: rest) ->
  tidy_but g0 gs (n_id xn) st ->
  remove_intra_edge (n_id xn) file_n st (e_id ed) = Ok (st', nxt) ->
  tidy_but g0 gs (n_id xn) st'.
Proof.
  destruct st as [[g nxtnode] isred].
  intros (W & _ & pre & post & kept & _ & _ & _ & Eo & _) [T1 T2] E.
  assert (Hed : In ed (out_edges g (n_id xn))) by (rewrite Eo; apply in_elt).
  apply out_edges_In in Hed. destruct Hed as [Hed Ht].
  destruct (remove_intra_edge_inv _ _ _ _ _ _ _ _ E) as (ed' & Ef & Shape).
  rewrite (find_edge_In g ed W Hed) in Ef. inversion Ef. subst ed'.
  assert (W1 : wf (del_edge g (e_id ed))) by (apply delete_edges_wf; auto).
  destruct Shape as [->|[[-> Hd]|(nxtnode' & -> & Hd)]].
  - split; auto.
  - split; [|discriminate]. intros y Hy Hn Iso.
    apply (T1 y Hy Hn).
    apply (isolated_del_edge g ed (n_id y) W Hed); auto; [congruence|].
    intros Eh. unfold isolated in Iso. unfold degree in Hd.
    rewrite <- Eh in Iso. lia.
  - split; [|discriminate]. intros y Hy Hn Iso.
    cbn [del_node g_nodes] in Hy. apply filter_In in Hy.
    destruct Hy as [Hy Hm]. apply negb_true_iff, Nat.eqb_neq in Hm.
    apply (T1 y Hy Hn).
    apply (isolated_del_edge g ed (n_id y) W Hed); auto; [congruence|].
    apply (isolated_del_node _ (e_head ed)); auto.
Qed.

Lemma remove_intra_edge_loop_tidy g0 gs xn file_n bound rest :
  wf g0 -> In xn (g_nodes g0) -> file_of xn = Some file_n ->
  forall fuel st st',
    edge_inv g0 xn bound st rest ->
    tidy_but g0 gs (n_id xn) st ->
    for_loop fuel (remove_intra_edge (n_id xn) file_n) st
             (hd_error (map e_id rest)) = Ok st' ->
    tidy_but g0 gs (n_id xn) st'.
Proof.
  intros W0 Hxn Hfn.
  induction rest as [|ed rest IH]; intros fuel st st' Inv T E.
  - cbn [map hd_error] in E. rewrite for_loop_done in E.
    injection E as <-. exact T.
  - destruct fuel as [|fuel]; [discriminate|].
    cbn [for_loop map hd_error] in E.
    pose proof (remove_intra_edge_step g0 xn file_n bound st ed rest
                  W0 Hxn Hfn Inv) as Hs.
    destruct (remove_intra_edge (n_id xn) file_n st (e_id ed))
      as [[st1 nxt]|] eqn:Eb; [|discriminate].
    simpl bind in E. cbn [sat fst snd] in Hs. destruct Hs as [-> Hs].
    pose proof (remove_intra_edge_tidy g0 gs xn file_n bound st ed rest
                  st1 _ Inv T Eb) as T1.
    destruct Hs as [Inv1|[-> _]].
    + apply (IH fuel st1 st' Inv1 T1 E).
    + cbn [map hd_error] in E. rewrite for_loop_done in E.
      injection E as <-. exact T1.
Qed.

(** The ways a turn of the node loop can end. *)
Lemma remove_intra_node_inv g n g'' nxt :
  remove_intra_node g n = Ok (g'', nxt) ->
  exists file_n nxtnode e0 g' isreduced,
    agnxtnode g n = Ok nxtnode /\
    agget g n "file" = Ok (Some file_n) /\
    agfstout g n = Ok e0 /\
    for_loop (length (g_edges g)) (remove_intra_edge n file_n)
             (g, nxtnode, false) e0 = Ok (g', nxt, isreduced) /\
    ((isreduced = false /\ g'' = g') \/
     (isreduced = true /\ degree g' n <> 0 /\ g'' = g') \/
     (isreduced = true /\ degree g' n = 0 /\ g'' = del_node g' n)).
Proof.
  unfold remove_intra_node.
  destruct (agnxtnode g n) as [nxtnode|]; [|discriminate]. simpl bind.
  destruct (agget g n "file") as [[file_n|]|]; try discriminate. simpl bind.
  destruct (agfstout g n) as [e0|]; [|discriminate]. simpl bind.
  destruct (for_loop _ _ _ e0) as [[[g' nxtnode'] isred]|] eqn:El;
    [|discriminate].
  simpl bind. intros H.
  exists file_n, nxtnode, e0, g', isred.
  destruct isred.
  - unfold agdegree, agdelnode in H.
    destruct (find_node g' n) as [x|]; [|discriminate]. simpl bind in H.
    fold (degree g' n) in H.
    destruct (Nat.eqb_spec (degree g' n) 0) as [Ed|Ed].
    + simpl bind in H. inversion H. subst. repeat split; auto.
    + inversion H. subst. repeat split; auto.
  - inversion H. subst. repeat split; auto.
Qed.

Lemma remove_intra_node_tidy g0 g pre xn post g'' nxt :
  wf g0 -> node_inv g0 g pre (xn :: post) -> tidy g0 g ->
  remove_intra_node g (n_id xn) = Ok (g'', nxt) ->
  tidy g0 g''.
Proof.
  intros W0 (W & R & En & V) T E.
  assert (Hxn : In xn (g_nodes g)) by (rewrite En; apply in_elt).
  assert (Hxn0 : In xn (g_nodes g0)) by (apply (reduct_node_In g0 g xn R Hxn)).
  destruct (remove_intra_node_inv g (n_id xn) g'' nxt E)
    as (file_n & nxtnode & e0 & g' & isred & Enx & Ef & Ee & El & Shape).
  rewrite (agnxtnode_split g pre xn post W En) in Enx. inversion Enx.
  rewrite (agget_In g xn "file" W Hxn) in Ef. inversion Ef as [Efn].
  fold (file_of xn) in Efn.
  rewrite (agfstout_In g xn W Hxn) in Ee. inversion Ee. subst nxtnode e0.
  assert (Tb : tidy_but g0 g (n_id xn) (g', nxt, isred)).
  { apply (remove_intra_edge_loop_tidy g0 g xn file_n (length post)
             (out_edges g (n_id xn)) W0 Hxn0 Efn _ _ _) with (3 := El).
    - split; auto. split; auto. exists pre, post, [].
      repeat split; auto; try apply V; try discriminate;
        try (intros e []).
    - split; auto; intros y Hy _; now apply T. }
  destruct Tb as [T1 T2].
  destruct Shape as [[-> ->]|[(-> & Hd & ->)|(-> & Hd & ->)]].
  - now rewrite T2.
  - intros y Hy Iso.
    destruct (Nat.eq_dec (n_id y) (n_id xn)) as [Ey|Ny]; [|now apply T1].
    rewrite Ey in Iso. contradiction.
  - intros y Hy Iso. cbn [del_node g_nodes] in Hy. apply filter_In in Hy.
    destruct Hy as [Hy Hm]. apply negb_true_iff, Nat.eqb_neq in Hm.
    apply (T1 y Hy Hm). now apply (isolated_del_node g' (n_id xn)).
Qed.

Lemma remove_intra_node_loop_tidy g0 :
  wf g0 ->
  forall fuel g pre post g',
    node_inv g0 g pre post -> tidy g0 g ->
    for_loop fuel remove_intra_node g (hd_error (map n_id post)) = Ok g' ->
    tidy g0 g'.
Proof.
  intros W0. induction fuel as [|fuel IH]; intros g pre post g' Inv T E.
  - destruct post; [|discriminate]. simpl in E. injection E as <-. exact T.
  - destruct post as [|xn post].
    + simpl in E. injection E as <-. exact T.
    + cbn [for_loop map hd_error] in E.
      pose proof (remove_intra_node_step g0 g pre xn post W0 Inv) as Hs.
      destruct (remove_intra_node g (n_id xn)) as [[g1 nxt]|] eqn:Eb;
        [|discriminate].
      simpl bind in E. cbn [sat fst snd] in Hs.
      destruct Hs as (pre' & post' & Inv' & -> & _).
      apply (IH g1 pre' post' g' Inv'); auto.
      apply (remove_intra_node_tidy g0 g pre xn post g1 _ W0 Inv T Eb).
Qed.

Lemma graph_remove_intra_edges_tidy g g' :
  wf g -> graph_remove_intra_edges g = Ok g' -> tidy g g'.
Proof.
  intros W E. unfold graph_remove_intra_edges, agfstnode in E.
  apply (remove_intra_node_loop_tidy g W (length (g_nodes g)) g []
           (g_nodes g) g'); auto.
  - split; auto. split; [apply reduct_refl|]. split; auto.
    split; intros; contradiction.
  - intros x _ H. exact H.
Qed.

Lemma existsb_false {A} (f : A -> bool) (l : list A) :
  (forall a, In a l -> f a = false) -> existsb f l = false.
Proof.
  intros H. destruct (existsb f l) eqn:E; auto.
  apply existsb_exists in E. destruct E as (a & Ha & Ea).
  rewrite (H a Ha) in Ea. discriminate.
Qed.

Lemma incident_degree g n e :
  In e (g_edges g) -> incident n e -> degree g n <> 0.
Proof.
  intros He [Ht|Hh]; unfold degree.
  - assert (H : In e (out_edges g n)) by (apply out_edges_In; auto).
    destruct (out_edges g n); [contradiction|simpl; lia].
  - assert (H : In e (in_edges g n)) by (apply in_edges_In; auto).
    destruct (in_edges g n); [contradiction|simpl; lia].
Qed.

Lemma degree_incident g n :
  degree g n <> 0 -> exists e, In e (g_edges g) /\ incident n e.
Proof.
  unfold degree. intros H.
  destruct (in_edges g n) as [|e l] eqn:Ei.
  - destruct (out_edges g n) as [|e l] eqn:Eo; [simpl in H; lia|].
    exists e. assert (He : In e (out_edges g n)) by (rewrite Eo; now left).
    apply out_edges_In in He. destruct He. split; auto. now left.
  - exists e. assert (He : In e (in_edges g n)) by (rewrite Ei; now left).
    apply in_edges_In in He. destruct He. split; auto. now right.
Qed.

Lemma graph_remove_intra_edges_reduced g g' :
  wf g -> graph_remove_intra_edges g = Ok g' -> g' = reduced_graph g.
Proof.
  intros W E.
  destruct (graph_remove_intra_edges_Ok g g' W E) as (W' & R & V).
  pose proof (graph_remove_intra_edges_tidy g g' W E) as T.
  assert (Kept : forall e, In e (g_edges g') -> intra_edge g e = false).
  { intros e He. rewrite <- (reduct_intra_edge g g' e W R W' He).
    apply (reduced_no_intra_edge g g' e W E He). }
  assert (Live : forall x e, In x (g_nodes g) -> In e (g_edges g') ->
                             incident (n_id x) e -> In x (g_nodes g')).
  { intros x e Hx He Hinc.
    assert (Hid : In (n_id x) (node_ids g')).
    { destruct (wf_ends g' W' e He) as [Ht Hh].
      destruct Hinc as [<-|<-]; auto. }
    apply in_map_iff in Hid. destruct Hid as (y & Ey & Hy).
    assert (y = x); [|now subst].
    apply (key_inj n_id (g_nodes g) y x); auto; [apply W|].
    apply (reduct_node_In g g' y R Hy). }
  destruct R as [[p Rn] [q Re] Rg Rd].
  destruct g' as [ns es]. unfold reduced_graph. cbn [g_nodes g_edges] in *.
  f_equal.
  - rewrite Rn. apply filter_ext_in. intros x Hx.
    destruct (p x) eqn:Ep; symmetry.
    + assert (Hx' : In x ns) by (rewrite Rn; apply filter_In; auto).
      unfold keeps_node.
      destruct (Nat.eqb_spec (degree g (n_id x)) 0) as [Ed|Ed]; auto.
      simpl. apply existsb_exists.
      assert (Ed' : degree (mkGraph ns es) (n_id x) <> 0).
      { intros Ed'. apply Ed. now apply (T x Hx'). }
      destruct (degree_incident _ _ Ed') as (e & He & Hinc).
      cbn [g_edges] in He. exists e. split.
      * rewrite Re in He. apply filter_In in He. tauto.
      * unfold inter_edge_at. rewrite (Kept e He). simpl.
        rewrite andb_true_r. apply orb_true_iff.
        destruct Hinc as [<-|<-]; rewrite Nat.eqb_refl; auto.
    + assert (Hn : ~ In x ns).
      { rewrite Rn. intros Hi. apply filter_In in Hi.
        destruct Hi. congruence. }
      destruct (Rd x Hx Hn) as (_ & e & He & Hinc).
      unfold keeps_node. apply orb_false_iff. split.
      * apply Nat.eqb_neq. now apply (incident_degree g (n_id x) e).
      * apply existsb_false. intros a Ha. unfold inter_edge_at.
        destruct ((e_tail a =? n_id x) || (e_head a =? n_id x)) eqn:Ei;
          auto.
        simpl. apply negb_false_iff. apply Rg; auto. intros Hi.
        apply Hn. apply (Live x a Hx Hi).
        apply orb_true_iff in Ei.
        destruct Ei as [Ei|Ei]; apply Nat.eqb_eq in Ei; [now left|now right].
  - rewrite Re. apply filter_ext_in. intros e He.
    destruct (q e) eqn:Eq; symmetry.
    + apply negb_true_iff, Kept. rewrite Re. apply filter_In. auto.
    + apply negb_false_iff, Rg; auto. rewrite Re. intros Hi.
      apply filter_In in Hi. destruct Hi. congruence.
Qed.

(** X1.  A completed pass of the reducer returns the graph made of the
    edges of the input that are not inside a file and of the nodes that
    have no edge at all or have an edge that is not inside a file, both
    in their order in the input and with their attributes; and on a
    graph whose nodes all carry a [file] and that has no loop edge
    inside a file the pass does complete. *)
Theorem reducer_computes g :
  wf g ->
  (forall g', graph_remove_intra_edges g = Ok g' -> g' = reduced_graph g) /\
  (all_have_file g -> no_intra_loop g ->
   graph_remove_intra_edges g = Ok (reduced_graph g)).
Proof.
  intros W. split.
  - intros g' E. now apply graph_remove_intra_edges_reduced.
  - intros Hf Hl.
    destruct (graph_remove_intra_edges_total g W Hf Hl) as [g' E].
    rewrite E. f_equal. now apply graph_remove_intra_edges_reduced.
Qed.

Lemma reducer_computes_witness :
  sample_reduced = reduced_graph sample_graph /\
  graph_remove_intra_edges sample_graph = Ok (reduced_graph sample_graph).
Proof.
  destruct (reducer_computes sample_graph sample_graph_wf) as [H1 H2].
  split.
  - apply H1. reflexivity.
  - apply H2; [exact sample_graph_files|exact sample_graph_no_loop].
Defined.

(** X2.  On a graph whose nodes all carry a [file] and in which no edge
    lies inside a file, the reducer completes and returns the graph
    unchanged. *)
Theorem reducer_keeps_inter_file_graph g :
  wf g -> all_have_file g ->
  (forall e, In e (g_edges g) -> intra_edge g e = false) ->
  graph_remove_intra_edges g = Ok g.
Proof.
  intros W Hf Hn.
  destruct (graph_remove_intra_edges_total g W Hf) as [g' E].
  { intros e He _. auto. }
  rewrite E. f_equal.
  destruct (graph_remove_intra_edges_Ok g g' W E) as (W' & R & _).
  now apply reduct_fixed.
Qed.

Lemma pair_graph_files : all_have_file pair_graph.
Proof.
  intros x Hx. simpl in Hx. destruct Hx as [<-|[<-|[]]]; discriminate.
Qed.

Lemma reducer_keeps_inter_file_graph_witness :
  graph_remove_intra_edges pair_graph = Ok pair_graph.
Proof.
  apply (reducer_keeps_inter_file_graph pair_graph
           pair_graph_wf pair_graph_files).
  intros e [<-|[]]. reflexivity.
Defined.

(** X3.  On a well-formed graph the reducer ends in one of three ways:
    it completes, it fails an assertion and then some node has no
    [file], or it uses a deleted handle and then some loop edge lies
    inside a file.  It never exhausts its loop bounds. *)
Theorem reducer_outcomes g :
  wf g ->
  (exists g', graph_remove_intra_edges g = Ok g') \/
  (graph_remove_intra_edges g = Abort AssertFailed /\
   exists x, In x (g_nodes g) /\ file_of x = None) \/
  (graph_remove_intra_edges g = Abort UseAfterFree /\
   exists e, In e (g_edges g) /\ e_tail e = e_head e /\
             intra_edge g e = true).
Proof.
  intros W. pose proof (graph_remove_intra_edges_sat g W) as H.
  destruct (graph_remove_intra_edges g) as [g'|[]]; simpl in H;
    eauto; contradiction.
Qed.

Lemma reducer_outcomes_witness :
  (exists g', graph_remove_intra_edges nofile_graph = Ok g') \/
  (graph_remove_intra_edges nofile_graph = Abort AssertFailed /\
   exists x, In x (g_nodes nofile_graph) /\ file_of x = None) \/
  (graph_remove_intra_edges nofile_graph = Abort UseAfterFree /\
   exists e, In e (g_edges nofile_graph) /\ e_tail e = e_head e /\
             intra_edge nofile_graph e = true).
Proof.
  exact (reducer_outcomes nofile_graph nofile_graph_wf).
Defined.

(** ** The entries of the document and their layout *)

Lemma nodes_array_node_entries l :
  nodes_array (node_lines l) = map node_entry l.
Proof.
  induction l as [|x l IH]; simpl; auto.
  unfold nodes_array in *. rewrite filter_app. simpl.
  destruct (is_nil l); simpl; now rewrite IH.
Qed.

Lemma links_array_link_entries g x more l :
  links_array (link_lines g (label_text x) more l) = map (link_entry g x) l.
Proof.
  induction l as [|e l IH]; simpl; auto.
  unfold links_array in *. rewrite filter_app. simpl.
  destruct (negb (is_nil l) || more); simpl; now rewrite IH.
Qed.

Lemma links_array_links_entries g l :
  links_array (links_lines g l)
  = flat_map (fun x => map (link_entry g x) (out_edges g (n_id x))) l.
Proof.
  induction l as [|x l IH]; simpl; auto.
  now rewrite links_array_app, links_array_link_entries, IH.
Qed.

(** X4.  For a graph whose nodes carry [label] and [file] the emitter
    completes, the entries of [nodes] are the entries of the nodes in
    the order of the graph, and the entries of [links] are those of the
    edges taken node by node in that order and, for a node, in the order
    of its outgoing edges; an edge without [value] has the empty string
    as its value. *)
Theorem emitted_entries_in_order g :
  wf g -> printable g ->
  exists out,
    graph_print_d3_arc g = (Ok tt, out) /\
    nodes_array out = map node_entry (g_nodes g) /\
    links_array out = link_entries g /\
    (forall x e, attr_get "value" (e_attrs e) = None ->
                 link_entry g x e
                 = LinkObj (label_field (label_text x))
                           (label_field (head_label g e)) EmptyString).
Proof.
  intros W P. exists (d3_arc_document g).
  split; [now apply graph_print_d3_arc_document|].
  unfold d3_arc_document. split; [|split].
  - rewrite !nodes_array_app, nodes_array_links_lines.
    rewrite nodes_array_node_entries. simpl. now rewrite app_nil_r.
  - rewrite !links_array_app, links_array_node_lines.
    rewrite links_array_links_entries. simpl. now rewrite app_nil_r.
  - intros x e Hv. unfold link_entry, value_text. now rewrite Hv.
Qed.

Lemma emitted_entries_in_order_witness :
  exists out,
    graph_print_d3_arc sample_graph = (Ok tt, out) /\
    nodes_array out = map node_entry (g_nodes sample_graph) /\
    links_array out = link_entries sample_graph /\
    (forall x e, attr_get "value" (e_attrs e) = None ->
                 link_entry sample_graph x e
                 = LinkObj (label_field (label_text x))
                           (label_field (head_label sample_graph e))
                           EmptyString).
Proof.
  exact (emitted_entries_in_order sample_graph
           sample_graph_wf sample_graph_printable).
Defined.

Lemma node_lines_separated l :
  node_lines l = separated false (map node_entry l).
Proof.
  induction l as [|x l IH]; simpl; auto.
  rewrite IH, orb_false_r. now destruct l.
Qed.

Lemma link_lines_separated g x more l :
  link_lines g (label_text x) more l = separated more (map (link_entry g x) l).
Proof.
  induction l as [|e l IH]; simpl; auto.
  rewrite IH. now destruct l.
Qed.

Lemma separated_app t a b :
  b <> [] \/ t = true ->
  separated t (a ++ b) = separated true a ++ separated t b.
Proof.
  intros H. induction a as [|o a IH]; simpl; auto.
  rewrite IH, orb_true_r. f_equal.
  destruct (a ++ b) eqn:E; simpl; auto.
  apply app_eq_nil in E. destruct E as [-> ->].
  destruct H as [H| ->]; [contradiction|reflexivity].
Qed.

Lemma no_later_edges g l :
  l <> [] ->
  flat_map (fun x => map (link_entry g x) (out_edges g (n_id x))) l = [] ->
  last_has_no_edge g l = true.
Proof.
  induction l as [|x l IH]; intros Hn E; [contradiction|].
  simpl in E. apply app_eq_nil in E. destruct E as [Ex El].
  destruct l as [|y l].
  - simpl. destruct (out_edges g (n_id x)); [reflexivity|discriminate].
  - cbn [last_has_no_edge]. apply IH; [discriminate|exact El].
Qed.

Lemma links_lines_separated g l :
  links_lines g l
  = separated (last_has_no_edge g l)
      (flat_map (fun x => map (link_entry g x) (out_edges g (n_id x))) l).
Proof.
  induction l as [|x l IH]; auto.
  cbn [links_lines flat_map]. rewrite link_lines_separated, IH.
  destruct l as [|y l].
  - simpl. rewrite !app_nil_r.
    destruct (out_edges g (n_id x)); reflexivity.
  - cbn [is_nil negb]. symmetry. apply separated_app.
    destruct (flat_map _ (y :: l)) eqn:E; [right|left; discriminate].
    apply no_later_edges; [discriminate|exact E].
Qed.

(** X5.  The layout of the document.  Between the fixed lines the
    entries of [nodes] come one to a line, with a comma after each one
    but the last.  The entries of [links] come one to a line with a
    comma after each one but the last when the last node of the graph
    has an outgoing edge; when it has none, every entry of [links], the
    last one too, is followed by a comma. *)
Theorem emitted_layout g :
  wf g -> printable g ->
  graph_print_d3_arc g
  = (Ok tt,
     d3_arc_frame
       (separated false (map node_entry (g_nodes g)))
       (separated (last_has_no_edge g (g_nodes g)) (link_entries g))).
Proof.
  intros W P. rewrite (graph_print_d3_arc_document g W P).
  unfold d3_arc_document, d3_arc_frame, link_entries.
  now rewrite node_lines_separated, links_lines_separated.
Qed.

Lemma pair_graph_printable : printable pair_graph.
Proof.
  intros x Hx. simpl in Hx.
  destruct Hx as [<-|[<-|[]]]; split; discriminate.
Qed.

Lemma emitted_layout_witness :
  graph_print_d3_arc pair_graph
  = (Ok tt,
     d3_arc_frame
       [NodeObj "A" "a"; Text ","; Text nl; NodeObj "C" "b"; Text nl]
       [LinkObj "A" "C" "1"; Text ","; Text nl]).
Proof.
  exact (emitted_layout pair_graph pair_graph_wf pair_graph_printable).
Defined.

Lemma print_nodes_loop_null g :
  wf g ->
  forall post pre fuel,
    g_nodes g = pre ++ post -> length post <= fuel ->
    (exists x, In x post /\ (label_of x = None \/ file_of x = None)) ->
    fst (for_loop_io fuel (print_node g) tt (hd_error (map n_id post)))
    = Abort NullDeref.
Proof.
  intros W. induction post as [|x post IH]; intros pre fuel En Hf Hbad.
  - destruct Hbad as (x & [] & _).
  - destruct fuel as [|fuel]; [simpl in Hf; lia|].
    cbn [map hd_error for_loop_io].
    destruct (label_of x) as [l|] eqn:El.
    + destruct (file_of x) as [f|] eqn:Efi.
      * rewrite (print_node_In g pre x post W En)
          by (unfold has_label, has_file; congruence).
        rewrite io_bind_Ok. cbn iota beta. cbn [fst].
        apply (IH (pre ++ [x]) fuel);
          [now rewrite <- app_assoc|simpl in Hf; lia|].
        destruct Hbad as (y & [<-|Hy] & Hb); [|eauto].
        destruct Hb; congruence.
      * rewrite (print_node_null g pre x post W En) by auto. reflexivity.
    + rewrite (print_node_null g pre x post W En) by auto. reflexivity.
Qed.

(** X6.  The emitter reads [label] and [file] of every node without a
    check: on a graph with a node that lacks one of them it ends in a
    null dereference, in its first loop. *)
Theorem emitter_null_dereference g x :
  wf g -> In x (g_nodes g) -> label_of x = None \/ file_of x = None ->
  fst (graph_print_d3_arc g) = Abort NullDeref.
Proof.
  intros W Hx Hbad.
  pose proof (print_nodes_loop_null g W (g_nodes g) [] (length (g_nodes g))
                eq_refl (le_n _)
                (ex_intro _ x (conj Hx Hbad))) as H.
  unfold graph_print_d3_arc, agfstnode, printf, io_bind. cbn [fst snd].
  now rewrite H.
Qed.

Lemma emitter_null_dereference_witness :
  fst (graph_print_d3_arc nofile_graph) = Abort NullDeref.
Proof.
  apply (emitter_null_dereference nofile_graph
           (mkNode 1 "B" [("label", quoted "B")]) nofile_graph_wf).
  - simpl. auto.
  - right. reflexivity.
Defined.

(** ** The order of the compartments *)

Lemma first_occurrences_In l a : In a (first_occurrences l) <-> In a l.
Proof.
  induction l as [|b l IH]; simpl; [tauto|].
  destruct (string_dec b a) as [E|NE]; [tauto|].
  split.
  - intros [H|H]; auto. apply in_remove in H. right. apply IH, H.
  - intros [H|H]; [contradiction|]. right.
    apply in_in_remove; [congruence|]. now apply IH.
Qed.

Lemma first_occurrences_snoc l b :
  first_occurrences (l ++ [b])
  = if in_dec string_dec b l then first_occurrences l
    else first_occurrences l ++ [b].
Proof.
  induction l as [|a l IH].
  - simpl. reflexivity.
  - cbn [app first_occurrences]. rewrite IH.
    destruct (in_dec string_dec b l) as [Hi|Hi].
    + destruct (in_dec string_dec b (a :: l)) as [_|Hn]; auto.
      exfalso. apply Hn. now right.
    + rewrite remove_app. cbn [remove].
      destruct (string_dec a b) as [E|NE].
      * subst. rewrite app_nil_r.
        destruct (in_dec string_dec b (b :: l)) as [_|Hn]; auto.
        exfalso. apply Hn. now left.
      * destruct (in_dec string_dec b (a :: l)) as [[E|H]|_]; auto;
          contradiction.
Qed.

Lemma files_of_In l f :
  In f (files_of l) <->
  f <> EmptyString /\ exists x, In x l /\ file_of x = Some f.
Proof.
  apply (nonempty_files_In (mkGraph l [])).
Qed.

Lemma NoDup_app_disjoint {A} (a b : list A) (k : A) :
  NoDup (a ++ b) -> In k a -> In k b -> False.
Proof.
  induction a as [|x a IH]; simpl; intros ND Ha Hb; [contradiction|].
  inversion ND as [|? ? Hx ND']; subst.
  destruct Ha as [->|Ha]; [|eauto].
  apply Hx, in_or_app. auto.
Qed.

Lemma NoDup_all_equal {A} (l : list A) (f : A) :
  NoDup l -> (forall k, In k l -> k = f) -> l = [] \/ l = [f].
Proof.
  intros ND H. destruct l as [|a l]; auto. right.
  assert (a = f) by (apply H; now left). subst a.
  destruct l as [|b l]; auto.
  assert (b = f) by (apply H; right; now left). subst b.
  inversion ND as [|? ? Hn _]. exfalso. apply Hn. now left.
Qed.

(** The keys a turn of the merger adds keep the compartments in the
    order in which their files first occur. *)
Lemma merge_step_order seen x f h comps h' added :
  file_of x = Some f ->
  merge_inv seen (h, comps) ->
  merge_inv (seen ++ [x]) (h', comps ++ added) ->
  map fst comps = first_occurrences (files_of seen) ->
  map fst (comps ++ added) = first_occurrences (files_of (seen ++ [x])).
Proof.
  intros Ef (_ & _ & _ & In4 & _) (_ & _ & ND & In4' & _) Eo.
  rewrite map_app in ND.
  assert (Hadd : forall k, In k (map fst added) -> k = f /\ k <> EmptyString
                                                   /\ ~ In k (map fst comps)).
  { intros k Hk.
    assert (Hn : ~ In k (map fst comps))
      by (intros Hc; apply (NoDup_app_disjoint _ _ k ND Hc Hk)).
    destruct (proj1 (In4' k)) as (Hne & y & Hy & Ey).
    { rewrite map_app. apply in_or_app. auto. }
    apply in_app_or in Hy. destruct Hy as [Hy|[<-|[]]].
    - exfalso. apply Hn, In4. eauto.
    - split; [congruence|auto]. }
  assert (Hshape : map fst added = [] \/ map fst added = [f]).
  { apply NoDup_all_equal.
    - now apply NoDup_app_remove_l in ND.
    - intros k Hk. now apply Hadd. }
  unfold files_of. rewrite flat_map_app. fold (files_of seen).
  cbn [flat_map]. rewrite Ef, app_nil_r, map_app, Eo.
  destruct (strlen f =? 0) eqn:El.
  - rewrite app_nil_r. destruct Hshape as [->| Es]; [now rewrite app_nil_r|].
    exfalso. apply strlen_zero in El.
    destruct (Hadd f) as (_ & Hne & _); [rewrite Es; now left|contradiction].
  - assert (Hne : f <> EmptyString).
    { intros E. apply strlen_zero in E. congruence. }
    rewrite first_occurrences_snoc.
    destruct (in_dec string_dec f (files_of seen)) as [Hi|Hi].
    + destruct Hshape as [->| Es]; [now rewrite app_nil_r|].
      exfalso. destruct (Hadd f) as (_ & _ & Hn); [rewrite Es; now left|].
      apply Hn. rewrite Eo. now apply first_occurrences_In.
    + destruct Hshape as [Es| ->]; [|reflexivity].
      exfalso. apply Hi. apply files_of_In. split; auto.
      assert (Hin : In f (map fst (comps ++ added))).
      { apply In4'. split; auto. exists x. split; auto.
        apply in_or_app. right. now left. }
      rewrite map_app, Es, app_nil_r in Hin.
      apply In4 in Hin. tauto.
Qed.

Lemma merge_loop_order g :
  wf g ->
  forall post pre fuel (st : Agraph_t * compartments_t),
    g_nodes g = pre ++ post -> length post <= fuel -> merge_inv pre st ->
    map fst (snd st) = first_occurrences (files_of pre) ->
    Forall has_file post ->
    exists h' added,
      for_loop_io fuel (merge_intra_node g) st (hd_error (map n_id post))
      = (Ok (h', snd st ++ added), map (fun c => debug_line (fst c)) added) /\
      merge_inv (pre ++ post) (h', snd st ++ added) /\
      map fst (snd st ++ added) = first_occurrences (files_of (pre ++ post)).
Proof.
  intros W. induction post as [|x post IH];
    intros pre fuel st En Hf Inv Eo Hall.
  - cbn [map hd_error]. rewrite for_loop_io_done.
    destruct st as [h comps]. exists h, [].
    cbn [snd] in *. rewrite !app_nil_r. auto.
  - destruct fuel as [|fuel]; [simpl in Hf; lia|].
    cbn [map hd_error for_loop_io].
    inversion Hall as [|? ? Hx Hall']; subst.
    destruct (file_of x) as [f|] eqn:Ef; [|contradiction].
    destruct st as [h comps]. cbn [snd] in *.
    destruct (merge_intra_node_Some g pre x post pre h comps f W En Ef Inv)
      as (h1 & added1 & E & Inv').
    pose proof (merge_step_order pre x f h comps h1 added1 Ef Inv Inv' Eo)
      as Eo'.
    rewrite E, io_bind_Ok. cbn iota beta. cbn [fst snd].
    destruct (IH (pre ++ [x]) fuel (h1, comps ++ added1))
      as (h2 & added2 & E' & Inv'' & Eo'');
      [now rewrite <- app_assoc|simpl in Hf; lia|exact Inv'|exact Eo'
      |exact Hall'|].
    cbn [snd] in E', Inv'', Eo''.
    exists h2, (added1 ++ added2). rewrite E'. cbn [fst snd].
    rewrite <- !app_assoc in Inv'', Eo''. rewrite map_app, <- !app_assoc.
    auto.
Qed.

Lemma graph_merge_intra_nodes_ordered g :
  wf g -> all_have_file g ->
  exists h comps,
    graph_merge_intra_nodes g
    = (Ok h, map debug_line (first_occurrences (nonempty_files g))) /\
    merge_inv (g_nodes g) (h, comps) /\
    map fst comps = first_occurrences (nonempty_files g).
Proof.
  intros W Hf. unfold graph_merge_intra_nodes, agfstnode.
  destruct (merge_loop_order g W (g_nodes g) [] (length (g_nodes g))
              (agopen, []))
    as (h & comps & E & Inv & Eo); auto.
  { apply merge_inv_init. }
  { apply Forall_forall. exact Hf. }
  cbn [snd app] in E, Inv, Eo.
  rewrite E, io_bind_Ok. cbn iota beta. exists h, comps.
  unfold io_ret. cbn [fst snd]. rewrite app_nil_r.
  change (files_of (g_nodes g)) with (nonempty_files g) in Eo.
  rewrite <- Eo, map_map. auto.
Qed.

(** X7.  On a graph whose nodes all carry a [file] the merger returns a
    graph whose nodes are the compartments of the distinct non-empty
    [file] values in the order in which these first occur among the
    nodes; a compartment is named after its file and has it as [label]
    and nothing else, so that [agget] gives no [file] for it; the graph
    has no edge; and one line is printed for each compartment, in the
    same order. *)
Theorem merged_compartments_in_order g :
  wf g -> all_have_file g ->
  exists h,
    graph_merge_intra_nodes g
    = (Ok h, map debug_line (first_occurrences (nonempty_files g))) /\
    map n_name (g_nodes h) = first_occurrences (nonempty_files g) /\
    (forall c, In c (g_nodes h) ->
               n_attrs c = [("label", n_name c)] /\
               agget h (n_id c) "file" = Ok None) /\
    g_edges h = [].
Proof.
  intros W Hf.
  destruct (graph_merge_intra_nodes_ordered g W Hf)
    as (h & comps & E & Inv & Eo).
  destruct (merged_graph_wf _ h comps Inv) as [Wh Nf].
  destruct Inv as (In1 & In2 & _).
  exists h. split; [exact E|]. split; [|split; [|exact In2]].
  - rewrite In1, map_map, <- Eo. reflexivity.
  - intros c Hc. split.
    + rewrite In1 in Hc. apply in_map_iff in Hc.
      destruct Hc as (k & <- & _). reflexivity.
    + rewrite (agget_In h c _ Wh Hc). f_equal. apply (Nf c Hc).
Qed.

Lemma merged_compartments_in_order_witness :
  exists h,
    graph_merge_intra_nodes sample_graph
    = (Ok h, [debug_line (quoted "a.c"); debug_line (quoted "b.c")]) /\
    map n_name (g_nodes h) = [quoted "a.c"; quoted "b.c"] /\
    (forall c, In c (g_nodes h) ->
               n_attrs c = [("label", n_name c)] /\
               agget h (n_id c) "file" = Ok None) /\
    g_edges h = [].
Proof.
  exact (merged_compartments_in_order sample_graph
           sample_graph_wf sample_graph_files).
Defined.

(** ** The output of a run on one graph *)

Lemma reduced_graph_Ok g :
  wf g -> all_have_file g -> no_intra_loop g ->
  graph_remove_intra_edges g = Ok (reduced_graph g) /\
  wf (reduced_graph g) /\ all_have_file (reduced_graph g) /\
  (forall x, In x (g_nodes (reduced_graph g)) -> In x (g_nodes g)).
Proof.
  intros W Hf Hl.
  destruct (graph_remove_intra_edges_total g W Hf Hl) as [g' E].
  pose proof (graph_remove_intra_edges_reduced g g' W E) as Eg. subst g'.
  destruct (graph_remove_intra_edges_Ok g _ W E) as (W' & R & _).
  split; auto. split; auto. split.
  - apply (reduced_all_have_file g _ W E).
  - intros x Hx. apply (reduct_node_In g _ x R Hx).
Qed.

(** X8.  Compartment mode, end to end.  For a graph whose nodes all
    carry a [file] and that has no loop edge inside a file, the run
    writes one line for each distinct non-empty [file] of the reduced
    graph, in the order of first occurrence, then the two opening lines
    of the document, and ends there in a null dereference: the emitter
    reads the [file] of the first compartment, which has none.  Only
    when the reduced graph has no non-empty [file] does the run
    complete, and the document then has two empty arrays. *)
Theorem compartment_mode_output g :
  wf g -> all_have_file g -> no_intra_loop g ->
  process_graph NODE_TYPE_COMPARTMENT FORMAT_TYPE_D3_ARC g
  = match first_occurrences (nonempty_files (reduced_graph g)) with
    | [] => (Ok tt, d3_arc_frame [] [])
    | f :: r => (Abort NullDeref, map debug_line (f :: r) ++ d3_arc_opening)
    end.
Proof.
  intros W Hf Hl.
  destruct (reduced_graph_Ok g W Hf Hl) as (E & W1 & Hf1 & _).
  destruct (graph_merge_intra_nodes_ordered _ W1 Hf1)
    as (h & comps & Em & Inv & Eo).
  destruct (merged_graph_wf _ h comps Inv) as [Wh Nf].
  destruct Inv as (In1 & In2 & _).
  unfold process_graph.
  rewrite E, io_bind_lift_Ok, Em, io_bind_Ok. rewrite <- Eo.
  destruct comps as [|c comps]; cbn [map] in *.
  - assert (Ph : printable h)
      by (intros x Hx; rewrite In1 in Hx; contradiction).
    rewrite (graph_print_d3_arc_document h Wh Ph).
    unfold d3_arc_document, d3_arc_frame. rewrite In1. reflexivity.
  - rewrite (graph_print_d3_arc_first_null h _ _ Wh In1)
      by (right; reflexivity).
    reflexivity.
Qed.

Lemma compartment_mode_output_witness :
  process_graph NODE_TYPE_COMPARTMENT FORMAT_TYPE_D3_ARC sample_graph
  = (Abort NullDeref,
     [debug_line (quoted "a.c"); debug_line (quoted "b.c")]
     ++ d3_arc_opening).
Proof.
  exact (compartment_mode_output sample_graph sample_graph_wf
           sample_graph_files sample_graph_no_loop).
Defined.

(** X9.  Function mode, end to end.  For a graph whose nodes all carry
    [label] and [file] and that has no loop edge inside a file, the run
    writes the document of the reduced graph and nothing else. *)
Theorem function_mode_output g :
  wf g -> printable g -> no_intra_loop g ->
  process_graph NODE_TYPE_FUNCTION FORMAT_TYPE_D3_ARC g
  = (Ok tt, d3_arc_document (reduced_graph g)).
Proof.
  intros W P Hl.
  assert (Hf : all_have_file g) by (intros x Hx; apply (P x Hx)).
  destruct (reduced_graph_Ok g W Hf Hl) as (E & W1 & _ & Sub).
  unfold process_graph.
  rewrite E, io_bind_lift_Ok, io_bind_ret.
  apply graph_print_d3_arc_document; auto.
  intros x Hx. apply P, Sub, Hx.
Qed.

Lemma function_mode_output_witness :
  process_graph NODE_TYPE_FUNCTION FORMAT_TYPE_D3_ARC sample_graph
  = (Ok tt, d3_arc_document sample_reduced).
Proof.
  exact (function_mode_output sample_graph sample_graph_wf
           sample_graph_printable sample_graph_no_loop).
Defined.

(** ** [main] *)

Lemma parse_options_invalid opts nodetype formattype :
  (exists o, In o opts /\ valid_option o = false) ->
  parse_options opts nodetype formattype = None.
Proof.
  revert nodetype formattype.
  induction opts as [|[ch optarg] r IH]; intros nt ft (o & Ho & Hv).
  - contradiction.
  - cbn [parse_options]. unfold valid_option in Hv.
    destruct Ho as [<-|Ho].
    + destruct (Ascii.eqb ch "n").
      * simpl in Hv. rewrite orb_false_iff in Hv. destruct Hv as [Hv _].
        destruct (node_type_from_str optarg); auto; discriminate.
      * destruct (Ascii.eqb ch "f"); auto.
        simpl in Hv.
        destruct (format_type_from_str optarg); auto; discriminate.
    + assert (Hr : forall nt' ft', parse_options r nt' ft' = None)
        by (intros; apply IH; eauto).
      destruct (Ascii.eqb ch "n").
      * destruct (node_type_from_str optarg); auto.
      * destruct (Ascii.eqb ch "f"); auto.
        destruct (format_type_from_str optarg); auto.
Qed.

Lemma parse_options_valid opts :
  forallb valid_option opts = true ->
  forall nodetype,
    parse_options opts nodetype FORMAT_TYPE_D3_ARC
    = Some (fold_left pick_node_type opts nodetype, FORMAT_TYPE_D3_ARC).
Proof.
  induction opts as [|[ch optarg] r IH]; intros Hv nt; [reflexivity|].
  cbn [forallb] in Hv. apply andb_true_iff in Hv. destruct Hv as [Ho Hr].
  cbn [parse_options fold_left pick_node_type]. unfold valid_option in Ho.
  destruct (Ascii.eqb_spec ch "n") as [->|Hn].
  - simpl in Ho.
    destruct (node_type_from_str optarg); try apply (IH Hr). discriminate.
  - destruct (Ascii.eqb ch "f"); [|discriminate].
    simpl in Ho. unfold format_type_from_str in *.
    destruct (String.eqb optarg "d3-arc"); [apply (IH Hr)|discriminate].
Qed.

Lemma chosen_node_type_valid opts :
  forallb valid_option opts = true ->
  chosen_node_type opts = NODE_TYPE_FUNCTION \/
  chosen_node_type opts = NODE_TYPE_COMPARTMENT.
Proof.
  unfold chosen_node_type.
  assert (H : forall nt,
             nt = NODE_TYPE_FUNCTION \/ nt = NODE_TYPE_COMPARTMENT ->
             forallb valid_option opts = true ->
             fold_left pick_node_type opts nt = NODE_TYPE_FUNCTION \/
             fold_left pick_node_type opts nt = NODE_TYPE_COMPARTMENT).
  { induction opts as [|[ch optarg] r IH]; intros nt Hnt Hv; auto.
    cbn [forallb] in Hv. apply andb_true_iff in Hv. destruct Hv as [Ho Hr].
    cbn [fold_left pick_node_type]. apply IH; auto.
    unfold valid_option in Ho.
    destruct (Ascii.eqb_spec ch "n") as [->|Hn]; auto. simpl in Ho.
    destruct (node_type_from_str optarg); auto. discriminate. }
  intros Hv. apply H; auto.
Qed.

(** X10.  A usage error ends [main] with status 1 before any graph is
    read: when some option is not [-n function], [-n compartment] or
    [-f d3-arc], or when no input file is named, nothing is written to
    standard output. *)
Theorem main_usage_error opts argv graphs_of :
  (exists o, In o opts /\ valid_option o = false) \/ argv = [] ->
  main opts argv graphs_of = (Ok 1, []).
Proof.
  intros [Hbad| ->]; unfold main.
  - now rewrite parse_options_invalid.
  - destruct (parse_options opts _ _) as [[nt ft]|]; reflexivity.
Qed.

Lemma main_usage_error_witness :
  main [("n"%char, "file")] ["input.dot"] (fun _ => [sample_graph])
  = (Ok 1, []) /\
  main [("n"%char, "function")] [] (fun _ => [sample_graph]) = (Ok 1, []).
Proof.
  split; apply main_usage_error.
  - left. exists ("n"%char, "file"). split; [now left|reflexivity].
  - right. reflexivity.
Defined.

(** X11.  With valid options and an input file, [main] processes the
    graphs of the first file named, and of no other, with the output
    format [d3-arc] and the node type of the last [-n] option
    ([compartment] when there is none), which is never the invalid
    type, and returns status 0 when no graph aborts the run. *)
Theorem main_run opts file rest graphs_of :
  forallb valid_option opts = true ->
  main opts (file :: rest) graphs_of
  = (_ <~ main_loop (chosen_node_type opts) FORMAT_TYPE_D3_ARC
                    (graphs_of file) ;;
     io_ret 0) /\
  (chosen_node_type opts = NODE_TYPE_FUNCTION \/
   chosen_node_type opts = NODE_TYPE_COMPARTMENT) /\
  (forall optarg,
     chosen_node_type (opts ++ [("n"%char, optarg)])
     = node_type_from_str optarg).
Proof.
  intros Hv. split; [|split].
  - unfold main. now rewrite (parse_options_valid opts Hv).
  - now apply chosen_node_type_valid.
  - intros optarg. unfold chosen_node_type.
    now rewrite fold_left_app.
Qed.

Lemma main_run_witness :
  main [("n"%char, "compartment"); ("n"%char, "function")]
       ["input.dot"; "other.dot"] (fun _ => [sample_graph])
  = (Ok 0, d3_arc_document sample_reduced).
Proof.
  destruct (main_run [("n"%char, "compartment"); ("n"%char, "function")]
              "input.dot" ["other.dot"] (fun _ => [sample_graph]) eq_refl)
    as (E & _ & _).
  rewrite E. vm_compute. reflexivity.
Defined.

Lemma main_loop_completes nodetype formattype graphs :
  (forall g, In g graphs -> fst (process_graph nodetype formattype g) = Ok tt) ->
  main_loop nodetype formattype graphs
  = (Ok tt,
     flat_map (fun g => snd (process_graph nodetype formattype g)) graphs).
Proof.
  induction graphs as [|g r IH]; intros H; [reflexivity|].
  cbn [main_loop flat_map]. unfold io_bind.
  rewrite (H g) by now left. rewrite IH by (intros; apply H; now right).
  reflexivity.
Qed.

(** X12.  Function mode, a whole run.  With valid options the last
    [-n] of which is [function], and an input whose graphs all carry
    [label] and [file] on every node and have no loop edge inside a
    file, [main] writes the document of the reduced graph of each graph
    of the first file named, one document after the other in the order
    of the graphs, and returns status 0. *)
Theorem main_function_mode_documents opts file rest graphs_of :
  forallb valid_option opts = true ->
  chosen_node_type opts = NODE_TYPE_FUNCTION ->
  (forall g, In g (graphs_of file) ->
             wf g /\ printable g /\ no_intra_loop g) ->
  main opts (file :: rest) graphs_of
  = (Ok 0,
     flat_map (fun g => d3_arc_document (reduced_graph g)) (graphs_of file)).
Proof.
  intros Hv Hn Hg. unfold main.
  rewrite (parse_options_valid opts Hv). fold (chosen_node_type opts).
  rewrite Hn.
  assert (Hp : forall g, In g (graphs_of file) ->
                 process_graph NODE_TYPE_FUNCTION FORMAT_TYPE_D3_ARC g
                 = (Ok tt, d3_arc_document (reduced_graph g))).
  { intros g Hin. destruct (Hg g Hin) as (W & P & Hl).
    assert (Hf : all_have_file g) by (intros x Hx; apply (P x Hx)).
    destruct (reduced_graph_Ok g W Hf Hl) as (E & W1 & _ & Sub).
    unfold process_graph. rewrite E, io_bind_lift_Ok, io_bind_ret.
    apply graph_print_d3_arc_document; auto.
    intros x Hx. apply P, Sub, Hx. }
  rewrite main_loop_completes
    by (intros g Hin; now rewrite (Hp g Hin)).
  rewrite io_bind_Ok. unfold io_ret. cbn [fst snd]. rewrite app_nil_r.
  f_equal. apply flat_map_ext_in. intros g Hin. now rewrite (Hp g Hin).
Qed.

Lemma main_function_mode_documents_witness :
  main [("f"%char, "d3-arc"); ("n"%char, "function")]
       ["input.dot"] (fun _ => [sample_graph; pair_graph])
  = (Ok 0, d3_arc_document sample_reduced ++ d3_arc_document pair_graph).
Proof.
  rewrite (main_function_mode_documents
             [("f"%char, "d3-arc"); ("n"%char, "function")]
             "input.dot" [] (fun _ => [sample_graph; pair_graph])
             eq_refl eq_refl).
  - vm_compute. reflexivity.
  - intros g [<-|[<-|[]]].
    + split; [exact sample_graph_wf|].
      split; [exact sample_graph_printable|exact sample_graph_no_loop].
    + split; [exact pair_graph_wf|]. split; [exact pair_graph_printable|].
      intros e [<-|[]] Et. discriminate.
Defined.
